(** * Dynamic backgrounds plugin: a shallow embedding of the five variants

  The repository holds five successive iterations of one Obsidian plugin:

  - [MainTs]    src/main.ts                       (inline tick body)
  - [Part000]   src/unnamed/part_000              (cycle index, fixed tint)
  - [Part001a]  src/unnamed/part_001, lines 1-198     (random background,
                marker class, mutation observer, debounce, teardown)
  - [Part001b]  src/unnamed/part_001, lines 199-393   (random background,
                per-target opacity)
  - [Part001c]  src/unnamed/part_001, lines 394-705   (cycle index,
                per-target opacity, interval restart)

  The host (DOM, timers, storage, console) is modelled by explicit state:
  a tree of elements addressed by node identity, a table of timers, the
  persisted settings document and a console log.  [Math.random], [new URL]
  and the CSS parser of the browser are parameters.

  Layout: the host primitives ([JS], [Dom], [Timers]), the variants, the
  event loop of [debounce] ([EventLoop]), [loadSettings] ([Persist]), the
  predicates the statements use ([Styler], [Shapes], [Invariants]) and the
  concrete inputs ([Examples]); then the facts about the tree ([DomFacts])
  and the statements about the program, by component. *)

From Stdlib Require Import ZArith QArith Qround Ascii String List Lia.
From stdpp Require Import base tactics option list strings gmap fin_maps.

Local Open Scope string_scope.
Local Open Scope list_scope.
Set Warnings "-register-all".

(** ** Host language primitives *)

Module JS.

(** Values of type [number] that the code computes with: the cycle index
    and the timer period are integers, the zero with a minus sign, an
    infinity or NaN ([parseInt], [%]).  [Int z] is the double whose value is
    the integer [z]. *)
Inductive number := NaN | Int (z : Z) | NegZero | Infinity | NegInfinity.

#[export] Instance number_eq_dec : EqDecision number.
Proof. solve_decision. Defined.

(** [a + b].  The sum of two integers is taken exactly: the one sum of the
    code is [index + 1], for an index that is 0 or a remainder by the length
    of an array, where no double is rounded. *)
Definition add (a b : number) : number :=
  match a, b with
  | NaN, _ | _, NaN => NaN
  | Infinity, NegInfinity | NegInfinity, Infinity => NaN
  | Infinity, _ | _, Infinity => Infinity
  | NegInfinity, _ | _, NegInfinity => NegInfinity
  | NegZero, NegZero => NegZero
  | NegZero, Int y => Int y
  | Int x, NegZero => Int x
  | Int x, Int y => Int (x + y)
  end.

(** [a % b]: the remainder takes the sign of the dividend, also when it is
    zero; a zero divisor or an infinite dividend gives NaN; an infinite
    divisor leaves the dividend. *)
Definition rem (a b : number) : number :=
  match a, b with
  | NaN, _ | _, NaN => NaN
  | Infinity, _ | NegInfinity, _ => NaN
  | _, NegZero => NaN
  | NegZero, Int y => if (y =? 0)%Z then NaN else NegZero
  | NegZero, _ => NegZero
  | Int x, Int y =>
      if (y =? 0)%Z then NaN
      else if (Z.rem x y =? 0)%Z && (x <? 0)%Z then NegZero
      else Int (Z.rem x y)
  | Int x, _ => Int x
  end.

(** [arr.length] *)
Definition length_of {A} (arr : list A) : number := Int (Z.of_nat (length arr)).

(** [arr[i]]: [None] stands for [undefined].  Both zeros are the key
    ["0"]. *)
Definition index {A} (arr : list A) (i : number) : option A :=
  match i with
  | Int z => if (z <? 0)%Z then None else arr !! Z.to_nat z
  | NegZero => arr !! 0
  | NaN | Infinity | NegInfinity => None
  end.

(** [`${v}`] for a value that is a string or [undefined]. *)
Definition template (v : option string) : string := default "undefined" v.

(** The double quote character, used inside template literals. *)
Definition dquote : string := String (ascii_of_nat 34) EmptyString.

(** [forEach]: the callback runs on the items in order, each run seeing
    the state left by the previous one. *)
Definition forEach {A S} (items : list A) (callback : A → S → S) (s : S) : S :=
  fold_left (λ s a, callback a s) items s.

(** White space of [trim] and [parseInt], on code units below 256. *)
Definition is_white (c : ascii) : bool :=
  let n := nat_of_ascii c in
  ((9 <=? n)%nat && (n <=? 13)%nat) || (n =? 32)%nat || (n =? 160)%nat.

Fixpoint trimStart (s : string) : string :=
  match s with
  | String c s' => if is_white c then trimStart s' else s
  | EmptyString => EmptyString
  end.

(** [trimEnd], by recursion from the right end. *)
Fixpoint trimEnd (s : string) : string :=
  match s with
  | String c s' =>
      match trimEnd s' with
      | EmptyString => if is_white c then EmptyString else String c EmptyString
      | t => String c t
      end
  | EmptyString => EmptyString
  end.

Definition trim (s : string) : string := trimEnd (trimStart s).

(** [s.split(sep)] for a one-character separator: always at least one
    piece. *)
Fixpoint split (sep : ascii) (s : string) : list string :=
  match s with
  | EmptyString => [EmptyString]
  | String c s' =>
      if Ascii.eqb c sep then EmptyString :: split sep s'
      else match split sep s' with
           | w :: ws => String c w :: ws
           | [] => [String c EmptyString]
           end
  end.

(** Value of a digit in radix [r], if it is one. *)
Definition digit_value (r : Z) (c : ascii) : option Z :=
  let n := Z.of_nat (nat_of_ascii c) in
  let v :=
    if (48 <=? n)%Z && (n <=? 57)%Z then Some (n - 48)%Z
    else if (97 <=? n)%Z && (n <=? 122)%Z then Some (n - 87)%Z
    else if (65 <=? n)%Z && (n <=? 90)%Z then Some (n - 55)%Z
    else None in
  match v with
  | Some d => if (d <? r)%Z then Some d else None
  | None => None
  end.

(** The longest prefix of digits, read left to right; [None] when the
    prefix is empty. *)
Fixpoint digits (r : Z) (acc : option Z) (s : string) : option Z :=
  match s with
  | String c s' =>
      match digit_value r c with
      | Some d => digits r (Some (default 0%Z acc * r + d)%Z) s'
      | None => acc
      end
  | EmptyString => acc
  end.

(** The double nearest to the natural number [n], ties going to the even
    mantissa of 53 bits, as an integer; [None] when it lies beyond the largest
    double. *)
Definition nearest_double (n : Z) : option Z :=
  if (n <? 2 ^ 53)%Z then Some n
  else
    let shift := (Z.log2 n - 52)%Z in
    let q := Z.shiftr n shift in
    let r := (n - Z.shiftl q shift)%Z in
    let half := Z.shiftl 1 (shift - 1) in
    let q := if (half <? r)%Z || ((r =? half)%Z && Z.odd q) then (q + 1)%Z else q in
    let m := Z.shiftl q shift in
    if (m <? 2 ^ 1024)%Z then Some m else None.

(** The number for the digits that [parseInt] has read, [n], after the
    sign: the nearest double, an infinity beyond the doubles, and a zero that
    keeps the sign. *)
Definition of_digits (sign n : Z) : number :=
  match nearest_double n with
  | Some m =>
      if (m =? 0)%Z then (if (sign <? 0)%Z then NegZero else Int 0)
      else Int (sign * m)
  | None => if (sign <? 0)%Z then NegInfinity else Infinity
  end.

(** [parseInt(s)] with no radix argument.  All the digits are read (the
    standard also lets an engine take the decimal digits after the twentieth
    for zeros). *)
Definition parseInt (s : string) : number :=
  let s := trimStart s in
  let '(sign, s) :=
    match s with
    | String "-" s' => ((-1)%Z, s')
    | String "+" s' => (1%Z, s')
    | _ => (1%Z, s)
    end in
  let '(r, s) :=
    match s with
    | String "0" (String "x" s') => (16%Z, s')
    | String "0" (String "X" s') => (16%Z, s')
    | _ => (10%Z, s)
    end in
  match digits r None s with
  | Some n => of_digits sign n
  | None => NaN
  end.

End JS.

(** ** The live UI tree *)

Module Dom.

(** A style property value.  [CssRgba r g b a] is the text
    [rgba(r, g, b, a)] produced by a template literal whose last hole is a
    number; [CssInitial] is the initial value of a property, as an assignment
    to a shorthand leaves it in the properties that its value does not name;
    every other value is kept as the text that was assigned (how the browser
    writes a value when it is read back is not modelled). *)
Inductive css_value :=
| CssText (s : string)
| CssRgba (r g b : Z) (alpha : Q)
| CssInitial.

(** What the code asks of the browser's CSS parser: whether it accepts the
    text as a value of the property, as [CSS.supports(property, text)]
    tells. *)
Class CssParser := { CSS_supports : string → string → bool }.

(** An element: its identity, class tokens, inline style and children. *)
Inductive element := Element {
  node_id : nat;
  classList : list string;
  style : gmap string css_value;
  childNodes : list element }.

(** The element with its descendants, in document order. *)
Fixpoint subtree (e : element) : list element :=
  e :: flat_map subtree (childNodes e).

Definition descendants (e : element) : list element :=
  flat_map subtree (childNodes e).

Definition has_class (c : string) (e : element) : bool :=
  bool_decide (c ∈ classList e).

(** Apply [f] to the node whose identity is [i]. *)
Fixpoint update (i : nat) (f : element → element) (e : element) : element :=
  let e' := Element (node_id e) (classList e) (style e)
                    (map (update i f) (childNodes e)) in
  if decide (node_id e = i) then f e' else e'.

(** Detach the node whose identity is [i] from its parent. *)
Fixpoint detach (i : nat) (e : element) : element :=
  Element (node_id e) (classList e) (style e)
          (flat_map (λ c, if decide (node_id c = i) then [] else [detach i c])
                    (childNodes e)).

Definition getElement (i : nat) (e : element) : option element :=
  head (filter (λ n, node_id n = i) (subtree e)).

(** The document: the body element and the supply of node identities. *)
Record document := Document { body : element; next_id : nat }.

(** [document.querySelectorAll("." + c)]: a static list, in document
    order, of the nodes that carry the class. *)
Definition querySelectorAll (c : string) (d : document) : list nat :=
  node_id <$> filter (λ n, has_class c n = true) (subtree (body d)).

(** [el.querySelector("." + c)]: the first descendant of [el] (never [el]
    itself) that carries the class. *)
Definition el_querySelector (c : string) (e : element) : option nat :=
  head (node_id <$> filter (λ n, has_class c n = true) (descendants e)).

Definition querySelector (el : nat) (c : string) (d : document) : option nat :=
  getElement el (body d) ≫= el_querySelector c.

(** The inline style of a node holds the declarations made by
    assignments to [el.style], under the names of the properties. *)

Section Style.

Context {css : CssParser}.

(** Whether the parser accepts the value for the property.  The text
    [rgba(r, g, b, a)] with numbers in it is a colour; the keyword of the
    initial value is a value of every property. *)
Definition accepts (p : string) (v : css_value) : bool :=
  match v with
  | CssText s => CSS_supports p s
  | CssRgba _ _ _ _ => bool_decide (p = "backgroundColor")
  | CssInitial => true
  end.

(** [style[p] = v]: the empty text removes the declaration of [p]; a value
    that the parser does not accept for [p] is ignored; any other value
    becomes the declaration of [p].  The code assigns in this way properties
    that stand for themselves, and two that stand for others (border,
    backgroundPosition) of which it assigns none. *)
Definition assign (p : string) (v : css_value) (m : gmap string css_value)
    : gmap string css_value :=
  match v with
  | CssText EmptyString => delete p m
  | _ => if accepts p v then <[p := v]> m else m
  end.

(** The properties that the shorthand [background] stands for, apart from
    the colour. *)
Definition background_others : list string :=
  ["backgroundImage"; "backgroundPosition"; "backgroundSize"; "backgroundRepeat";
   "backgroundAttachment"; "backgroundOrigin"; "backgroundClip"].

(** [style.background = colour]: a colour alone is a value of the
    shorthand; it declares the colour, and the initial value for every other
    property of the shorthand.  The code assigns nothing else to
    [background] (part_001, lines 601-698). *)
Definition assign_background (colour : css_value) (m : gmap string css_value)
    : gmap string css_value :=
  <["backgroundColor" := colour]>
    (foldr (λ p m, <[p := CssInitial]> m) m background_others).

(** Node-level setters. *)
Definition el_setStyle (p : string) (v : css_value) (e : element) : element :=
  Element (node_id e) (classList e) (assign p v (style e)) (childNodes e).

Definition el_setBackground (colour : css_value) (e : element) : element :=
  Element (node_id e) (classList e) (assign_background colour (style e)) (childNodes e).

End Style.

Definition el_setClassName (c : string) (e : element) : element :=
  Element (node_id e) [c] (style e) (childNodes e).

Definition el_classList_add (c : string) (e : element) : element :=
  Element (node_id e)
          (if has_class c e then classList e else classList e ++ [c])
          (style e) (childNodes e).

Definition el_classList_remove (c : string) (e : element) : element :=
  Element (node_id e) (filter (λ x, x ≠ c) (classList e)) (style e) (childNodes e).

Definition el_appendChild (child : element) (e : element) : element :=
  Element (node_id e) (classList e) (style e) (childNodes e ++ [child]).

(** Document-level operations on a node reference. *)
Definition setStyle {css : CssParser} (el : nat) (p : string) (v : css_value)
    (d : document) : document :=
  Document (update el (el_setStyle p v) (body d)) (next_id d).

Definition setBackground (el : nat) (colour : css_value) (d : document) : document :=
  Document (update el (el_setBackground colour) (body d)) (next_id d).

Definition classList_add (el : nat) (c : string) (d : document) : document :=
  Document (update el (el_classList_add c) (body d)) (next_id d).

Definition classList_remove (el : nat) (c : string) (d : document) : document :=
  Document (update el (el_classList_remove c) (body d)) (next_id d).

(** [document.createElement("div")]: a node outside the tree, with a
    fresh identity. *)
Definition createElement (d : document) : element * document :=
  (Element (next_id d) [] ∅ [], Document (body d) (S (next_id d))).

Definition appendChild (el : nat) (child : element) (d : document) : document :=
  Document (update el (el_appendChild child) (body d)) (next_id d).

(** [node.remove()] *)
Definition remove (i : nat) (d : document) : document :=
  Document (detach i (body d)) (next_id d).

(** Distinct identities, all below the supply. *)
Definition ids (e : element) : list nat := node_id <$> subtree e.

Definition wf (d : document) : Prop :=
  NoDup (ids (body d)) ∧ Forall (λ i, i < next_id d) (ids (body d)).

(** [document.querySelectorAll("." + anc + " ." + c)]: the nodes with class
    [c] that lie below a node with class [anc]; [inside] tells whether such
    an ancestor has been passed. *)
Fixpoint select_under (anc c : string) (inside : bool) (e : element) : list nat :=
  (if inside && has_class c e then [node_id e] else []) ++
  flat_map (select_under anc c (inside || has_class anc e)) (childNodes e).

Definition querySelectorAll_under (anc c : string) (d : document) : list nat :=
  select_under anc c false (body d).

(** The tree without its inline styles: identities, classes, children. *)
Fixpoint structure (e : element) : element :=
  Element (node_id e) (classList e) ∅ (map structure (childNodes e)).

Definition doc_structure (d : document) : document :=
  Document (structure (body d)) (next_id d).

(** Number of children of [e] that carry class [c]. *)
Definition count_children (c : string) (e : element) : nat :=
  length (filter (λ n, has_class c n = true) (childNodes e)).

End Dom.

(** ** Repeating timers of the host window *)

Module Timers.

(** The repeating timers that are active, each with the period it was
    created with, and the supply of handles. *)
Record table := Table {
  active : list (nat * JS.number);
  next_handle : nat }.

Definition empty (first_handle : nat) : table := Table [] first_handle.

(** [window.setInterval(callback, period)] *)
Definition setInterval (period : JS.number) (t : table) : nat * table :=
  (next_handle t, Table (active t ++ [(next_handle t, period)]) (S (next_handle t))).

(** [window.clearInterval(id)]; an [undefined] or stale id does nothing. *)
Definition clearInterval (id : option nat) (t : table) : table :=
  match id with
  | Some h => Table (filter (λ x, x.1 ≠ h) (active t)) (next_handle t)
  | None => t
  end.

End Timers.

(** ** src/unnamed/part_000: cycle index, fixed tint *)

Module Part000.
Import Dom.

Record MyPluginSettings := {
  interval : JS.number;
  backgrounds : list string }.

Definition freepik : string :=
  "url('https://img.freepik.com/free-photo/geometric-shapes-orange-background_23-2148209958.jpg?size=626&ext=jpg&ga=GA1.1.1174352020.1726297089&semt=ais_hybrid')".

Definition DEFAULT_SETTINGS : MyPluginSettings :=
  {| interval := JS.Int 3000; backgrounds := [freepik; freepik] |}.

Record MyPlugin := {
  settings : MyPluginSettings;
  intervalId : option nat;
  currentBackgroundIndex : JS.number }.

Section Host.

Context {css : CssParser}.

Definition applyBackgroundAndOverlay (elements : list nat)
    (backgroundImageUrl : option string) : document → document :=
  JS.forEach elements (λ element d,
    let d := setStyle element "backgroundImage" (CssText (JS.template backgroundImageUrl)) d in
    let d := setStyle element "backgroundSize" (CssText "cover") d in
    let d := setStyle element "backgroundPosition" (CssText "center") d in
    let d := setStyle element "position" (CssText "relative") d in
    let d := setStyle element "zIndex" (CssText "2") d in
    match querySelector element "background-overlay" d with
    | None =>
        let '(overlay, d) := createElement d in
        let overlay := el_setClassName "background-overlay" overlay in
        let overlay := el_setStyle "position" (CssText "absolute") overlay in
        let overlay := el_setStyle "top" (CssText "0") overlay in
        let overlay := el_setStyle "left" (CssText "0") overlay in
        let overlay := el_setStyle "width" (CssText "100%") overlay in
        let overlay := el_setStyle "height" (CssText "100%") overlay in
        let overlay := el_setStyle "backgroundColor" (CssText "rgba(255, 255, 255, 0.5)") overlay in
        let overlay := el_setStyle "zIndex" (CssText "-1") overlay in
        let overlay := el_setStyle "pointerEvents" (CssText "none") overlay in
        appendChild element overlay d
    | Some _ => d
    end).

Definition updateBackgrounds (this : MyPlugin) (d : document) : document :=
  let backgroundImageUrl :=
    JS.index (backgrounds (settings this)) (currentBackgroundIndex this) in
  let titleBarTexts := querySelectorAll "view-content" d in
  let d := applyBackgroundAndOverlay titleBarTexts backgroundImageUrl d in
  let headerContainers := querySelectorAll "workspace-tab-header-container" d in
  applyBackgroundAndOverlay headerContainers backgroundImageUrl d.

(** The plugin instance together with the host state it acts on. *)
Record world := World {
  this : MyPlugin;
  doc : document;
  timers : Timers.table;
  storage : option MyPluginSettings
    (** what [saveData] wrote last *) }.

(** The callback that [startBackgroundChange] hands to [setInterval]. *)
Definition tick (w : world) : world :=
  let p := this w in
  let p := {| settings := settings p; intervalId := intervalId p;
              currentBackgroundIndex :=
                JS.rem (JS.add (currentBackgroundIndex p) (JS.Int 1))
                       (JS.length_of (backgrounds (settings p))) |} in
  World p (updateBackgrounds p (doc w)) (timers w) (storage w).

Definition startBackgroundChange (w : world) : world :=
  let '(id, t) := Timers.setInterval (interval (settings (this w))) (timers w) in
  World {| settings := settings (this w); intervalId := Some id;
           currentBackgroundIndex := currentBackgroundIndex (this w) |}
        (doc w) t (storage w).

Definition saveSettings (w : world) : world :=
  World (this w) (doc w) (timers w) (Some (settings (this w))).

(** [onload], with the settings that [loadSettings] produced. *)
Definition onload (loaded : MyPluginSettings) (d : document) (first_handle : nat) : world :=
  startBackgroundChange
    (World {| settings := loaded; intervalId := None;
              currentBackgroundIndex := JS.Int 0 |}
           d (Timers.empty first_handle) None).

Definition onunload (w : world) : world :=
  World (this w) (doc w) (Timers.clearInterval (intervalId (this w)) (timers w))
        (storage w).

Definition interval_onChange (value : string) (w : world) : world :=
  saveSettings
    (World {| settings := {| interval := JS.parseInt value;
                             backgrounds := backgrounds (settings (this w)) |};
              intervalId := intervalId (this w);
              currentBackgroundIndex := currentBackgroundIndex (this w) |}
           (doc w) (timers w) (storage w)).

(** [onChange] of the background list, up to its [await]. *)
Definition backgrounds_onChange (value : string) (w : world) : world :=
  saveSettings
    (World {| settings := {| interval := interval (settings (this w));
                             backgrounds := JS.trim <$> JS.split "," value |};
              intervalId := intervalId (this w);
              currentBackgroundIndex := currentBackgroundIndex (this w) |}
           (doc w) (timers w) (storage w)).

Definition backgrounds_onChange_resume (w : world) : world :=
  World (this w) (updateBackgrounds (this w) (doc w)) (timers w) (storage w).

(** What can happen to a loaded plugin instance.  Both handlers that
    [onload] registers for active-leaf-change call [updateBackgrounds]. *)
Inductive event :=
| Tick (handle : nat)
| ActiveLeafChange
| IntervalInput (value : string)
| BackgroundsInput (value : string)
| BackgroundsResume
| Unload.

Definition step (w : world) (e : event) : world :=
  match e with
  | Tick h =>
      if bool_decide (h ∈ (Timers.active (timers w)).*1) then tick w else w
  | ActiveLeafChange =>
      let d := updateBackgrounds (this w) (doc w) in
      World (this w) (updateBackgrounds (this w) d) (timers w) (storage w)
  | IntervalInput value => interval_onChange value w
  | BackgroundsInput value => backgrounds_onChange value w
  | BackgroundsResume => backgrounds_onChange_resume w
  | Unload => onunload w
  end.

Definition run (w : world) (events : list event) : world :=
  fold_left step events w.

End Host.

End Part000.


(** ** src/unnamed/part_001, lines 394-705: cycle index, per-target opacity *)

Module Part001c.
Import Dom.

Record OpacitySettings := {
  sidebar : Q;
  viewContent : Q;
  tabHeaderContainer : Q;
  tabHeader : Q;
  workspaceLeaf : Q;
  kanbanItem : Q }.

Record MyPluginSettings := {
  interval : JS.number;
  backgrounds : list string;
  opacitySettings : OpacitySettings }.

Definition DEFAULT_SETTINGS : MyPluginSettings :=
  {| interval := JS.Int 3000;
     backgrounds := [Part000.freepik; Part000.freepik];
     opacitySettings :=
       {| sidebar := 0.5; viewContent := 0.5; tabHeaderContainer := 0.5;
          tabHeader := 0.5; workspaceLeaf := 0.5; kanbanItem := 0.2 |} |}.

Record MyPlugin := {
  settings : MyPluginSettings;
  intervalId : option nat;
  currentBackgroundIndex : JS.number }.

(** A record delivered to a mutation observer. *)
Record MutationRecord := {
  type : string;
  addedNodes_length : nat }.

(** The plugin instance together with the host state it acts on. *)
Record world := World {
  this : MyPlugin;
  doc : document;
  timers : Timers.table;
  observers : list (option string);
    (** the observers created so far, none ever disconnected; each callback
        closes over the [backgroundImageUrl] of the call that created it *)
  storage : option MyPluginSettings
    (** what [saveData] wrote last *) }.

Definition with_settings (s : MyPluginSettings) (w : world) : world :=
  World {| settings := s; intervalId := intervalId (this w);
           currentBackgroundIndex := currentBackgroundIndex (this w) |}
        (doc w) (timers w) (observers w) (storage w).

Definition with_doc (d : document) (w : world) : world :=
  World (this w) d (timers w) (observers w) (storage w).

Section Host.

Context {css : CssParser}.

Definition applyBackgroundAndOverlay (elements : list nat)
    (backgroundImageUrl : option string) (opacity : Q) : document → document :=
  JS.forEach elements (λ element d,
    let d := setStyle element "backgroundImage"
               (CssText ("url(" +:+ JS.dquote +:+ JS.template backgroundImageUrl +:+ JS.dquote +:+ ")")) d in
    let d := setStyle element "backgroundSize" (CssText "cover") d in
    let d := setStyle element "backgroundPosition" (CssText "center") d in
    let d := setStyle element "position" (CssText "relative") d in
    let d := setStyle element "zIndex" (CssText "2") d in
    let d := setStyle element "boxShadow" (CssText "10px 10px 5px 0px rgba(0, 0, 0, 0.75)") d in
    let d := setStyle element "border" (CssText "1px orange solid") d in
    match querySelector element "background-overlay" d with
    | None =>
        let '(overlay, d) := createElement d in
        let overlay := el_setClassName "background-overlay" overlay in
        let overlay := el_setStyle "position" (CssText "absolute") overlay in
        let overlay := el_setStyle "top" (CssText "0") overlay in
        let overlay := el_setStyle "left" (CssText "0") overlay in
        let overlay := el_setStyle "width" (CssText "100%") overlay in
        let overlay := el_setStyle "height" (CssText "100%") overlay in
        let overlay := el_setStyle "backgroundColor" (CssRgba 255 255 255 opacity) overlay in
        let overlay := el_setStyle "zIndex" (CssText "-1") overlay in
        let overlay := el_setStyle "pointerEvents" (CssText "none") overlay in
        appendChild element overlay d
    | Some _ => d
    end).

(** The four selector passes of [updateBackgrounds]. *)
Definition restyle (this : MyPlugin) (d : document) : document :=
  let backgroundImageUrl :=
    JS.index (backgrounds (settings this)) (currentBackgroundIndex this) in
  let o := opacitySettings (settings this) in
  let titleBarTexts := querySelectorAll "view-content" d in
  let d := applyBackgroundAndOverlay titleBarTexts backgroundImageUrl (viewContent o) d in
  let headerContainers := querySelectorAll "workspace-tab-header-container" d in
  let d := applyBackgroundAndOverlay headerContainers backgroundImageUrl (tabHeaderContainer o) d in
  let headerTabs := querySelectorAll "workspace-tab-header" d in
  let d := applyBackgroundAndOverlay headerTabs backgroundImageUrl (tabHeader o) d in
  let workspaceLeaf' := querySelectorAll "workspace-leaf" d in
  applyBackgroundAndOverlay workspaceLeaf' backgroundImageUrl (workspaceLeaf o) d.

(** [updateBackgrounds]: the four passes, then a new observer on the body
    whose callback keeps this call's [backgroundImageUrl]. *)
Definition updateBackgrounds (w : world) : world :=
  let backgroundImageUrl :=
    JS.index (backgrounds (settings (this w))) (currentBackgroundIndex (this w)) in
  World (this w) (restyle (this w) (doc w)) (timers w)
        (observers w ++ [backgroundImageUrl]) (storage w).

(** The callback of one observer, on one batch of records. *)
Definition observer_callback (backgroundImageUrl : option string)
    (mutationsList : list MutationRecord) (w : world) : world :=
  JS.forEach mutationsList (λ mutation w,
    if (0 <? addedNodes_length mutation)%nat then
      let o := opacitySettings (settings (this w)) in
      let kanbanLane := querySelectorAll "kanban-plugin__lane" (doc w) in
      let w :=
        if (0 <? length kanbanLane)%nat
        then with_doc (applyBackgroundAndOverlay kanbanLane backgroundImageUrl (viewContent o) (doc w)) w
        else w in
      let kanbanItems := querySelectorAll "kanban-plugin__item-title-wrapper" (doc w) in
      if (0 <? length kanbanItems)%nat
      then with_doc (applyBackgroundAndOverlay kanbanItems backgroundImageUrl (kanbanItem o) (doc w)) w
      else w
    else w) w.

(** The callback of the repeating timer. *)
Definition tick (w : world) : world :=
  let p := this w in
  let p := {| settings := settings p; intervalId := intervalId p;
              currentBackgroundIndex :=
                JS.rem (JS.add (currentBackgroundIndex p) (JS.Int 1))
                       (JS.length_of (backgrounds (settings p))) |} in
  updateBackgrounds (World p (doc w) (timers w) (observers w) (storage w)).

Definition startBackgroundChange (w : world) : world :=
  let '(id, t) := Timers.setInterval (interval (settings (this w))) (timers w) in
  World {| settings := settings (this w); intervalId := Some id;
           currentBackgroundIndex := currentBackgroundIndex (this w) |}
        (doc w) t (observers w) (storage w).

Definition saveSettings (w : world) : world :=
  World (this w) (doc w) (timers w) (observers w) (Some (settings (this w))).

(** [onload], with the settings that [loadSettings] produced. *)
Definition onload (loaded : MyPluginSettings) (d : document) (first_handle : nat) : world :=
  startBackgroundChange
    (World {| settings := loaded; intervalId := None;
              currentBackgroundIndex := JS.Int 0 |}
           d (Timers.empty first_handle) [] None).

Definition onunload (w : world) : world :=
  World (this w) (doc w) (Timers.clearInterval (intervalId (this w)) (timers w))
        (observers w) (storage w).

(** The sliders of the settings tab, by the setting each one edits. *)
Inductive slider :=
| SidebarOpacity | ViewContentOpacity | TabHeaderContainerOpacity
| TabHeaderOpacity | WorkspaceLeafOpacity | KanbanItemOpacity.

(** [this.plugin.settings.opacitySettings.<key> = value] *)
Definition set_opacity (k : slider) (value : Q) (o : OpacitySettings) : OpacitySettings :=
  match k with
  | SidebarOpacity =>
      {| sidebar := value; viewContent := viewContent o;
         tabHeaderContainer := tabHeaderContainer o; tabHeader := tabHeader o;
         workspaceLeaf := workspaceLeaf o; kanbanItem := kanbanItem o |}
  | ViewContentOpacity =>
      {| sidebar := sidebar o; viewContent := value;
         tabHeaderContainer := tabHeaderContainer o; tabHeader := tabHeader o;
         workspaceLeaf := workspaceLeaf o; kanbanItem := kanbanItem o |}
  | TabHeaderContainerOpacity =>
      {| sidebar := sidebar o; viewContent := viewContent o;
         tabHeaderContainer := value; tabHeader := tabHeader o;
         workspaceLeaf := workspaceLeaf o; kanbanItem := kanbanItem o |}
  | TabHeaderOpacity =>
      {| sidebar := sidebar o; viewContent := viewContent o;
         tabHeaderContainer := tabHeaderContainer o; tabHeader := value;
         workspaceLeaf := workspaceLeaf o; kanbanItem := kanbanItem o |}
  | WorkspaceLeafOpacity =>
      {| sidebar := sidebar o; viewContent := viewContent o;
         tabHeaderContainer := tabHeaderContainer o; tabHeader := tabHeader o;
         workspaceLeaf := value; kanbanItem := kanbanItem o |}
  | KanbanItemOpacity =>
      {| sidebar := sidebar o; viewContent := viewContent o;
         tabHeaderContainer := tabHeaderContainer o; tabHeader := tabHeader o;
         workspaceLeaf := workspaceLeaf o; kanbanItem := value |}
  end.

(** The class under which each slider's handler looks for overlays to
    repaint, as written in the handler. *)
Definition slider_repaints (k : slider) : string :=
  match k with
  | SidebarOpacity => "workspace-tab-header-container"
  | ViewContentOpacity => "workspace-tab-header-container"
  | TabHeaderContainerOpacity => "workspace-tab-header"
  | TabHeaderOpacity => "workspace-leaf"
  | WorkspaceLeafOpacity => "kanban-plugin__lane"
  | KanbanItemOpacity => "kanban-plugin__item-title-wrapper"
  end.

(** Each [onChange] handler is an async function: it runs up to its
    [await this.plugin.saveSettings()] ([saveData] is called there), and its
    remainder runs at some later turn of the event loop. *)

Definition interval_onChange (value : string) (w : world) : world :=
  let s := settings (this w) in
  let w := with_settings {| interval := JS.parseInt value;
                            backgrounds := backgrounds s;
                            opacitySettings := opacitySettings s |} w in
  saveSettings w.

Definition interval_onChange_resume (w : world) : world :=
  let w := World (this w) (doc w)
                 (Timers.clearInterval (intervalId (this w)) (timers w))
                 (observers w) (storage w) in
  let w := startBackgroundChange w in
  updateBackgrounds w.

Definition backgrounds_onChange (value : string) (w : world) : world :=
  let s := settings (this w) in
  let w := with_settings {| interval := interval s;
                            backgrounds := JS.trim <$> JS.split "," value;
                            opacitySettings := opacitySettings s |} w in
  saveSettings w.

Definition backgrounds_onChange_resume (w : world) : world :=
  updateBackgrounds w.

Definition opacity_onChange (k : slider) (value : Q) (w : world) : world :=
  let s := settings (this w) in
  let w := with_settings {| interval := interval s;
                            backgrounds := backgrounds s;
                            opacitySettings := set_opacity k value (opacitySettings s) |} w in
  let overlays := querySelectorAll_under (slider_repaints k) "background-overlay" (doc w) in
  let w := with_doc (JS.forEach overlays (λ cont d,
                       setBackground cont (CssRgba 255 255 255 value) d) (doc w)) w in
  saveSettings w.

Definition opacity_onChange_resume (w : world) : world :=
  updateBackgrounds w.

(** What can happen to a loaded plugin instance. *)
Inductive event :=
| Tick (handle : nat)
| ActiveLeafChange
| IntervalInput (value : string)
| IntervalResume
| BackgroundsInput (value : string)
| BackgroundsResume
| OpacityInput (k : slider) (value : Q)
| OpacityResume
| Mutations (records : list MutationRecord)
| Unload.

Definition step (w : world) (e : event) : world :=
  match e with
  | Tick h =>
      if bool_decide (h ∈ (Timers.active (timers w)).*1) then tick w else w
  | ActiveLeafChange => updateBackgrounds w
  | IntervalInput value => interval_onChange value w
  | IntervalResume => interval_onChange_resume w
  | BackgroundsInput value => backgrounds_onChange value w
  | BackgroundsResume => backgrounds_onChange_resume w
  | OpacityInput k value => opacity_onChange k value w
  | OpacityResume => opacity_onChange_resume w
  | Mutations records =>
      JS.forEach (observers w) (λ url w, observer_callback url records w) w
  | Unload => onunload w
  end.

Definition run (w : world) (events : list event) : world :=
  fold_left step events w.

End Host.

End Part001c.

(** ** src/unnamed/part_001, lines 1-198: random background, marker class,
    mutation observer, debounce, teardown *)

Module Part001a.
Import Dom.

Record OpacitySettings := {
  viewContent : Q;
  tabHeaderContainer : Q;
  tabHeader : Q;
  workspaceLeaf : Q;
  kanbanItem : Q }.

Record MyPluginSettings := {
  backgrounds : list string;
  opacitySettings : OpacitySettings }.

Definition DEFAULT_SETTINGS : MyPluginSettings :=
  {| backgrounds := ["https://example.com/image1.jpg";
                     "https://example.com/image2.jpg";
                     "https://example.com/image3.jpg"];
     opacitySettings :=
       {| viewContent := 0.5; tabHeaderContainer := 0.4; tabHeader := 0.3;
          workspaceLeaf := 0.6; kanbanItem := 0.7 |} |}.

Record MutationRecord := {
  type : string;
  addedNodes_length : nat }.

(** The plugin instance together with the host state it acts on. *)
Record world := World {
  settings : MyPluginSettings;
  doc : document;
  random_calls : nat;     (** calls made to [Math.random] so far *)
  observing : bool;       (** [this.observer] is connected *)
  console : list string;  (** lines written by [console.warn] *)
  storage : option MyPluginSettings  (** what [saveData] wrote last *) }.

Definition with_doc (d : document) (w : world) : world :=
  World (settings w) d (random_calls w) (observing w) (console w) (storage w).

Section Host.

Context {css : CssParser}.

(** [Math_random k] is what the [k]-th call of [Math.random] returns. *)
Variable Math_random : nat → Q.

(** Whether [new URL(s)] returns (otherwise it throws a TypeError). *)
Variable URL_accepts : string → bool.

Definition getRandomBackground (w : world) : option string * world :=
  let backgrounds := backgrounds (settings w) in
  let randomIndex :=
    Qfloor (Math_random (random_calls w) * inject_Z (Z.of_nat (length backgrounds))) in
  (JS.index backgrounds (JS.Int randomIndex),
   World (settings w) (doc w) (S (random_calls w)) (observing w) (console w) (storage w)).

Definition applyBackgroundAndOverlay (elements : list nat) (opacity : Q) (w : world) : world :=
  let '(backgroundImageUrl, w) := getRandomBackground w in
  with_doc (JS.forEach elements (λ element d,
    let d := setStyle element "backgroundImage"
               (CssText ("url(" +:+ JS.dquote +:+ JS.template backgroundImageUrl +:+ JS.dquote +:+ ")")) d in
    match querySelector element "dynamic-backgrounds-overlay" d with
    | None =>
        let '(overlay, d) := createElement d in
        let overlay := el_setClassName "dynamic-backgrounds-overlay" overlay in
        let overlay := el_setStyle "backgroundColor" (CssRgba 255 255 255 opacity) overlay in
        appendChild element overlay d
    | Some _ => d
    end) (doc w)) w.

Definition updateBackgrounds (w : world) : world :=
  let o := opacitySettings (settings w) in
  let selectors :=
    [("view-content", viewContent o);
     ("workspace-tab-header-container", tabHeaderContainer o);
     ("workspace-tab-header", tabHeader o);
     ("view-header", tabHeader o);
     ("workspace-leaf", workspaceLeaf o)] in
  JS.forEach selectors (λ '(selector, opacity) w,
    let elements := querySelectorAll selector (doc w) in
    let w := with_doc (JS.forEach elements (λ el d,
                         classList_add el "dynamic-backgrounds" d) (doc w)) w in
    applyBackgroundAndOverlay elements opacity w) w.

Definition handleMutations (mutationsList : list MutationRecord) (w : world) : world :=
  JS.forEach mutationsList (λ mutation w,
    if String.eqb (type mutation) "childList" && (0 <? addedNodes_length mutation)%nat then
      let kanbanLane := querySelectorAll "kanban-plugin__lane" (doc w) in
      let kanbanItems := querySelectorAll "kanban-plugin__item-title-wrapper" (doc w) in
      let w :=
        if (0 <? length kanbanLane)%nat then
          let w := with_doc (JS.forEach kanbanLane (λ el d,
                               classList_add el "dynamic-backgrounds" d) (doc w)) w in
          applyBackgroundAndOverlay kanbanLane (viewContent (opacitySettings (settings w))) w
        else w in
      if (0 <? length kanbanItems)%nat then
        let w := with_doc (JS.forEach kanbanItems (λ el d,
                             classList_add el "dynamic-backgrounds" d) (doc w)) w in
        applyBackgroundAndOverlay kanbanItems (kanbanItem (opacitySettings (settings w))) w
      else w
    else w) w.

Definition removeBackgrounds (w : world) : world :=
  with_doc (JS.forEach (querySelectorAll "dynamic-backgrounds" (doc w)) (λ el d,
    let d := setStyle el "backgroundImage" (CssText "") d in
    let d := classList_remove el "dynamic-backgrounds" d in
    match querySelector el "dynamic-backgrounds-overlay" d with
    | Some overlay => remove overlay d
    | None => d
    end) (doc w)) w.

(** [onload], with the settings that [loadSettings] produced.  The
    active-leaf-change handler is the debounced [updateBackgrounds]
    (see [EventLoop]). *)
Definition onload (loaded : MyPluginSettings) (d : document) (random_calls : nat) : world :=
  updateBackgrounds (World loaded d random_calls true [] None).

Definition onunload (w : world) : world :=
  let w := World (settings w) (doc w) (random_calls w) false (console w) (storage w) in
  removeBackgrounds w.

Definition saveSettings (w : world) : world :=
  World (settings w) (doc w) (random_calls w) (observing w) (console w) (Some (settings w)).

(** [isValidUrl]: the TypeError of [new URL(url)] is caught and reported
    on the console. *)
Definition isValidUrl (url : string) (w : world) : bool * world :=
  if URL_accepts url then (true, w)
  else (false, World (settings w) (doc w) (random_calls w) (observing w)
                     (console w ++ ["Invalid URL: " +:+ url]) (storage w)).

(** [arr.filter(callback)] for a callback that acts on the world. *)
Fixpoint Array_filter (callback : string → world → bool * world)
    (arr : list string) (w : world) : list string * world :=
  match arr with
  | [] => ([], w)
  | x :: arr' =>
      let '(keep, w) := callback x w in
      let '(rest, w) := Array_filter callback arr' w in
      (if keep then x :: rest else rest, w)
  end.

(** [onChange] of the background list, whole: nothing follows its
    [await]. *)
Definition backgrounds_onChange (value : string) (w : world) : world :=
  let urls := JS.trim <$> JS.split "," value in
  let '(valid, w) := Array_filter isValidUrl urls w in
  let w := World {| backgrounds := valid; opacitySettings := opacitySettings (settings w) |}
                 (doc w) (random_calls w) (observing w) (console w) (storage w) in
  saveSettings w.

(** The keys of [opacitySettings]: [display] makes a slider for each. *)
Inductive opacity_key :=
| ViewContent | TabHeaderContainer | TabHeader | WorkspaceLeaf | KanbanItem.

(** [this.plugin.settings.opacitySettings[key] = value] *)
Definition set_opacity (key : opacity_key) (value : Q) (o : OpacitySettings) : OpacitySettings :=
  match key with
  | ViewContent =>
      {| viewContent := value; tabHeaderContainer := tabHeaderContainer o;
         tabHeader := tabHeader o; workspaceLeaf := workspaceLeaf o;
         kanbanItem := kanbanItem o |}
  | TabHeaderContainer =>
      {| viewContent := viewContent o; tabHeaderContainer := value;
         tabHeader := tabHeader o; workspaceLeaf := workspaceLeaf o;
         kanbanItem := kanbanItem o |}
  | TabHeader =>
      {| viewContent := viewContent o; tabHeaderContainer := tabHeaderContainer o;
         tabHeader := value; workspaceLeaf := workspaceLeaf o;
         kanbanItem := kanbanItem o |}
  | WorkspaceLeaf =>
      {| viewContent := viewContent o; tabHeaderContainer := tabHeaderContainer o;
         tabHeader := tabHeader o; workspaceLeaf := value;
         kanbanItem := kanbanItem o |}
  | KanbanItem =>
      {| viewContent := viewContent o; tabHeaderContainer := tabHeaderContainer o;
         tabHeader := tabHeader o; workspaceLeaf := workspaceLeaf o;
         kanbanItem := value |}
  end.

(** [onChange] of a slider (lines 192-195), whole: nothing follows its
    [await]. *)
Definition opacity_onChange (key : opacity_key) (value : Q) (w : world) : world :=
  let w := World {| backgrounds := backgrounds (settings w);
                    opacitySettings := set_opacity key value (opacitySettings (settings w)) |}
                 (doc w) (random_calls w) (observing w) (console w) (storage w) in
  saveSettings w.

End Host.

End Part001a.

(** ** src/unnamed/part_001, lines 199-393: random background, per-target
    opacity *)

Module Part001b.
Import Dom.

(** The settings interface and the defaults are those of the first
    variant, character for character. *)
Definition OpacitySettings := Part001a.OpacitySettings.
Definition MyPluginSettings := Part001a.MyPluginSettings.
Definition DEFAULT_SETTINGS : MyPluginSettings := Part001a.DEFAULT_SETTINGS.

Record MutationRecord := {
  addedNodes_length : nat }.

(** The plugin instance together with the host state it acts on. *)
Record world := World {
  settings : MyPluginSettings;
  doc : document;
  random_calls : nat;   (** calls made to [Math.random] so far *)
  observers : nat;      (** observers created so far, none ever disconnected *)
  storage : option MyPluginSettings }.

Definition with_doc (d : document) (w : world) : world :=
  World (settings w) d (random_calls w) (observers w) (storage w).

Section Host.

Context {css : CssParser}.

(** [Math_random k] is what the [k]-th call of [Math.random] returns. *)
Variable Math_random : nat → Q.

Definition getRandomBackground (w : world) : option string * world :=
  let backgrounds := Part001a.backgrounds (settings w) in
  let randomIndex :=
    Qfloor (Math_random (random_calls w) * inject_Z (Z.of_nat (length backgrounds))) in
  (JS.index backgrounds (JS.Int randomIndex),
   World (settings w) (doc w) (S (random_calls w)) (observers w) (storage w)).

Definition applyBackgroundAndOverlay (elements : list nat) (opacity : Q) (w : world) : world :=
  let '(backgroundImageUrl, w) := getRandomBackground w in
  with_doc (JS.forEach elements (λ element d,
    let d := setStyle element "backgroundImage"
               (CssText ("url(" +:+ JS.dquote +:+ JS.template backgroundImageUrl +:+ JS.dquote +:+ ")")) d in
    let d := setStyle element "backgroundSize" (CssText "cover") d in
    let d := setStyle element "backgroundPosition" (CssText "center") d in
    let d := setStyle element "position" (CssText "relative") d in
    let d := setStyle element "zIndex" (CssText "2") d in
    let d := setStyle element "boxShadow" (CssText "10px 10px 5px 0px rgba(0, 0, 0, 0.75)") d in
    let d := setStyle element "border" (CssText "1px orange solid") d in
    match querySelector element "background-overlay" d with
    | None =>
        let '(overlay, d) := createElement d in
        let overlay := el_setClassName "background-overlay" overlay in
        let overlay := el_setStyle "position" (CssText "absolute") overlay in
        let overlay := el_setStyle "top" (CssText "0") overlay in
        let overlay := el_setStyle "left" (CssText "0") overlay in
        let overlay := el_setStyle "width" (CssText "100%") overlay in
        let overlay := el_setStyle "height" (CssText "100%") overlay in
        let overlay := el_setStyle "backgroundColor" (CssRgba 255 255 255 opacity) overlay in
        let overlay := el_setStyle "zIndex" (CssText "-1") overlay in
        let overlay := el_setStyle "pointerEvents" (CssText "none") overlay in
        appendChild element overlay d
    | Some _ => d
    end) (doc w)) w.

(** [updateBackgrounds]: five selector passes, then one more observer on
    the body. *)
Definition updateBackgrounds (w : world) : world :=
  let o := Part001a.opacitySettings (settings w) in
  let titleBarTexts := querySelectorAll "view-content" (doc w) in
  let w := applyBackgroundAndOverlay titleBarTexts (Part001a.viewContent o) w in
  let headerContainers := querySelectorAll "workspace-tab-header-container" (doc w) in
  let w := applyBackgroundAndOverlay headerContainers (Part001a.tabHeaderContainer o) w in
  let headerTabs := querySelectorAll "workspace-tab-header" (doc w) in
  let w := applyBackgroundAndOverlay headerTabs (Part001a.tabHeader o) w in
  let viewHeaders := querySelectorAll "view-header" (doc w) in
  let w := applyBackgroundAndOverlay viewHeaders (Part001a.tabHeader o) w in
  let workspaceLeaf := querySelectorAll "workspace-leaf" (doc w) in
  let w := applyBackgroundAndOverlay workspaceLeaf (Part001a.workspaceLeaf o) w in
  World (settings w) (doc w) (random_calls w) (S (observers w)) (storage w).

(** The callback of one observer, on one batch of records. *)
Definition observer_callback (mutationsList : list MutationRecord) (w : world) : world :=
  JS.forEach mutationsList (λ mutation w,
    if (0 <? addedNodes_length mutation)%nat then
      let o := Part001a.opacitySettings (settings w) in
      let kanbanLane := querySelectorAll "kanban-plugin__lane" (doc w) in
      let w :=
        if (0 <? length kanbanLane)%nat
        then applyBackgroundAndOverlay kanbanLane (Part001a.viewContent o) w
        else w in
      let kanbanItems := querySelectorAll "kanban-plugin__item-title-wrapper" (doc w) in
      if (0 <? length kanbanItems)%nat
      then applyBackgroundAndOverlay kanbanItems (Part001a.kanbanItem o) w
      else w
    else w) w.

(** [onload], with the settings that [loadSettings] produced; [onunload]
    does nothing. *)
Definition onload (loaded : MyPluginSettings) (d : document) (random_calls : nat) : world :=
  updateBackgrounds (World loaded d random_calls 0 None).

Definition onunload (w : world) : world := w.

End Host.

End Part001b.

(** ** One-shot timers and [debounce] (part_001, lines 63-69) *)

Module EventLoop.

Section Loop.

(** [A]: the arguments of a call; [St]: the state the debounced function
    acts on. *)
Context {A St : Type}.

(** The clock, the one-shot timers that are pending (earliest first, each
    with its handle, due time and the arguments its callback will pass on),
    the supply of handles, the state, and the calls made so far. *)
Record loop := Loop {
  now : Z;
  pending : list (nat * Z * A);
  next_timeout : nat;
  state : St;
  calls : list A }.

Fixpoint enqueue (x : nat * Z * A) (q : list (nat * Z * A)) : list (nat * Z * A) :=
  match q with
  | [] => [x]
  | y :: q' => if (x.1.2 <? y.1.2)%Z then x :: q else y :: enqueue x q'
  end.

(** [setTimeout(() => func(...args), delay)] *)
Definition setTimeout (args : A) (delay : Z) (l : loop) : nat * loop :=
  (next_timeout l,
   Loop (now l) (enqueue (next_timeout l, (now l + Z.max 0 delay)%Z, args) (pending l))
        (S (next_timeout l)) (state l) (calls l)).

(** [clearTimeout(id)]; an [undefined] or stale id does nothing. *)
Definition clearTimeout (id : option nat) (l : loop) : loop :=
  match id with
  | Some h => Loop (now l) (filter (λ x, x.1.1 ≠ h) (pending l))
                   (next_timeout l) (state l) (calls l)
  | None => l
  end.

(** The function returned by [debounce(func, wait)], applied to [args];
    [timeout] is the variable the closure keeps. *)
Definition debounced (wait : Z) (args : A) (st : option nat * loop) : option nat * loop :=
  let '(timeout, l) := st in
  let l := clearTimeout timeout l in
  let '(timeout, l) := setTimeout args wait l in
  (Some timeout, l).

Variable func : A → St → St.

(** Let time pass until [t]: the timers due by then run, earliest first. *)
Definition run_until (t : Z) (l : loop) : loop :=
  let due := filter (λ x, (x.1.2 <= t)%Z) (pending l) in
  Loop (Z.max (now l) t)
       (filter (λ x, ¬ (x.1.2 <= t)%Z) (pending l))
       (next_timeout l)
       (fold_left (λ s x, func x.2 s) due (state l))
       (calls l ++ due.*2).

(** The triggering event arrives at time [t] with arguments [args]. *)
Definition trigger (wait : Z) (st : option nat * loop) (ev : Z * A) : option nat * loop :=
  debounced wait ev.2 (st.1, run_until ev.1 st.2).

Definition triggers (wait : Z) (evs : list (Z * A)) (st : option nat * loop) : option nat * loop :=
  fold_left (trigger wait) evs st.

(** Each event of [evs] arrives within the quiet window of the one before
    it, the first of them within the window of an event at time [t]. *)
Fixpoint within_window (wait : Z) (t : Z) (evs : list (Z * A)) : Prop :=
  match evs with
  | [] => True
  | ev :: evs' => (t <= ev.1 < t + wait)%Z ∧ within_window wait ev.1 evs'
  end.

(** The closure has one call pending: the one made at time [t] with
    arguments [args]. *)
Definition armed (wait : Z) (t : Z) (args : A) (st : option nat * loop) : Prop :=
  ∃ h, st.1 = Some h ∧ pending st.2 = [(h, (t + Z.max 0 wait)%Z, args)] ∧ now st.2 = t.

End Loop.

End EventLoop.

(** ** src/main.ts: the tick body written inline *)

Module MainTs.
Import Dom.

Record MyPluginSettings := {
  interval : JS.number;
  backgrounds : list string }.

Definition DEFAULT_SETTINGS : MyPluginSettings :=
  {| interval := JS.Int 3000; backgrounds := [Part000.freepik; Part000.freepik] |}.

(** The plugin instance, the variable [index] that the timer callback
    closes over, and the host state. *)
Record world := World {
  settings : MyPluginSettings;
  intervalId : option nat;
  index : JS.number;
  doc : document;
  timers : Timers.table;
  console : list string;
  storage : option MyPluginSettings }.

(** [items.forEach((item, index) => ...)]: the callback also receives the
    position of the item. *)
Definition forEach_indexed {A St} (items : list A) (callback : A → nat → St → St) (s : St) : St :=
  fold_left (λ s ai, callback ai.2 ai.1 s) (zip (seq 0 (length items)) items) s.

(** The callback of the repeating timer.  Inside [forEach] the callback's
    own parameter [index] hides the outer variable. *)
Definition tick {css : CssParser} (w : world) : world :=
  let log := JS.template (JS.index (backgrounds (settings w)) (index w)) in
  let titleBarTexts := querySelectorAll "view-content" (doc w) in
  let d := forEach_indexed titleBarTexts (λ titleBarText index d,
    let d := setStyle titleBarText "backgroundImage"
               (CssText (JS.template (JS.index (backgrounds (settings w))
                                               (JS.Int (Z.of_nat index))))) d in
    let d := setStyle titleBarText "backgroundSize" (CssText "cover") d in
    let d := setStyle titleBarText "backgroundPosition" (CssText "center") d in
    let d := setStyle titleBarText "position" (CssText "relative") d in
    let d := setStyle titleBarText "zIndex" (CssText "2") d in
    match querySelector titleBarText "background-overlay" d with
    | None =>
        let '(overlay, d) := createElement d in
        let overlay := el_setClassName "background-overlay" overlay in
        let overlay := el_setStyle "position" (CssText "absolute") overlay in
        let overlay := el_setStyle "top" (CssText "0") overlay in
        let overlay := el_setStyle "left" (CssText "0") overlay in
        let overlay := el_setStyle "width" (CssText "100%") overlay in
        let overlay := el_setStyle "height" (CssText "100%") overlay in
        let overlay := el_setStyle "backgroundColor" (CssText "rgba(255, 255, 255, 0.5)") overlay in
        let overlay := el_setStyle "zIndex" (CssText "-1") overlay in
        let overlay := el_setStyle "pointerEvents" (CssText "none") overlay in
        appendChild titleBarText overlay d
    | Some _ => d
    end) (doc w) in
  World (settings w) (intervalId w)
        (JS.rem (JS.add (index w) (JS.Int 1)) (JS.length_of (backgrounds (settings w))))
        d (timers w) (console w ++ [log]) (storage w).

Definition startBackgroundChange (w : world) : world :=
  let '(id, t) := Timers.setInterval (interval (settings w)) (timers w) in
  World (settings w) (Some id) (JS.Int 0) (doc w) t (console w) (storage w).

Definition saveSettings (w : world) : world :=
  World (settings w) (intervalId w) (index w) (doc w) (timers w) (console w)
        (Some (settings w)).

(** [onChange] of the interval field. *)
Definition interval_onChange (value : string) (w : world) : world :=
  saveSettings
    (World {| interval := JS.parseInt value; backgrounds := backgrounds (settings w) |}
           (intervalId w) (index w) (doc w) (timers w) (console w) (storage w)).

End MainTs.

(** ** [loadSettings]: the persisted document over the defaults *)

Module Persist.

(** A JSON value; an object maps property names to values. *)
Inductive json :=
| JNull
| JNumber (q : Q)
| JString (s : string)
| JArray (items : list json)
| JObject (props : gmap string json).

(** One source of [Object.assign]: each of its own properties is set on the
    target; [null] and [undefined] sources are skipped. *)
Definition assign_from (source : option (gmap string json)) (target : gmap string json)
    : gmap string json :=
  match source with
  | Some src => map_fold (λ key value target, <[key := value]> target) target src
  | None => target
  end.

(** [Object.assign(target, ...sources)] *)
Definition Object_assign (target : gmap string json)
    (sources : list (option (gmap string json))) : gmap string json :=
  fold_left (λ target source, assign_from source target) sources target.

(** [obj.key]: [None] stands for [undefined], also when [obj] is not an
    object. *)
Definition get (key : string) (obj : option json) : option json :=
  match obj with
  | Some (JObject props) => props !! key
  | _ => None
  end.

(** The defaults of Part001a as the object literal of the source. *)
Definition DEFAULT_SETTINGS : gmap string json :=
  {[ "backgrounds" := JArray [JString "https://example.com/image1.jpg";
                               JString "https://example.com/image2.jpg";
                               JString "https://example.com/image3.jpg"];
     "opacitySettings" :=
       JObject {[ "viewContent" := JNumber 0.5;
                  "tabHeaderContainer" := JNumber 0.4;
                  "tabHeader" := JNumber 0.3;
                  "workspaceLeaf" := JNumber 0.6;
                  "kanbanItem" := JNumber 0.7 ]} ]}.

(** [loadSettings], for any defaults: [loadData] gave [data] ([None] when
    nothing was ever saved). *)
Definition loadSettings (defaults : gmap string json) (data : option (gmap string json))
    : gmap string json :=
  Object_assign ∅ [Some defaults; data].

End Persist.

(** ** The common shape of the styling callback *)

Module Styler.
Import Dom.

Section Host.

Context {css : CssParser}.

(** The assignments [el.style.p = v], in order. *)
Definition el_setStyles (ps : list (string * css_value)) (e : element) : element :=
  fold_left (λ e pv, el_setStyle pv.1 pv.2 e) ps e.

(** A new overlay node: class [oc], the given style assignments. *)
Definition overlay (oc : string) (ovs : list (string * css_value)) (i : nat) : element :=
  el_setStyles ovs (el_setClassName oc (Element i [] ∅ [])).

(** One run of the callback on [el]: style assignments [est] on the
    element, then an overlay appended unless a descendant carries [oc]. *)
Definition step (est : list (string * css_value)) (oc : string)
    (ovs : list (string * css_value)) (el : nat) (d : document) : document :=
  let d1 := Document (update el (el_setStyles est) (body d)) (next_id d) in
  match querySelector el oc d1 with
  | None =>
      Document (update el (el_appendChild (overlay oc ovs (next_id d))) (body d1))
               (S (next_id d))
  | Some _ => d1
  end.

(** A pass over several targets, each a class to query and the overlay
    style for the elements found. *)
Definition pass (est : list (string * css_value)) (oc : string)
    (targets : list (string * list (string * css_value))) (d : document) : document :=
  fold_left (λ d t, JS.forEach (querySelectorAll t.1 d) (step est oc t.2) d) targets d.

(** A node function that only rewrites the inline style. *)
Definition restyle_with (t : gmap string css_value → gmap string css_value)
    (e : element) : element :=
  Element (node_id e) (classList e) (t (style e)) (childNodes e).

Definition assign_all (ps : list (string * css_value)) (m : gmap string css_value)
    : gmap string css_value :=
  fold_left (λ m pv, assign pv.1 pv.2 m) ps m.

(** A node carries all the assignments [est]: making any of them again
    leaves its style as it is. *)
Definition styled (est : list (string * css_value)) (e : element) : Prop :=
  ∀ p v, (p, v) ∈ est → assign p v (style e) = style e.

(** A node has a descendant of class [c]. *)
Definition has_desc (c : string) (e : element) : Prop :=
  ∃ n, n ∈ descendants e ∧ has_class c n = true.

(** Assignments to distinct properties. *)
Definition distinct_props (est : list (string * css_value)) : Prop := NoDup est.*1.

(** A node is settled when it carries the assignments and an overlay lies
    below it: the callback then leaves it as it is. *)
Definition settled (est : list (string * css_value)) (oc : string) (e : element) : Prop :=
  styled est e ∧ has_desc oc e.

(** How a node [n] can look after some runs of the callback, as [x]. *)
Record evolved (est : list (string * css_value)) (oc : string) (n x : element) : Prop := {
  ev_id : node_id x = node_id n;
  ev_classes : classList x = classList n;
  ev_style_other : ∀ k, k ∉ est.*1 → style x !! k = style n !! k;
  ev_styled : styled est n → styled est x;
  ev_desc : has_desc oc n → has_desc oc x;
  ev_count : count_children oc x = count_children oc n
             ∨ (count_children oc n = 0 ∧ count_children oc x = 1);
  ev_children : has_desc oc n → node_id <$> childNodes x = node_id <$> childNodes n }.

(** The targets of a pass: the elements of the classes it queries. *)
Definition is_target (targets : list (string * list (string * css_value))) (e : element) : Prop :=
  ∃ t, t ∈ targets ∧ has_class t.1 e = true.

(** Every child of class [oc] hangs from a target. *)
Definition overlays_under_targets (oc : string)
    (targets : list (string * list (string * css_value))) (d : document) : Prop :=
  ∀ n c, n ∈ subtree (body d) → c ∈ childNodes n → has_class oc c = true →
    is_target targets n.

(** No node has more than one child of class [oc]. *)
Definition at_most_one (oc : string) (d : document) : Prop :=
  ∀ n, n ∈ subtree (body d) → (count_children oc n ≤ 1)%nat.

(** What a pass from [d] to [d'] leaves alone: every node of [d] is still
    in [d'], with the colour it had; and a node that had an overlay below it
    has one still, and the children it had, no other. *)
Definition undisturbed (oc : string) (d d' : document) : Prop :=
  ∀ n, n ∈ subtree (body d) →
    ∃ x, x ∈ subtree (body d') ∧ node_id x = node_id n
         ∧ style x !! "backgroundColor" = style n !! "backgroundColor"
         ∧ (has_desc oc n →
              has_desc oc x ∧ node_id <$> childNodes x = node_id <$> childNodes n).

(** The children with an identity from [from] on: each has the class [oc]
    alone, hangs from an element of one of the classes of [colours], and has
    the colour that goes with that class. *)
Definition made_under (oc : string) (colours : list (string * css_value)) (from : nat)
    (d' : document) : Prop :=
  ∀ p c, p ∈ subtree (body d') → c ∈ childNodes p → (from ≤ node_id c)%nat →
    classList c = [oc]
    ∧ ∃ sel colour, (sel, colour) ∈ colours ∧ has_class sel p = true
                    ∧ style c !! "backgroundColor" = Some colour.

(** The same of the nodes with an identity from [from] on: each is such a
    child. *)
Definition made_for (oc : string) (colours : list (string * css_value)) (from : nat)
    (d' : document) : Prop :=
  ∀ x, x ∈ subtree (body d') → (from ≤ node_id x)%nat →
    classList x = [oc]
    ∧ ∃ p sel colour,
        p ∈ subtree (body d') ∧ x ∈ childNodes p
        ∧ (sel, colour) ∈ colours ∧ has_class sel p = true
        ∧ style x !! "backgroundColor" = Some colour.

(** A part of a pass, from [d] to [d']: what the statements about whole
    passes are put together from. *)
Definition carries_on (oc : string) (colours : list (string * css_value)) (from : nat)
    (d d' : document) : Prop :=
  wf d' ∧ (next_id d ≤ next_id d')%nat ∧ node_id (body d') = node_id (body d)
  ∧ undisturbed oc d d'
  ∧ (made_under oc colours from d → made_under oc colours from d')
  ∧ (∀ c el, c ≠ oc → el ∈ querySelectorAll c d → el ∈ querySelectorAll c d').

(** What a pass from [d] has achieved in [d1]: an overlay below every
    target; no second overlay child anywhere, if there was none before;
    exactly one overlay child on each target that has no target below it, if
    before the pass overlays hung from targets only, at most one each. *)
Definition overlays_in_place (oc : string)
    (targets : list (string * list (string * css_value))) (d d1 : document) : Prop :=
  (∀ x, x ∈ subtree (body d1) → is_target targets x → has_desc oc x)
  ∧ (at_most_one oc d → at_most_one oc d1)
  ∧ (overlays_under_targets oc targets d → at_most_one oc d →
     ∀ x, x ∈ subtree (body d1) → is_target targets x →
       (∀ m, m ∈ descendants x → ¬ is_target targets m) →
       count_children oc x = 1).

(** Documents reached by runs of the callback, on any elements, with
    overlay styles taken from [ovss]. *)
Inductive reach (est : list (string * css_value)) (oc : string)
    (ovss : list (list (string * css_value))) (d : document) : document → Prop :=
| reach_refl : reach est oc ovss d d
| reach_step d1 ovs el :
    reach est oc ovss d d1 → ovs ∈ ovss → reach est oc ovss d (step est oc ovs el d1).

End Host.

End Styler.

(** ** The callbacks of the variants as instances of the common shape *)

Module Shapes.
Import Dom.

Definition overlay_class : string := "background-overlay".

(** part_000: assignments on the element. *)
Definition element_style_000 (backgroundImageUrl : option string) : list (string * css_value) :=
  [("backgroundImage", CssText (JS.template backgroundImageUrl));
   ("backgroundSize", CssText "cover");
   ("backgroundPosition", CssText "center");
   ("position", CssText "relative");
   ("zIndex", CssText "2")].

(** part_000: assignments on a new overlay. *)
Definition overlay_style_000 : list (string * css_value) :=
  [("position", CssText "absolute");
   ("top", CssText "0");
   ("left", CssText "0");
   ("width", CssText "100%");
   ("height", CssText "100%");
   ("backgroundColor", CssText "rgba(255, 255, 255, 0.5)");
   ("zIndex", CssText "-1");
   ("pointerEvents", CssText "none")].

Definition targets_000 : list (string * list (string * css_value)) :=
  [("view-content", overlay_style_000);
   ("workspace-tab-header-container", overlay_style_000)].

(** part_001, third variant: assignments on the element. *)
Definition element_style_001c (backgroundImageUrl : option string) : list (string * css_value) :=
  [("backgroundImage",
    CssText ("url(" +:+ JS.dquote +:+ JS.template backgroundImageUrl +:+ JS.dquote +:+ ")"));
   ("backgroundSize", CssText "cover");
   ("backgroundPosition", CssText "center");
   ("position", CssText "relative");
   ("zIndex", CssText "2");
   ("boxShadow", CssText "10px 10px 5px 0px rgba(0, 0, 0, 0.75)");
   ("border", CssText "1px orange solid")].

(** part_001, third variant: assignments on a new overlay. *)
Definition overlay_style_001c (opacity : Q) : list (string * css_value) :=
  [("position", CssText "absolute");
   ("top", CssText "0");
   ("left", CssText "0");
   ("width", CssText "100%");
   ("height", CssText "100%");
   ("backgroundColor", CssRgba 255 255 255 opacity);
   ("zIndex", CssText "-1");
   ("pointerEvents", CssText "none")].

Definition targets_001c (o : Part001c.OpacitySettings) : list (string * list (string * css_value)) :=
  [("view-content", overlay_style_001c (Part001c.viewContent o));
   ("workspace-tab-header-container", overlay_style_001c (Part001c.tabHeaderContainer o));
   ("workspace-tab-header", overlay_style_001c (Part001c.tabHeader o));
   ("workspace-leaf", overlay_style_001c (Part001c.workspaceLeaf o))].

(** part_001, second variant: the style assignments are those of the third;
    the five targets and their opacities. *)
Definition targets_001b (o : Part001a.OpacitySettings) : list (string * list (string * css_value)) :=
  [("view-content", overlay_style_001c (Part001a.viewContent o));
   ("workspace-tab-header-container", overlay_style_001c (Part001a.tabHeaderContainer o));
   ("workspace-tab-header", overlay_style_001c (Part001a.tabHeader o));
   ("view-header", overlay_style_001c (Part001a.tabHeader o));
   ("workspace-leaf", overlay_style_001c (Part001a.workspaceLeaf o))].

(** part_001, first variant: the overlay class, the one assignment on the
    element and the one on a new overlay. *)
Definition overlay_class_001a : string := "dynamic-backgrounds-overlay".

Definition element_style_001a (backgroundImageUrl : option string) : list (string * css_value) :=
  [("backgroundImage",
    CssText ("url(" +:+ JS.dquote +:+ JS.template backgroundImageUrl +:+ JS.dquote +:+ ")"))].

Definition overlay_style_001a (opacity : Q) : list (string * css_value) :=
  [("backgroundColor", CssRgba 255 255 255 opacity)].

(** The colour of a new overlay, by the class of the element it is made
    for: third and first variant of part_001. *)
Definition colours_001c (o : Part001c.OpacitySettings) : list (string * css_value) :=
  [("view-content", CssRgba 255 255 255 (Part001c.viewContent o));
   ("workspace-tab-header-container", CssRgba 255 255 255 (Part001c.tabHeaderContainer o));
   ("workspace-tab-header", CssRgba 255 255 255 (Part001c.tabHeader o));
   ("workspace-leaf", CssRgba 255 255 255 (Part001c.workspaceLeaf o))].

Definition colours_001a (o : Part001a.OpacitySettings) : list (string * css_value) :=
  [("view-content", CssRgba 255 255 255 (Part001a.viewContent o));
   ("workspace-tab-header-container", CssRgba 255 255 255 (Part001a.tabHeaderContainer o));
   ("workspace-tab-header", CssRgba 255 255 255 (Part001a.tabHeader o));
   ("view-header", CssRgba 255 255 255 (Part001a.tabHeader o));
   ("workspace-leaf", CssRgba 255 255 255 (Part001a.workspaceLeaf o))].

(** The targets of a pass without the overlay styles. *)
Definition bare (targets : list (string * list (string * css_value)))
    : list (string * list (string * css_value)) :=
  (λ t, (t.1, [])) <$> targets.

End Shapes.

(** ** Concrete inputs *)

Module Examples.
Import Dom.

Definition el (i : nat) (c : string) (ch : list element) : element :=
  Element i [c] ∅ ch.

(** A workspace as the host lays it out: a tab group with its header
    container (one tab header) and one leaf holding a view. *)
Definition workspace : document :=
  Document
    (el 0 "app-container"
       [el 1 "workspace-tabs"
          [el 2 "workspace-tab-header-container" [el 3 "workspace-tab-header" []];
           el 4 "workspace-leaf" [el 5 "view-header" []; el 6 "view-content" []]]])
    7.

Definition plugin_001c : Part001c.MyPlugin :=
  {| Part001c.settings := Part001c.DEFAULT_SETTINGS;
     Part001c.intervalId := None;
     Part001c.currentBackgroundIndex := JS.Int 0 |}.

(** The third variant of part_001 with the opacity of the view content
    moved from 0.5 to 0.9. *)
Definition plugin_001c_moved : Part001c.MyPlugin :=
  {| Part001c.settings :=
       {| Part001c.interval := JS.Int 3000;
          Part001c.backgrounds := [Part000.freepik; Part000.freepik];
          Part001c.opacitySettings :=
            Part001c.set_opacity Part001c.ViewContentOpacity 0.9
              (Part001c.opacitySettings Part001c.DEFAULT_SETTINGS) |};
     Part001c.intervalId := None;
     Part001c.currentBackgroundIndex := JS.Int 0 |}.

Definition two_backgrounds : MainTs.MyPluginSettings :=
  {| MainTs.interval := JS.Int 3000;
     MainTs.backgrounds := ["url('a.png')"; "url('b.png')"] |}.

(** [url("...")], as the template literals of part_001 write it. *)
Definition url_of (s : string) : string :=
  "url(" +:+ JS.dquote +:+ s +:+ JS.dquote +:+ ")".

(** The values that the examples assign and that a browser accepts: the
    images, each given by a [url(...)], and the constants of the code. *)
Definition known_values : list (string * string) :=
  [("backgroundImage", "url('a.png')");
   ("backgroundImage", "url('b.png')");
   ("backgroundImage", Part000.freepik);
   ("backgroundImage", url_of Part000.freepik);
   ("backgroundImage", url_of "https://example.com/image1.jpg");
   ("backgroundImage", url_of "https://example.com/image2.jpg");
   ("backgroundImage", url_of "https://example.com/image3.jpg");
   ("backgroundSize", "cover");
   ("backgroundPosition", "center");
   ("position", "relative");
   ("position", "absolute");
   ("zIndex", "2");
   ("zIndex", "-1");
   ("top", "0");
   ("left", "0");
   ("width", "100%");
   ("height", "100%");
   ("backgroundColor", "rgba(255, 255, 255, 0.5)");
   ("pointerEvents", "none");
   ("boxShadow", "10px 10px 5px 0px rgba(0, 0, 0, 0.75)");
   ("border", "1px orange solid")].

(** The parser of the examples: it accepts these values and no other text;
    among the texts it rejects, as a browser does, are the single letters
    and the text "undefined" as images. *)
Definition browser : CssParser :=
  {| CSS_supports p v := bool_decide ((p, v) ∈ known_values) |}.

(** main.ts after [startBackgroundChange], over the workspace. *)
Definition world_main : MainTs.world :=
  MainTs.startBackgroundChange
    (MainTs.World two_backgrounds None JS.NaN workspace (Timers.empty 0) [] None).

(** part_000 after [onload], over the workspace. *)
Definition world_000 : Part000.world :=
  Part000.onload Part000.DEFAULT_SETTINGS workspace 0.

(** A persisted document that holds one of the five opacities. *)
Definition partial_data : gmap string Persist.json :=
  {[ "opacitySettings" := Persist.JObject {[ "viewContent" := Persist.JNumber 0.9 ]} ]}.

(** Five active-leaf-change events, 100 ms apart, numbered. *)
Definition five_events : list (Z * nat) :=
  [(100%Z, 2); (200%Z, 3); (300%Z, 4); (400%Z, 5)].

(** A loop with nothing pending whose state counts the invocations. *)
Definition idle : EventLoop.loop (A := nat) (St := nat) :=
  EventLoop.Loop 0%Z [] 0 0 [].

(** The first variant of part_001 before [onload], over the workspace. *)
Definition world_001a : Part001a.world :=
  Part001a.World Part001a.DEFAULT_SETTINGS workspace 0 true [] None.

End Examples.

(** ** Invariants of the cycle driver *)

Module Invariants.

(** No timer is active, or only the one whose handle the plugin holds; the
    handles in use lie below the supply. *)
Definition one_timer (t : Timers.table) (intervalId : option nat) : Prop :=
  (Timers.active t = []
   ∨ ∃ h p, Timers.active t = [(h, p)] ∧ intervalId = Some h)
  ∧ Forall (λ x, x.1 < Timers.next_handle t) (Timers.active t).

End Invariants.

(** * Facts about the UI tree *)

Module DomFacts.
Import Dom Styler.

Section Facts.

Context {css : CssParser}.

Lemma element_ind' (P : element → Prop) :
  (∀ i c s ch, Forall P ch → P (Element i c s ch)) → ∀ e, P e.
Proof.
  intros H. fix IH 1. intros [i c s ch]. apply H.
  revert ch. fix IHch 1. intros [|x ch]; constructor; [apply IH | apply IHch].
Qed.

Lemma subtree_unfold e : subtree e = e :: flat_map subtree (childNodes e).
Proof. by destruct e. Qed.

Lemma ids_unfold e : ids e = node_id e :: flat_map ids (childNodes e).
Proof.
  unfold ids. rewrite subtree_unfold. rewrite fmap_cons. f_equal.
  induction (childNodes e) as [|c ch IH]; [done|].
  cbn [flat_map]. by rewrite fmap_app, IH.
Qed.

Lemma update_unfold i f e :
  update i f e =
  let e' := Element (node_id e) (classList e) (style e) (map (update i f) (childNodes e)) in
  if decide (node_id e = i) then f e' else e'.
Proof. by destruct e. Qed.

Lemma in_flat_map_subtree (x : element) (l : list element) :
  x ∈ flat_map subtree l ↔ ∃ c, c ∈ l ∧ x ∈ subtree c.
Proof.
  rewrite list_elem_of_In, in_flat_map. setoid_rewrite list_elem_of_In. done.
Qed.

Lemma self_in_subtree e : e ∈ subtree e.
Proof. rewrite subtree_unfold. left. Qed.

Lemma child_subtree_incl c e x : c ∈ childNodes e → x ∈ subtree c → x ∈ subtree e.
Proof.
  intros Hc Hx. rewrite subtree_unfold. right. apply in_flat_map_subtree; eauto.
Qed.

Lemma descendants_in_subtree e x : x ∈ descendants e → x ∈ subtree e.
Proof. intros H. rewrite subtree_unfold. by right. Qed.

Lemma subtree_trans e : ∀ n x, n ∈ subtree e → x ∈ subtree n → x ∈ subtree e.
Proof.
  induction e as [i c s ch IH] using element_ind'. intros n x Hn Hx.
  rewrite subtree_unfold in Hn. simpl in Hn. apply elem_of_cons in Hn as [-> |Hn]; [done|].
  apply in_flat_map_subtree in Hn as (k & Hk & Hn).
  rewrite subtree_unfold. simpl. right. apply in_flat_map_subtree. exists k. split; [done|].
  rewrite Forall_forall in IH. eapply IH; eauto.
Qed.

Lemma ids_child_incl c e x : c ∈ childNodes e → x ∈ ids c → x ∈ ids e.
Proof.
  unfold ids. intros Hc (y & -> & Hy)%list_elem_of_fmap.
  apply list_elem_of_fmap_2. eapply child_subtree_incl; eauto.
Qed.

Lemma elem_of_flat_map_ids (x : nat) (l : list element) :
  x ∈ flat_map ids l ↔ ∃ c, c ∈ l ∧ x ∈ ids c.
Proof.
  rewrite list_elem_of_In, in_flat_map. setoid_rewrite list_elem_of_In. done.
Qed.

(** *** Frame properties of [update] *)

Lemma update_node_id i f e :
  (∀ x, node_id (f x) = node_id x) → node_id (update i f e) = node_id e.
Proof. intros Hf. rewrite update_unfold. simpl. case_decide; [by rewrite Hf|done]. Qed.

Lemma update_classList i f e :
  (∀ x, classList (f x) = classList x) → classList (update i f e) = classList e.
Proof. intros Hf. rewrite update_unfold. simpl. case_decide; [by rewrite Hf|done]. Qed.

Lemma update_has_class i f c e :
  (∀ x, classList (f x) = classList x) → has_class c (update i f e) = has_class c e.
Proof. intros Hf. unfold has_class. by rewrite update_classList. Qed.

Lemma update_style_lookup i f k e :
  (∀ x, style (f x) !! k = style x !! k) → style (update i f e) !! k = style e !! k.
Proof. intros Hf. rewrite update_unfold. simpl. case_decide; [by rewrite Hf|done]. Qed.

Lemma update_other i f e : node_id e ≠ i →
  update i f e = Element (node_id e) (classList e) (style e) (map (update i f) (childNodes e)).
Proof. intros. rewrite update_unfold. simpl. by case_decide. Qed.

Lemma update_notin i f e : i ∉ ids e → update i f e = e.
Proof.
  induction e as [j c s ch IH] using element_ind'. intros Hi.
  rewrite ids_unfold in Hi. simpl in Hi. apply not_elem_of_cons in Hi as [Hne Hi].
  rewrite update_other by done. simpl. f_equal.
  induction ch as [|x ch IHch]; simpl; [done|].
  simpl in Hi. apply not_elem_of_app in Hi as [Hx Hch].
  apply Forall_cons in IH as [IHx IHrest]. f_equal; auto.
Qed.

Lemma map_update_notin i f (ch : list element) :
  i ∉ flat_map ids ch → map (update i f) ch = ch.
Proof.
  induction ch as [|x ch IH]; simpl; [done|]. intros Hi.
  apply not_elem_of_app in Hi as [Hx Hch]. f_equal; [by apply update_notin|auto].
Qed.

Lemma NoDup_flat_map_ids_child (ch : list element) c :
  NoDup (flat_map ids ch) → c ∈ ch → NoDup (ids c).
Proof.
  induction ch as [|x ch IH]; simpl; [by intros _ ?%elem_of_nil|].
  intros Hnd Hc. apply NoDup_app in Hnd as (H1 & _ & H2).
  apply elem_of_cons in Hc as [-> |Hc]; auto.
Qed.

(** With distinct identities, [update i f] applies [f] to the one node
    whose identity is [i], as it stands in the tree. *)
Lemma update_ext_in i f g e :
  NoDup (ids e) →
  (∀ n, n ∈ subtree e → node_id n = i → f n = g n) →
  update i f e = update i g e.
Proof.
  induction e as [j c s ch IH] using element_ind'. intros Hnd Hfg.
  rewrite ids_unfold in Hnd. simpl in Hnd. apply NoDup_cons in Hnd as [Hj Hnd].
  rewrite !update_unfold. simpl. case_decide as Hji.
  - subst j. rewrite !map_update_notin by done.
    apply Hfg; [apply self_in_subtree|done].
  - f_equal. apply map_ext_in. intros x Hx. apply list_elem_of_In in Hx.
    rewrite Forall_forall in IH. apply IH; [done|by eapply NoDup_flat_map_ids_child|].
    intros n Hn. apply Hfg. eapply child_subtree_incl; eauto.
Qed.

Lemma update_id_fun i e : update i (λ x, x) e = e.
Proof.
  induction e as [j c s ch IH] using element_ind'.
  rewrite update_unfold. simpl.
  assert (map (update i (λ x, x)) ch = ch) as ->.
  { induction ch as [|x ch IHch]; simpl; [done|].
    apply Forall_cons in IH as [-> IH]. f_equal; auto. }
  by case_decide.
Qed.

Lemma update_fixed i f e :
  NoDup (ids e) → (∀ n, n ∈ subtree e → node_id n = i → f n = n) → update i f e = e.
Proof.
  intros Hnd Hf. rewrite <- (update_id_fun i e) at 2. by apply update_ext_in.
Qed.

Lemma update_ext i f g e : (∀ x, f x = g x) → update i f e = update i g e.
Proof.
  intros Hfg. induction e as [j c s ch IH] using element_ind'.
  rewrite !update_unfold. simpl.
  assert (map (update i f) ch = map (update i g) ch) as ->.
  { induction ch as [|x ch IHch]; simpl; [done|].
    apply Forall_cons in IH as [-> IH]. f_equal; auto. }
  case_decide; [apply Hfg|done].
Qed.

(** *** Style-only updates *)

Lemma el_setStyles_restyle est e : el_setStyles est e = restyle_with (assign_all est) e.
Proof.
  unfold el_setStyles, assign_all. revert e.
  induction est as [|[p v] est IH]; intros [i c s ch]; cbn [fold_left]; [done|].
  rewrite IH. done.
Qed.

Lemma el_setStyle_restyle p v e : el_setStyle p v e = restyle_with (assign p v) e.
Proof. done. Qed.

Lemma update_restyle_compose i t1 t2 e :
  update i (restyle_with t2) (update i (restyle_with t1) e)
  = update i (restyle_with (t2 ∘ t1)) e.
Proof.
  induction e as [j c s ch IH] using element_ind'.
  rewrite !(update_unfold _ _ (Element j c s ch)). simpl.
  assert (map (update i (restyle_with t2)) (map (update i (restyle_with t1)) ch)
          = map (update i (restyle_with (t2 ∘ t1))) ch) as Hch.
  { rewrite map_map. induction ch as [|x ch IHch]; simpl; [done|].
    apply Forall_cons in IH as [-> IH]. f_equal; auto. }
  case_decide; simpl.
  - rewrite decide_True by done. rewrite Hch. done.
  - rewrite decide_False by done. by rewrite Hch.
Qed.

Lemma setStyle_setStyle el t1 p v b n :
  setStyle el p v (Document (update el (restyle_with t1) b) n)
  = Document (update el (restyle_with (assign p v ∘ t1)) b) n.
Proof. unfold setStyle. simpl. f_equal. apply (update_restyle_compose el t1 (assign p v)). Qed.

Lemma setStyle_first el p v d :
  setStyle el p v d = Document (update el (restyle_with (assign p v)) (body d)) (next_id d).
Proof. done. Qed.

Lemma subtree_update_restyle i t e :
  subtree (update i (restyle_with t) e) = update i (restyle_with t) <$> subtree e.
Proof.
  induction e as [j c s ch IH] using element_ind'.
  rewrite (subtree_unfold (Element j c s ch)), fmap_cons. simpl childNodes.
  rewrite (subtree_unfold (update _ _ _)). f_equal.
  assert (childNodes (update i (restyle_with t) (Element j c s ch))
          = map (update i (restyle_with t)) ch) as ->.
  { rewrite update_unfold. simpl. by case_decide. }
  induction ch as [|x ch IHch]; [done|].
  apply Forall_cons in IH as [Hx IH]. cbn [map flat_map].
  rewrite fmap_app, Hx, IHch; done.
Qed.

Lemma restyle_node_id t e : node_id (restyle_with t e) = node_id e.
Proof. done. Qed.

Lemma restyle_classList t e : classList (restyle_with t e) = classList e.
Proof. done. Qed.

Lemma ids_update_restyle i t e : ids (update i (restyle_with t) e) = ids e.
Proof.
  unfold ids. rewrite subtree_update_restyle, <- list_fmap_compose.
  apply list_fmap_ext. intros _ x _. simpl. by apply update_node_id.
Qed.

Lemma filter_class_update_restyle i t c e :
  node_id <$> filter (λ n, has_class c n = true) (subtree (update i (restyle_with t) e))
  = node_id <$> filter (λ n, has_class c n = true) (subtree e).
Proof.
  rewrite subtree_update_restyle.
  induction (subtree e) as [|x l IH]; [done|].
  rewrite fmap_cons, !filter_cons.
  rewrite (update_has_class i (restyle_with t) c x) by done.
  case_decide; [|done].
  rewrite !fmap_cons, IH. f_equal. by apply update_node_id.
Qed.

Lemma querySelectorAll_restyle el t c b n :
  querySelectorAll c (Document (update el (restyle_with t) b) n)
  = querySelectorAll c (Document b n).
Proof. apply filter_class_update_restyle. Qed.

Lemma descendants_update_restyle i t e :
  descendants (update i (restyle_with t) e) = update i (restyle_with t) <$> descendants e.
Proof.
  pose proof (subtree_update_restyle i t e) as H.
  rewrite (subtree_unfold e), (subtree_unfold (update _ _ _)), fmap_cons in H.
  by injection H.
Qed.

Lemma el_querySelector_update_restyle i t c e :
  el_querySelector c (update i (restyle_with t) e) = el_querySelector c e.
Proof.
  unfold el_querySelector. rewrite descendants_update_restyle. f_equal.
  induction (descendants e) as [|x l IH]; [done|].
  rewrite fmap_cons, !filter_cons.
  rewrite (update_has_class i (restyle_with t) c x) by done.
  case_decide; [|done].
  rewrite !fmap_cons, IH. f_equal. by apply update_node_id.
Qed.

Lemma getElement_update_restyle j i t e :
  getElement j (update i (restyle_with t) e) = update i (restyle_with t) <$> getElement j e.
Proof.
  unfold getElement. rewrite subtree_update_restyle.
  induction (subtree e) as [|x l IH]; [done|].
  rewrite fmap_cons, !filter_cons.
  rewrite (update_node_id i (restyle_with t) x) by done.
  case_decide; [done|]. apply IH.
Qed.

Lemma querySelector_restyle j el t c b n :
  querySelector j c (Document (update el (restyle_with t) b) n)
  = querySelector j c (Document b n).
Proof.
  unfold querySelector. simpl. rewrite getElement_update_restyle.
  destruct (getElement j b); simpl; [|done].
  apply el_querySelector_update_restyle.
Qed.

Lemma head_app {B} (l1 l2 : list B) :
  head (l1 ++ l2) = match head l1 with Some x => Some x | None => head l2 end.
Proof. by destruct l1. Qed.

(** *** Appending a childless node *)

Section Append.

Variables (i : nat) (ov : element).
Hypothesis ov_childless : childNodes ov = [].

Let A := el_appendChild ov.

Lemma append_node_id e : node_id (A e) = node_id e.
Proof. done. Qed.

Lemma append_classList e : classList (A e) = classList e.
Proof. done. Qed.

Lemma append_style e : style (A e) = style e.
Proof. done. Qed.

Lemma childNodes_update_append e :
  childNodes (update i A e)
  = map (update i A) (childNodes e) ++ (if decide (node_id e = i) then [ov] else []).
Proof. rewrite update_unfold. simpl. case_decide; simpl; by rewrite ?app_nil_r. Qed.

Lemma subtree_update_append e :
  subtree (update i A e)
  = update i A e :: flat_map (λ c, subtree (update i A c)) (childNodes e)
      ++ (if decide (node_id e = i) then [ov] else []).
Proof.
  rewrite (subtree_unfold (update i A e)), childNodes_update_append, flat_map_app.
  f_equal. f_equal.
  - rewrite flat_map_concat_map, map_map, <- flat_map_concat_map. done.
  - case_decide; [|done]. simpl. rewrite subtree_unfold, ov_childless. done.
Qed.

Lemma elem_of_subtree_update_append e x :
  x ∈ subtree (update i A e) →
  (∃ n, n ∈ subtree e ∧ x = update i A n) ∨ (x = ov ∧ i ∈ ids e).
Proof.
  induction e as [j c s ch IH] using element_ind'. rewrite subtree_update_append.
  intros [-> |Hx%elem_of_app]%elem_of_cons.
  - left. eexists. split; [apply self_in_subtree|done].
  - destruct Hx as [Hx|Hx].
    + simpl in Hx. apply list_elem_of_In, in_flat_map in Hx as (k & Hk & Hx).
      apply list_elem_of_In in Hk, Hx. rewrite Forall_forall in IH.
      destruct (IH k Hk Hx) as [(n & Hn & ->)|[-> Hi]]; [left|right].
      * exists n. split; [|done]. eapply child_subtree_incl; eauto.
      * split; [done|]. eapply ids_child_incl; eauto.
    + right. case_decide as Hj; [|by apply elem_of_nil in Hx].
      apply list_elem_of_singleton in Hx. split; [done|].
      rewrite ids_unfold. simpl in *. subst. left.
Qed.

Lemma update_append_in_subtree e n :
  n ∈ subtree e → update i A n ∈ subtree (update i A e).
Proof.
  induction e as [j c s ch IH] using element_ind'. rewrite subtree_update_append.
  rewrite (subtree_unfold (Element j c s ch)). simpl childNodes.
  intros [-> |Hn]%elem_of_cons; [left|].
  right. apply elem_of_app. left.
  apply in_flat_map_subtree in Hn as (k & Hk & Hn).
  apply list_elem_of_In, in_flat_map. exists k. rewrite <- !list_elem_of_In.
  split; [done|]. rewrite Forall_forall in IH. by apply IH.
Qed.

Lemma filter_class_update_append c e :
  has_class c ov = false →
  node_id <$> filter (λ n, has_class c n = true) (subtree (update i A e))
  = node_id <$> filter (λ n, has_class c n = true) (subtree e).
Proof.
  intros Hov. induction e as [j cl s ch IH] using element_ind'.
  rewrite subtree_update_append, (subtree_unfold (Element j cl s ch)). simpl childNodes.
  rewrite !filter_cons, filter_app.
  rewrite (update_has_class i A c) by done.
  assert (filter (λ n, has_class c n = true)
            (if decide (node_id (Element j cl s ch) = i) then [ov] else []) = []) as ->.
  { case_decide; [|done]. rewrite filter_cons, decide_False; [done|]. by rewrite Hov. }
  rewrite app_nil_r.
  assert (node_id <$> filter (λ n, has_class c n = true)
                        (flat_map (λ c0, subtree (update i A c0)) ch)
          = node_id <$> filter (λ n, has_class c n = true) (flat_map subtree ch)) as Hch.
  { induction ch as [|x ch IHch]; [done|].
    apply Forall_cons in IH as [Hx IH]. cbn [flat_map].
    rewrite !filter_app, !fmap_app, Hx, IHch; done. }
  case_decide; [|done].
  rewrite !fmap_cons, Hch. f_equal. by apply update_node_id.
Qed.

Lemma ids_update_append e :
  ids (update i A e)
  = node_id e :: flat_map (λ c, ids (update i A c)) (childNodes e)
      ++ (if decide (node_id e = i) then [node_id ov] else []).
Proof.
  unfold ids at 1. rewrite subtree_update_append, fmap_cons, fmap_app.
  rewrite (update_node_id i A) by done. f_equal. f_equal.
  - induction (childNodes e) as [|x ch IHch]; [done|].
    cbn [flat_map]. rewrite fmap_app, IHch. done.
  - by case_decide.
Qed.

Lemma elem_of_ids_update_append e x :
  x ∈ ids (update i A e) → x ∈ ids e ∨ (x = node_id ov ∧ i ∈ ids e).
Proof.
  unfold ids at 1. intros (y & -> & Hy)%list_elem_of_fmap.
  apply elem_of_subtree_update_append in Hy as [(n & Hn & ->)|[-> Hi]].
  - left. rewrite (update_node_id i A) by done. unfold ids. by apply list_elem_of_fmap_2.
  - by right.
Qed.

Lemma ids_incl_update_append e x : x ∈ ids e → x ∈ ids (update i A e).
Proof.
  unfold ids. intros (n & -> & Hn)%list_elem_of_fmap.
  rewrite <- (update_node_id i A n) by done.
  apply list_elem_of_fmap_2. by apply update_append_in_subtree.
Qed.

Lemma NoDup_forest_update_append (ch : list element) :
  Forall (λ c, NoDup (ids c) → node_id ov ∉ ids c → NoDup (ids (update i A c))) ch →
  NoDup (flat_map ids ch) → node_id ov ∉ flat_map ids ch →
  NoDup (flat_map (λ c, ids (update i A c)) ch).
Proof.
  induction ch as [|x ch IHch]; [constructor|].
  intros [Hx IH]%Forall_cons. cbn [flat_map].
  intros (Hndx & Hdisj & Hndch)%NoDup_app [Hkx Hkch]%not_elem_of_app.
  apply NoDup_app. split_and!; [auto| |auto].
  intros y Hy Hy'.
  apply list_elem_of_In, in_flat_map in Hy' as (k & Hk & Hy').
  apply list_elem_of_In in Hk, Hy'.
  assert (∀ z, z ∈ ids k → z ∈ flat_map ids ch) as Hin.
  { intros z Hz. apply elem_of_flat_map_ids. eauto. }
  apply elem_of_ids_update_append in Hy as [Hy|[-> Hi]];
    apply elem_of_ids_update_append in Hy' as [Hy'|[Hy' Hi']].
  - eapply Hdisj; eauto.
  - subst y. done.
  - apply Hkch. auto.
  - eapply Hdisj; eauto.
Qed.

Lemma NoDup_ids_update_append e :
  NoDup (ids e) → node_id ov ∉ ids e → NoDup (ids (update i A e)).
Proof.
  induction e as [j c s ch IH] using element_ind'.
  rewrite ids_update_append, (ids_unfold (Element j c s ch)). simpl node_id. simpl childNodes.
  intros [Hj Hnd]%NoDup_cons [Hkj Hk]%not_elem_of_cons.
  assert (∀ y, y ∈ flat_map (λ c0, ids (update i A c0)) ch →
               y ∈ flat_map ids ch ∨ (y = node_id ov ∧ i ∈ flat_map ids ch)) as Hmem.
  { intros y (k & Hk' & Hy)%list_elem_of_In%in_flat_map.
    apply list_elem_of_In in Hk', Hy.
    apply elem_of_ids_update_append in Hy as [Hy|[-> Hi]]; [left|right; split; [done|]];
      apply elem_of_flat_map_ids; eauto. }
  apply NoDup_cons. split.
  - intros [Hy|Hy]%elem_of_app.
    + apply Hmem in Hy as [Hy|[Hy _]]; [done|]. by apply Hkj.
    + case_decide; [|by apply elem_of_nil in Hy].
      apply list_elem_of_singleton in Hy. by apply Hkj.
  - apply NoDup_app. split_and!.
    + by apply NoDup_forest_update_append.
    + intros y Hy Hy'. case_decide as Hji; [|by apply elem_of_nil in Hy'].
      apply list_elem_of_singleton in Hy'. subst y.
      apply Hmem in Hy as [Hy|[_ Hi]]; [done|]. by subst j.
    + case_decide; [apply NoDup_singleton|constructor].
Qed.

Lemma has_desc_update_append c e : has_desc c e → has_desc c (update i A e).
Proof.
  intros (n & Hn & Hc). exists (update i A n). split.
  - unfold descendants in *. rewrite childNodes_update_append, flat_map_app.
    apply elem_of_app. left.
    apply in_flat_map_subtree in Hn as (k & Hk & Hn).
    apply in_flat_map_subtree. exists (update i A k). split.
    + apply list_elem_of_In, in_map. by apply list_elem_of_In.
    + by apply update_append_in_subtree.
  - by rewrite (update_has_class i A).
Qed.

Lemma has_desc_update_append_self c e :
  node_id e = i → has_class c ov = true → has_desc c (update i A e).
Proof.
  intros Hi Hc. exists ov. split; [|done].
  unfold descendants. rewrite childNodes_update_append, flat_map_app.
  apply elem_of_app. right. rewrite decide_True by done. simpl.
  rewrite app_nil_r. apply self_in_subtree.
Qed.

Lemma count_children_update_append c e :
  count_children c (update i A e)
  = count_children c e
    + (if decide (node_id e = i) then if has_class c ov then 1 else 0 else 0).
Proof.
  unfold count_children. rewrite childNodes_update_append, filter_app, length_app.
  f_equal.
  - induction (childNodes e) as [|x ch IH]; [done|]. cbn [map].
    rewrite !filter_cons, (update_has_class i A) by done.
    case_decide; simpl; by rewrite IH.
  - case_decide; [|done]. rewrite filter_cons.
    destruct (has_class c ov); by case_decide.
Qed.

Lemma style_update_append e : style (update i A e) = style e.
Proof. rewrite update_unfold. simpl. by case_decide. Qed.

Lemma getElement_update_append j e :
  j ≠ node_id ov → getElement j (update i A e) = update i A <$> getElement j e.
Proof.
  intros Hj. unfold getElement.
  induction e as [k c s ch IH] using element_ind'.
  rewrite subtree_update_append, (subtree_unfold (Element k c s ch)). simpl childNodes.
  rewrite !filter_cons, (update_node_id i A) by done.
  case_decide; [done|].
  rewrite filter_app.
  assert (filter (λ n, node_id n = j)
            (if decide (node_id (Element k c s ch) = i) then [ov] else []) = []) as ->.
  { case_decide; [|done]. rewrite filter_cons, decide_False; [done|congruence]. }
  rewrite app_nil_r.
  induction ch as [|x ch IHch]; [done|].
  apply Forall_cons in IH as [Hx IH]. cbn [flat_map].
  rewrite !filter_app, !head_app, Hx, IHch by done.
  by destruct (head (filter (λ n, node_id n = j) (subtree x))).
Qed.

End Append.

(** *** Looking up a node *)

Lemma head_filter_unique {B} (g : B → nat) (l : list B) (x : B) :
  NoDup (g <$> l) → x ∈ l → head (filter (λ n, g n = g x) l) = Some x.
Proof.
  induction l as [|y l IH]; [by intros _ ?%elem_of_nil|].
  rewrite fmap_cons. intros [Hy Hnd]%NoDup_cons [-> |Hx]%elem_of_cons.
  - by rewrite filter_cons, decide_True.
  - rewrite filter_cons. case_decide as Hg; [|auto].
    exfalso. apply Hy. rewrite Hg. by apply list_elem_of_fmap_2.
Qed.

Lemma getElement_unique e n :
  NoDup (ids e) → n ∈ subtree e → getElement (node_id n) e = Some n.
Proof. intros. by apply head_filter_unique. Qed.

Lemma getElement_Some i e n : getElement i e = Some n → n ∈ subtree e ∧ node_id n = i.
Proof.
  unfold getElement. intros H. apply head_Some_elem_of in H.
  by apply list_elem_of_filter in H as [? ?].
Qed.

Lemma getElement_None i e : getElement i e = None → i ∉ ids e.
Proof.
  unfold getElement, ids. intros H (n & -> & Hn)%list_elem_of_fmap.
  apply head_None in H.
  assert (n ∈ filter (λ m, node_id m = node_id n) (subtree e)) as Hin
    by by apply list_elem_of_filter.
  rewrite H in Hin. by apply elem_of_nil in Hin.
Qed.

(** *** Descendants of a class *)

Lemma el_querySelector_Some c e j : el_querySelector c e = Some j → has_desc c e.
Proof.
  unfold el_querySelector. intros H. apply head_Some_elem_of in H.
  apply list_elem_of_fmap in H as (n & _ & Hn).
  apply list_elem_of_filter in Hn as [? ?]. by exists n.
Qed.

Lemma el_querySelector_None c e : el_querySelector c e = None → ¬ has_desc c e.
Proof.
  unfold el_querySelector. intros H (n & Hn & Hc).
  apply head_None, fmap_nil_inv in H.
  assert (n ∈ filter (λ m, has_class c m = true) (descendants e)) as Hin
    by by apply list_elem_of_filter.
  rewrite H in Hin. by apply elem_of_nil in Hin.
Qed.

Lemma has_desc_el_querySelector c e : has_desc c e → is_Some (el_querySelector c e).
Proof.
  intros H. destruct (el_querySelector c e) eqn:E; [done|].
  by apply el_querySelector_None in E.
Qed.

Lemma no_desc_count_children c e : ¬ has_desc c e → count_children c e = 0.
Proof.
  intros H. unfold count_children.
  destruct (filter _ (childNodes e)) as [|x l] eqn:E; [done|]. exfalso. apply H.
  assert (x ∈ filter (λ n, has_class c n = true) (childNodes e)) as Hin
    by (rewrite E; left).
  apply list_elem_of_filter in Hin as [Hc Hx]. exists x. split; [|done].
  unfold descendants. apply in_flat_map_subtree. exists x. split; [done|apply self_in_subtree].
Qed.

Lemma has_desc_update_restyle i t c e :
  has_desc c e ↔ has_desc c (update i (restyle_with t) e).
Proof.
  unfold has_desc. rewrite descendants_update_restyle. split.
  - intros (n & Hn & Hc). exists (update i (restyle_with t) n). split.
    + by apply list_elem_of_fmap_2.
    + by rewrite update_has_class.
  - intros (x & (n & -> & Hn)%list_elem_of_fmap & Hc). exists n. split; [done|].
    by rewrite update_has_class in Hc.
Qed.

Lemma count_children_update_restyle i t c e :
  count_children c (update i (restyle_with t) e) = count_children c e.
Proof.
  unfold count_children.
  assert (childNodes (update i (restyle_with t) e)
          = map (update i (restyle_with t)) (childNodes e)) as ->.
  { rewrite update_unfold. simpl. by case_decide. }
  induction (childNodes e) as [|x ch IH]; [done|]. cbn [map].
  rewrite !filter_cons, update_has_class by done.
  case_decide; simpl; by rewrite IH.
Qed.

Lemma childNodes_update_restyle i t e :
  childNodes (update i (restyle_with t) e) = map (update i (restyle_with t)) (childNodes e).
Proof. rewrite update_unfold. simpl. by case_decide. Qed.

Lemma style_update_restyle i t e :
  style (update i (restyle_with t) e)
  = if decide (node_id e = i) then t (style e) else style e.
Proof. rewrite update_unfold. simpl. by case_decide. Qed.

(** *** Style assignments *)

Lemma assign_cases p v m :
  assign p v m = delete p m ∨ assign p v m = <[p := v]> m ∨ assign p v m = m.
Proof.
  unfold assign. destruct v as [[|a t]| |]; auto; destruct (accepts _ _); auto.
Qed.

Lemma assign_other p v m k : k ≠ p → assign p v m !! k = m !! k.
Proof.
  intros Hk. destruct (assign_cases p v m) as [-> |[-> | ->]]; [|by apply lookup_insert_ne|done].
  by apply lookup_delete_ne.
Qed.

(** A value that is not the empty text and that the parser accepts is the
    declaration of the property after the assignment. *)
Lemma assign_accepted p v m :
  v ≠ CssText "" → accepts p v = true → assign p v m = <[p := v]> m.
Proof.
  intros Hv Ha. unfold assign. rewrite Ha. by destruct v as [[|a t]| |].
Qed.

Lemma assign_idem p v m : assign p v (assign p v m) = assign p v m.
Proof.
  unfold assign. destruct v as [[|a t]| |]; [by rewrite delete_delete_eq|..];
    destruct (accepts _ _) eqn:Ha; rewrite ?Ha; try done; by rewrite insert_insert_eq.
Qed.

Lemma assign_comm p v q u m :
  p ≠ q → assign p v (assign q u m) = assign q u (assign p v m).
Proof.
  intros Hpq. unfold assign.
  destruct v as [[|a t]| |], u as [[|a' t']| |];
    repeat (destruct (accepts _ _)); try done;
    first [ by apply delete_delete
          | by rewrite delete_insert_ne
          | by rewrite <- delete_insert_ne
          | by apply insert_insert_ne ].
Qed.

Lemma assign_all_cons p v est m : assign_all ((p, v) :: est) m = assign_all est (assign p v m).
Proof. done. Qed.

Lemma assign_all_other est m k : k ∉ est.*1 → assign_all est m !! k = m !! k.
Proof.
  revert m. induction est as [|[p v] est IH]; intros m Hk; [done|].
  rewrite fmap_cons in Hk. apply not_elem_of_cons in Hk as [Hkp Hk].
  rewrite assign_all_cons, IH by done. by apply assign_other.
Qed.

Lemma assign_all_comm p v est m :
  p ∉ est.*1 → assign p v (assign_all est m) = assign_all est (assign p v m).
Proof.
  revert m. induction est as [|[q u] est IH]; intros m Hp; [done|].
  rewrite fmap_cons in Hp. apply not_elem_of_cons in Hp as [Hpq Hp].
  rewrite !assign_all_cons, IH by done. by rewrite assign_comm.
Qed.

(** After the assignments, to distinct properties, each of them is in
    place. *)
Lemma assign_all_styled est m p v :
  distinct_props est → (p, v) ∈ est →
  assign p v (assign_all est m) = assign_all est m.
Proof.
  unfold distinct_props. revert m.
  induction est as [|[q u] est IH]; intros m Hnd Hin; [by apply elem_of_nil in Hin|].
  rewrite fmap_cons in Hnd. apply NoDup_cons in Hnd as [Hq Hnd].
  rewrite assign_all_cons.
  apply elem_of_cons in Hin as [[= -> ->]|Hin].
  - by rewrite assign_all_comm, assign_idem.
  - by apply IH.
Qed.

Lemma assign_all_fixed est m :
  (∀ p v, (p, v) ∈ est → assign p v m = m) → assign_all est m = m.
Proof.
  induction est as [|[p v] est IH]; intros H; [done|].
  rewrite assign_all_cons, H by left. apply IH. intros q u Hq. apply H. by right.
Qed.


(** *** One run of the callback *)

Section Step.

Variables (est : list (string * css_value)) (oc : string).
Hypothesis est_distinct : distinct_props est.

Lemma overlay_node_id ovs i : node_id (overlay oc ovs i) = i.
Proof. unfold overlay. by rewrite el_setStyles_restyle. Qed.

Lemma overlay_classList ovs i : classList (overlay oc ovs i) = [oc].
Proof. unfold overlay. by rewrite el_setStyles_restyle. Qed.

Lemma overlay_childNodes ovs i : childNodes (overlay oc ovs i) = [].
Proof. unfold overlay. by rewrite el_setStyles_restyle. Qed.

Lemma overlay_style ovs i : style (overlay oc ovs i) = assign_all ovs ∅.
Proof. unfold overlay. by rewrite el_setStyles_restyle. Qed.

Lemma overlay_has_class ovs i : has_class oc (overlay oc ovs i) = true.
Proof.
  unfold has_class. rewrite overlay_classList. apply bool_decide_eq_true. left.
Qed.

Lemma overlay_not_class ovs i c : c ≠ oc → has_class c (overlay oc ovs i) = false.
Proof.
  intros Hc. unfold has_class. rewrite overlay_classList.
  apply bool_decide_eq_false. by intros ->%list_elem_of_singleton.
Qed.

Lemma overlay_ids ovs i : ids (overlay oc ovs i) = [i].
Proof. rewrite ids_unfold, overlay_childNodes, overlay_node_id. done. Qed.

Lemma overlay_count ovs i c : count_children c (overlay oc ovs i) = 0.
Proof. unfold count_children. by rewrite overlay_childNodes. Qed.

Lemma evolved_refl n : evolved est oc n n.
Proof. split; auto. Qed.

Lemma evolved_trans n m x : evolved est oc n m → evolved est oc m x → evolved est oc n x.
Proof.
  intros [H1 H2 H3 H4 H5 H6 H7] [G1 G2 G3 G4 G5 G6 G7]. split.
  - congruence.
  - congruence.
  - intros k Hk. rewrite G3, H3; done.
  - auto.
  - auto.
  - lia.
  - intros Hd. rewrite G7, H7; auto.
Qed.

(** The two outcomes of a run. *)
Lemma step_cases ovs el d :
  (is_Some (querySelector el oc d) ∧
   step est oc ovs el d
   = Document (update el (restyle_with (assign_all est)) (body d)) (next_id d))
  ∨ (querySelector el oc d = None ∧
     step est oc ovs el d
     = Document (update el (el_appendChild (overlay oc ovs (next_id d)))
                   (update el (restyle_with (assign_all est)) (body d)))
                (S (next_id d))).
Proof.
  unfold step.
  rewrite (update_ext el (el_setStyles est) (restyle_with (assign_all est)))
    by apply el_setStyles_restyle.
  rewrite querySelector_restyle.
  assert (Document (body d) (next_id d) = d) as -> by by destruct d.
  destruct (querySelector el oc d); [left|right]; simpl; eauto.
Qed.

Lemma step_wf ovs el d : wf d → wf (step est oc ovs el d).
Proof.
  intros [Hnd Hlt].
  destruct (step_cases ovs el d) as [[_ ->]|[_ ->]]; unfold wf; simpl.
  - by rewrite ids_update_restyle.
  - assert (next_id d ∉ ids (body d)) as Hfresh.
    { intros Hin. rewrite Forall_forall in Hlt. apply Hlt in Hin. lia. }
    split.
    + apply NoDup_ids_update_append.
      * apply overlay_childNodes.
      * by rewrite ids_update_restyle.
      * by rewrite overlay_node_id, ids_update_restyle.
    + apply Forall_forall. intros x Hx.
      apply (elem_of_ids_update_append _ _ (overlay_childNodes _ _)) in Hx
        as [Hx|[-> _]].
      * rewrite ids_update_restyle in Hx. rewrite Forall_forall in Hlt.
        apply Hlt in Hx. lia.
      * rewrite overlay_node_id. lia.
Qed.

Lemma step_next_id ovs el d : (next_id d ≤ next_id (step est oc ovs el d))%nat.
Proof. destruct (step_cases ovs el d) as [[_ ->]|[_ ->]]; simpl; lia. Qed.

Lemma step_querySelectorAll ovs el c d :
  c ≠ oc → querySelectorAll c (step est oc ovs el d) = querySelectorAll c d.
Proof.
  intros Hc. destruct (step_cases ovs el d) as [[_ ->]|[_ ->]]; unfold querySelectorAll; simpl.
  - apply filter_class_update_restyle.
  - rewrite filter_class_update_append.
    + apply filter_class_update_restyle.
    + apply overlay_childNodes.
    + by apply overlay_not_class.
Qed.

Lemma evolved_restyle el n :
  evolved est oc n (update el (restyle_with (assign_all est)) n).
Proof.
  split.
  - by apply update_node_id.
  - by apply update_classList.
  - intros k Hk. rewrite style_update_restyle. case_decide; [|done].
    by apply assign_all_other.
  - intros Hs p v Hin. rewrite style_update_restyle. case_decide; [|by apply Hs].
    by apply assign_all_styled.
  - intros H. by apply has_desc_update_restyle.
  - left. apply count_children_update_restyle.
  - intros _. rewrite childNodes_update_restyle, <- list_fmap_compose.
    apply list_fmap_ext. intros _ x _. simpl. by apply update_node_id.
Qed.

Lemma styled_restyle_self el n :
  node_id n = el → styled est (update el (restyle_with (assign_all est)) n).
Proof.
  intros Hn p v Hin. rewrite style_update_restyle, decide_True by done.
  by apply assign_all_styled.
Qed.

Lemma evolved_append el ovs k n :
  (node_id n = el → ¬ has_desc oc n) →
  evolved est oc n (update el (el_appendChild (overlay oc ovs k)) n).
Proof.
  intros Hnodesc. pose proof (overlay_childNodes ovs k) as Hch.
  assert (node_id n = el → count_children oc n = 0) as Hcount.
  { intros Hel. by apply no_desc_count_children, Hnodesc. }
  split.
  - by apply update_node_id.
  - by apply update_classList.
  - intros p _. by rewrite style_update_append.
  - intros Hs p v Hin. rewrite style_update_append. by apply Hs.
  - by apply has_desc_update_append.
  - rewrite count_children_update_append, overlay_has_class by done.
    case_decide; [right|left]; [|lia]. rewrite Hcount by done. lia.
  - intros Hd. rewrite childNodes_update_append by done.
    case_decide as Hel.
    + exfalso. by apply Hnodesc.
    + rewrite app_nil_r, <- list_fmap_compose.
      apply list_fmap_ext. intros _ x _. simpl. by apply update_node_id.
Qed.

Lemma querySelector_None_no_desc el d n :
  NoDup (ids (body d)) → querySelector el oc d = None →
  n ∈ subtree (body d) → node_id n = el → ¬ has_desc oc n.
Proof.
  intros Hnd Hq Hn <-. unfold querySelector in Hq.
  rewrite getElement_unique in Hq by done. by apply el_querySelector_None.
Qed.

Lemma querySelector_Some_has_desc el d n :
  NoDup (ids (body d)) → is_Some (querySelector el oc d) →
  n ∈ subtree (body d) → node_id n = el → has_desc oc n.
Proof.
  intros Hnd [j Hq] Hn <-. unfold querySelector in Hq.
  rewrite getElement_unique in Hq by done. by eapply el_querySelector_Some.
Qed.

(** What a run does to the nodes of the tree: each node has an image, and
    the only other node of the result is the overlay just created. *)
Lemma step_image ovs el d :
  wf d →
  ∃ img : element → element,
    (∀ n, n ∈ subtree (body d) →
       img n ∈ subtree (body (step est oc ovs el d))
       ∧ evolved est oc n (img n)
       ∧ (node_id n = el → settled est oc (img n)))
    ∧ (∀ x, x ∈ subtree (body (step est oc ovs el d)) →
         (∃ n, n ∈ subtree (body d) ∧ x = img n)
         ∨ (x = overlay oc ovs (next_id d) ∧ el ∈ ids (body d))).
Proof.
  intros [Hnd Hlt].
  pose proof (overlay_childNodes ovs (next_id d)) as Hch.
  destruct (step_cases ovs el d) as [[Hq ->]|[Hq ->]]; simpl.
  - exists (update el (restyle_with (assign_all est))). split.
    + intros n Hn. split_and!.
      * rewrite subtree_update_restyle. by apply list_elem_of_fmap_2.
      * apply evolved_restyle.
      * intros Hel. split; [by apply styled_restyle_self|].
        apply has_desc_update_restyle. by eapply querySelector_Some_has_desc.
    + intros x Hx. left. rewrite subtree_update_restyle in Hx.
      apply list_elem_of_fmap in Hx as (n & -> & Hn). eauto.
  - exists (λ n, update el (el_appendChild (overlay oc ovs (next_id d)))
                   (update el (restyle_with (assign_all est)) n)).
    split.
    + intros n Hn. split_and!.
      * apply (update_append_in_subtree _ _ Hch).
        rewrite subtree_update_restyle. by apply list_elem_of_fmap_2.
      * eapply evolved_trans; [apply evolved_restyle|]. apply evolved_append.
        rewrite update_node_id by done. intros Hel.
        rewrite <- has_desc_update_restyle.
        by eapply querySelector_None_no_desc.
      * intros Hel. split.
        -- intros p v Hin. rewrite style_update_append by done.
           by apply styled_restyle_self.
        -- apply has_desc_update_append_self; [|apply overlay_has_class].
           by rewrite update_node_id.
    + intros x Hx.
      apply (elem_of_subtree_update_append _ _ Hch) in Hx as [(m & Hm & ->)|[-> Hel]];
        [|by right; rewrite ids_update_restyle in Hel].
      left. rewrite subtree_update_restyle in Hm.
      apply list_elem_of_fmap in Hm as (n & -> & Hn). eauto.
Qed.

Lemma step_nodes ovs el d x :
  wf d → x ∈ subtree (body (step est oc ovs el d)) →
  ∃ n, evolved est oc n x
       ∧ (n ∈ subtree (body d) ∨ n = overlay oc ovs (next_id d)).
Proof.
  intros Hwf Hx. destruct (step_image ovs el d Hwf) as (img & Himg & Hall).
  destruct (Hall x Hx) as [(n & Hn & ->)|[-> _]].
  - exists n. split; [by apply Himg|by left].
  - eexists. split; [apply evolved_refl|by right].
Qed.

Lemma step_forward ovs el d n :
  wf d → n ∈ subtree (body d) →
  ∃ x, x ∈ subtree (body (step est oc ovs el d)) ∧ evolved est oc n x.
Proof.
  intros Hwf Hn. destruct (step_image ovs el d Hwf) as (img & Himg & _).
  exists (img n). destruct (Himg n Hn) as (? & ? & _). done.
Qed.

Lemma step_settles ovs el d x :
  wf d → x ∈ subtree (body (step est oc ovs el d)) → node_id x = el →
  settled est oc x.
Proof.
  intros Hwf Hx Hel. destruct (step_image ovs el d Hwf) as (img & Himg & Hall).
  destruct (Hall x Hx) as [(n & Hn & ->)|[-> Hin]].
  - destruct (Himg n Hn) as (_ & Hev & Hs). apply Hs.
    rewrite <- Hel. symmetry. apply Hev.
  - rewrite overlay_node_id in Hel. destruct Hwf as [_ Hlt].
    rewrite Forall_forall in Hlt. apply Hlt in Hin. lia.
Qed.

(** A run on a settled element changes nothing. *)
Lemma step_fixed ovs el d :
  wf d → el ∈ ids (body d) →
  (∀ n, n ∈ subtree (body d) → node_id n = el → settled est oc n) →
  step est oc ovs el d = d.
Proof.
  intros [Hnd Hlt] Hel Hs.
  apply list_elem_of_fmap in Hel as (n & -> & Hn).
  destruct (Hs n Hn eq_refl) as [Hst Hdesc].
  destruct (step_cases ovs (node_id n) d) as [[_ ->]|[Hq _]].
  - rewrite update_fixed; [by destruct d|done|].
    intros m Hm Hid. destruct (Hs m Hm Hid) as [Hm' _].
    unfold restyle_with. rewrite assign_all_fixed by done. by destruct m.
  - exfalso. by eapply querySelector_None_no_desc.
Qed.

End Step.

Lemma subtree_id_unique e n m :
  NoDup (ids e) → n ∈ subtree e → m ∈ subtree e → node_id n = node_id m → n = m.
Proof.
  intros Hnd Hn Hm Hid.
  pose proof (getElement_unique e n Hnd Hn) as H1.
  pose proof (getElement_unique e m Hnd Hm) as H2. congruence.
Qed.

Lemma querySelectorAll_elem c d el :
  el ∈ querySelectorAll c d ↔
  ∃ x, x ∈ subtree (body d) ∧ node_id x = el ∧ has_class c x = true.
Proof.
  unfold querySelectorAll. rewrite list_elem_of_fmap. split.
  - intros (x & -> & [Hc Hx]%list_elem_of_filter). eauto.
  - intros (x & Hx & <- & Hc). exists x. split; [done|]. by apply list_elem_of_filter.
Qed.

Lemma querySelectorAll_ids c d el : el ∈ querySelectorAll c d → el ∈ ids (body d).
Proof.
  intros (x & Hx & <- & _)%querySelectorAll_elem. by apply list_elem_of_fmap_2.
Qed.

(** *** Sequences of runs *)

Section Reach.

Variables (est : list (string * css_value)) (oc : string)
          (ovss : list (list (string * css_value))).
Hypothesis est_distinct : distinct_props est.

Lemma reach_trans d d1 d2 :
  reach est oc ovss d d1 → reach est oc ovss d1 d2 → reach est oc ovss d d2.
Proof. intros H1 H2. induction H2; [done|]. by constructor. Qed.

Lemma reach_wf d d' : reach est oc ovss d d' → wf d → wf d'.
Proof. intros H Hwf. induction H; [done|]. by apply step_wf. Qed.

Lemma reach_next_id d d' : reach est oc ovss d d' → (next_id d ≤ next_id d')%nat.
Proof.
  intros H. induction H; [done|].
  etrans; [done|]. apply step_next_id.
Qed.

Lemma reach_querySelectorAll c d d' :
  reach est oc ovss d d' → c ≠ oc → querySelectorAll c d' = querySelectorAll c d.
Proof.
  intros H Hc. induction H; [done|]. by rewrite step_querySelectorAll.
Qed.

Lemma reach_nodes d d' x :
  reach est oc ovss d d' → wf d → x ∈ subtree (body d') →
  ∃ n, evolved est oc n x
       ∧ (n ∈ subtree (body d)
          ∨ ∃ ovs k, ovs ∈ ovss ∧ (next_id d ≤ k)%nat ∧ n = overlay oc ovs k).
Proof.
  intros H Hwf. revert x. induction H as [|d1 ovs el H IH Hovs]; intros x Hx.
  - exists x. split; [apply evolved_refl|by left].
  - destruct (step_nodes est oc est_distinct ovs el d1 x) as (m & Hev & [Hm| ->]);
      [by eapply reach_wf|done| |].
    + destruct (IH m Hm) as (n & Hev' & Hn). exists n. split; [|done].
      by eapply evolved_trans.
    + eexists. split; [done|]. right. exists ovs, (next_id d1).
      split_and!; [done| |done]. by apply reach_next_id.
Qed.

Lemma reach_forward d d' n :
  reach est oc ovss d d' → wf d → n ∈ subtree (body d) →
  ∃ x, x ∈ subtree (body d') ∧ evolved est oc n x.
Proof.
  intros H Hwf Hn. induction H as [|d1 ovs el H IH Hovs].
  - exists n. split; [done|apply evolved_refl].
  - destruct IH as (m & Hm & Hev).
    destruct (step_forward est oc est_distinct ovs el d1 m) as (x & Hx & Hev');
      [by eapply reach_wf|done|].
    exists x. split; [done|]. by eapply evolved_trans.
Qed.

Lemma evolved_settled n x : evolved est oc n x → settled est oc n → settled est oc x.
Proof. intros Hev [H1 H2]. split; by apply Hev. Qed.

Lemma reach_settled d d' i :
  reach est oc ovss d d' → wf d → i < next_id d →
  (∀ n, n ∈ subtree (body d) → node_id n = i → settled est oc n) →
  ∀ x, x ∈ subtree (body d') → node_id x = i → settled est oc x.
Proof.
  intros H Hwf Hi Hs x Hx Hid.
  destruct (reach_nodes d d' x H Hwf Hx) as (n & Hev & [Hn|(ovs & k & _ & Hk & ->)]).
  - eapply evolved_settled; [done|]. apply Hs; [done|].
    rewrite <- Hid. symmetry. apply Hev.
  - destruct Hev as [Hev _ _ _ _ _ _]. rewrite overlay_node_id in Hev. lia.
Qed.

Lemma forEach_reach ovs els d :
  ovs ∈ ovss → reach est oc ovss d (JS.forEach els (step est oc ovs) d).
Proof.
  intros Hovs. unfold JS.forEach. revert d.
  induction els as [|el els IH]; intros d; simpl; [constructor|].
  eapply reach_trans; [|apply IH]. by repeat constructor.
Qed.

Lemma forEach_settles ovs els d :
  ovs ∈ ovss → wf d → Forall (λ el, el < next_id d) els →
  ∀ el x, el ∈ els →
    x ∈ subtree (body (JS.forEach els (step est oc ovs) d)) →
    node_id x = el → settled est oc x.
Proof.
  intros Hovs. revert d. induction els as [|e0 els IH]; intros d Hwf Hlt el x Hel;
    [by apply elem_of_nil in Hel|].
  apply Forall_cons in Hlt as [Hlt0 Hlt].
  pose proof (step_wf est oc ovs e0 d Hwf) as Hwf1.
  pose proof (step_next_id est oc ovs e0 d) as Hnext.
  unfold JS.forEach. simpl. fold (JS.forEach els (step est oc ovs) (step est oc ovs e0 d)).
  apply elem_of_cons in Hel as [-> |Hel].
  - apply (reach_settled (step est oc ovs e0 d)); [by apply forEach_reach|done|lia|].
    intros n. by apply step_settles.
  - apply IH; [done| |done].
    eapply Forall_impl; [done|]. simpl. intros. lia.
Qed.

Lemma forEach_fixed ovs els d :
  (∀ el, el ∈ els → step est oc ovs el d = d) →
  JS.forEach els (step est oc ovs) d = d.
Proof.
  unfold JS.forEach. induction els as [|el els IH]; intros H; simpl; [done|].
  rewrite H by left. apply IH. intros. apply H. by right.
Qed.

Lemma pass_cons t targets d :
  pass est oc (t :: targets) d
  = pass est oc targets (JS.forEach (querySelectorAll t.1 d) (step est oc t.2) d).
Proof. done. Qed.

Lemma pass_reach targets d :
  (∀ t, t ∈ targets → t.2 ∈ ovss) → reach est oc ovss d (pass est oc targets d).
Proof.
  revert d. induction targets as [|t targets IH]; intros d H; [constructor|].
  rewrite pass_cons. eapply reach_trans.
  - apply forEach_reach. apply H. left.
  - apply IH. intros. apply H. by right.
Qed.

(** After a pass, every node that one of the targets matches is settled. *)
Lemma pass_settles targets d :
  wf d → (∀ t, t ∈ targets → t.1 ≠ oc ∧ t.2 ∈ ovss) →
  ∀ x t, x ∈ subtree (body (pass est oc targets d)) → t ∈ targets →
    has_class t.1 x = true → settled est oc x.
Proof.
  revert d. induction targets as [|t0 targets IH]; intros d Hwf Hts x t Hx Ht Hc;
    [by apply elem_of_nil in Ht|].
  rewrite pass_cons in Hx.
  set (d1 := JS.forEach (querySelectorAll t0.1 d) (step est oc t0.2) d) in *.
  assert (reach est oc ovss d d1) as Hr1.
  { apply forEach_reach. apply Hts. left. }
  assert (reach est oc ovss d1 (pass est oc targets d1)) as Hr2.
  { apply pass_reach. intros. apply Hts. by right. }
  assert (wf d1) as Hwf1 by by eapply reach_wf.
  apply elem_of_cons in Ht as [-> |Ht].
  - destruct (Hts t0) as [Hne Hov]; [left|].
    assert (node_id x ∈ querySelectorAll t0.1 d) as Hq.
    { rewrite <- (reach_querySelectorAll t0.1 d (pass est oc targets d1))
        by (done || by eapply reach_trans).
      apply querySelectorAll_elem. eauto. }
    assert (node_id x < next_id d) as Hlt.
    { apply querySelectorAll_ids in Hq. destruct Hwf as [_ Hlt].
      rewrite Forall_forall in Hlt. by apply Hlt. }
    apply (reach_settled d1 (pass est oc targets d1) (node_id x)); try done.
    + pose proof (reach_next_id d d1 Hr1). lia.
    + intros n Hn Hid. eapply (forEach_settles t0.2 (querySelectorAll t0.1 d) d); try done.
      apply Forall_forall. intros el Hel%querySelectorAll_ids.
      destruct Hwf as [_ Hlt']. rewrite Forall_forall in Hlt'. by apply Hlt'.
  - eapply (IH d1); try done. intros. apply Hts. by right.
Qed.

(** A pass over a tree whose matched nodes are all settled changes
    nothing. *)
Lemma pass_fixed targets d :
  wf d →
  (∀ x t, x ∈ subtree (body d) → t ∈ targets → has_class t.1 x = true →
     settled est oc x) →
  pass est oc targets d = d.
Proof.
  intros Hwf. induction targets as [|t0 targets IH]; intros Hs; [done|].
  rewrite pass_cons.
  assert (JS.forEach (querySelectorAll t0.1 d) (step est oc t0.2) d = d) as ->.
  { apply forEach_fixed. intros el Hel. apply step_fixed; try done.
    - by eapply querySelectorAll_ids.
    - intros n Hn Hid. apply querySelectorAll_elem in Hel as (x & Hx & Hid' & Hc).
      assert (n = x) as ->.
      { destruct Hwf as [Hnd _]. eapply subtree_id_unique; eauto. congruence. }
      eapply Hs; [done|left|done]. }
  apply IH. intros x t Hx Ht. apply Hs; [done|by right].
Qed.

Lemma pass_idempotent targets d :
  wf d → (∀ t, t ∈ targets → t.1 ≠ oc ∧ t.2 ∈ ovss) →
  pass est oc targets (pass est oc targets d) = pass est oc targets d.
Proof.
  intros Hwf Hts. apply pass_fixed.
  - eapply reach_wf; [|done]. apply pass_reach. intros. by apply Hts.
  - intros x t. by apply pass_settles.
Qed.

(** *** Where the overlays hang *)

Lemma parent_in_subtree e : ∀ x, x ∈ descendants e → ∃ p, p ∈ subtree e ∧ x ∈ childNodes p.
Proof.
  induction e as [i c s ch IH] using element_ind'. intros x Hx.
  unfold descendants in Hx. simpl in Hx.
  apply in_flat_map_subtree in Hx as (k & Hk & Hx).
  rewrite subtree_unfold in Hx. apply elem_of_cons in Hx as [-> |Hx].
  - eexists. split; [apply self_in_subtree|done].
  - rewrite Forall_forall in IH. destruct (IH k Hk x Hx) as (p & Hp & Hxp).
    exists p. split; [|done]. eapply child_subtree_incl; eauto.
Qed.

Lemma count_children_pos c e x :
  x ∈ childNodes e → has_class c x = true → (1 ≤ count_children c e)%nat.
Proof.
  intros Hx Hc. unfold count_children.
  assert (x ∈ filter (λ n, has_class c n = true) (childNodes e)) as Hin
    by by apply list_elem_of_filter.
  destruct (filter _ (childNodes e)); [by apply elem_of_nil in Hin|simpl; lia].
Qed.

Lemma is_target_classes targets n x :
  classList x = classList n → is_target targets n → is_target targets x.
Proof. intros Hc (t & Ht & H). exists t. split; [done|]. unfold has_class in *. by rewrite Hc. Qed.

Lemma step_overlays_under_targets ovs el c targets d :
  wf d → el ∈ querySelectorAll c d → (∃ t, t ∈ targets ∧ t.1 = c) →
  overlays_under_targets oc targets d →
  overlays_under_targets oc targets (step est oc ovs el d).
Proof.
  intros [Hnd Hlt] Hel (t & Ht & Htc) HP n' c' Hn' Hc' Hoc.
  pose proof (overlay_childNodes oc ovs (next_id d)) as Hch.
  assert (∀ n, n ∈ subtree (body d) → node_id n = el → is_target targets n) as Htarget.
  { intros n Hn Hid. apply querySelectorAll_elem in Hel as (x & Hx & Hid' & Hcx).
    assert (n = x) as -> by (eapply subtree_id_unique; eauto; congruence).
    exists t. by rewrite Htc. }
  destruct (step_cases est oc ovs el d) as [[_ Hs]|[_ Hs]]; rewrite Hs in Hn'; simpl in Hn'.
  - rewrite subtree_update_restyle in Hn'.
    apply list_elem_of_fmap in Hn' as (n & -> & Hn).
    rewrite childNodes_update_restyle in Hc'.
    apply list_elem_of_In, in_map_iff in Hc' as (c0 & <- & Hc0%list_elem_of_In).
    rewrite update_has_class in Hoc by done.
    eapply is_target_classes; [by apply update_classList|]. eauto.
  - apply (elem_of_subtree_update_append _ _ Hch) in Hn' as [(m & Hm & ->)|[-> _]];
      [|by rewrite Hch in Hc'; apply elem_of_nil in Hc'].
    rewrite subtree_update_restyle in Hm.
    apply list_elem_of_fmap in Hm as (n & -> & Hn).
    eapply is_target_classes.
    { rewrite update_classList by done. by apply update_classList. }
    rewrite childNodes_update_append, childNodes_update_restyle in Hc'.
    apply elem_of_app in Hc' as [Hc'|Hc'].
    + apply list_elem_of_In, in_map_iff in Hc' as (c1 & <- & Hc1).
      apply in_map_iff in Hc1 as (c0 & <- & Hc0%list_elem_of_In).
      rewrite !update_has_class in Hoc by done. eauto.
    + rewrite update_node_id in Hc' by done. case_decide; [|by apply elem_of_nil in Hc'].
      by apply Htarget.
Qed.

Lemma forEach_overlays_under_targets ovs c targets els d :
  ovs ∈ ovss → c ≠ oc → wf d → (∃ t, t ∈ targets ∧ t.1 = c) →
  (∀ el, el ∈ els → el ∈ querySelectorAll c d) →
  overlays_under_targets oc targets d →
  overlays_under_targets oc targets (JS.forEach els (step est oc ovs) d).
Proof.
  intros Hovs Hc. revert d. unfold JS.forEach.
  induction els as [|el els IH]; intros d Hwf Ht Hels HP; [done|]. simpl.
  apply IH.
  - by apply step_wf.
  - done.
  - intros el' Hel'. rewrite step_querySelectorAll by done. apply Hels. by right.
  - eapply step_overlays_under_targets; eauto. apply Hels. left.
Qed.

Lemma pass_overlays_under_targets all targets d :
  (∀ t, t ∈ targets → t ∈ all ∧ t.1 ≠ oc ∧ t.2 ∈ ovss) → wf d →
  overlays_under_targets oc all d →
  overlays_under_targets oc all (pass est oc targets d).
Proof.
  revert d. induction targets as [|t targets IH]; intros d Hts Hwf HP; [done|].
  rewrite pass_cons. destruct (Hts t) as (Hall & Hne & Hov); [left|].
  apply IH.
  - intros. apply Hts. by right.
  - eapply reach_wf; [by apply forEach_reach|done].
  - apply (forEach_overlays_under_targets t.2 t.1); eauto.
Qed.

(** After a pass over a tree that satisfied both invariants, a target with
    no target below it has exactly one overlay child. *)
Lemma pass_exactly_one targets d x :
  (∀ t, t ∈ targets → t.1 ≠ oc ∧ t.2 ∈ ovss) → wf d →
  overlays_under_targets oc targets d → at_most_one oc d →
  x ∈ subtree (body (pass est oc targets d)) → is_target targets x →
  (∀ m, m ∈ descendants x → ¬ is_target targets m) →
  count_children oc x = 1.
Proof.
  intros Hts Hwf HP Hone Hx (t & Ht & Hc) Hnone.
  set (d1 := pass est oc targets d) in *.
  assert (reach est oc ovss d d1) as Hr.
  { apply pass_reach. intros. by apply Hts. }
  assert (overlays_under_targets oc targets d1) as HP1.
  { apply pass_overlays_under_targets; [|done|done].
    intros t' Ht'. split; [done|]. by apply Hts. }
  destruct (pass_settles targets d Hwf Hts x t Hx Ht Hc) as [_ (ov & Hov & Hoc)].
  destruct (parent_in_subtree x ov Hov) as (p & Hp & Hovp).
  assert (is_target targets p) as Htp.
  { eapply HP1; [|done|done]. eapply subtree_trans; eauto. }
  rewrite subtree_unfold in Hp. apply elem_of_cons in Hp as [-> |Hp];
    [|by apply Hnone in Hp].
  pose proof (count_children_pos oc x ov Hovp Hoc) as Hge.
  assert (count_children oc x ≤ 1)%nat as Hle; [|lia].
  destruct (reach_nodes d d1 x Hr Hwf Hx) as (n & Hev & [Hn|(ovs & k & _ & _ & ->)]).
  - specialize (Hone n Hn). destruct Hev as [_ _ _ _ _ Hcnt _]. lia.
  - destruct Hev as [_ _ _ _ _ Hcnt _]. rewrite overlay_count in Hcnt. lia.
Qed.

End Reach.

(** *** The tree without its styles *)

Lemma structure_unfold e :
  structure e = Element (node_id e) (classList e) ∅ (map structure (childNodes e)).
Proof. by destruct e. Qed.

Lemma structure_has_class c e : has_class c (structure e) = has_class c e.
Proof. by destruct e. Qed.

Lemma structure_node_id e : node_id (structure e) = node_id e.
Proof. by destruct e. Qed.

Lemma subtree_structure e : subtree (structure e) = structure <$> subtree e.
Proof.
  induction e as [i c s ch IH] using element_ind'.
  rewrite structure_unfold, subtree_unfold, (subtree_unfold (Element i c s ch)), fmap_cons.
  simpl childNodes. rewrite <- structure_unfold. f_equal.
  induction ch as [|x ch IHch]; [done|].
  apply Forall_cons in IH as [Hx IH]. cbn [map flat_map].
  by rewrite fmap_app, Hx, IHch.
Qed.

Lemma descendants_structure e : descendants (structure e) = structure <$> descendants e.
Proof.
  pose proof (subtree_structure e) as H.
  rewrite (subtree_unfold e), (subtree_unfold (structure e)), fmap_cons in H.
  by injection H.
Qed.

Lemma filter_class_structure c (l : list element) :
  node_id <$> filter (λ n, has_class c n = true) (structure <$> l)
  = node_id <$> filter (λ n, has_class c n = true) l.
Proof.
  induction l as [|x l IH]; [done|].
  rewrite fmap_cons, !filter_cons, structure_has_class.
  case_decide; [|done]. by rewrite !fmap_cons, IH, structure_node_id.
Qed.

Lemma querySelectorAll_structure c d :
  querySelectorAll c (doc_structure d) = querySelectorAll c d.
Proof.
  unfold querySelectorAll. simpl. rewrite subtree_structure. apply filter_class_structure.
Qed.

Lemma el_querySelector_structure c e : el_querySelector c (structure e) = el_querySelector c e.
Proof.
  unfold el_querySelector. by rewrite descendants_structure, filter_class_structure.
Qed.

Lemma getElement_structure i e : getElement i (structure e) = structure <$> getElement i e.
Proof.
  unfold getElement. rewrite subtree_structure.
  induction (subtree e) as [|x l IH]; [done|].
  rewrite fmap_cons, !filter_cons, structure_node_id. by case_decide.
Qed.

Lemma querySelector_structure el c d :
  querySelector el c (doc_structure d) = querySelector el c d.
Proof.
  unfold querySelector. simpl. rewrite getElement_structure.
  destruct (getElement el (body d)); simpl; [|done]. apply el_querySelector_structure.
Qed.

Lemma structure_update_restyle i t e : structure (update i (restyle_with t) e) = structure e.
Proof.
  induction e as [j c s ch IH] using element_ind'.
  rewrite update_unfold. simpl.
  assert (map structure (map (update i (restyle_with t)) ch) = map structure ch) as Hch.
  { induction ch as [|x ch IHch]; [done|].
    apply Forall_cons in IH as [Hx IH]. cbn [map]. by rewrite Hx, IHch. }
  case_decide; simpl; by rewrite Hch.
Qed.

Lemma structure_update_append i ov e :
  structure (update i (el_appendChild ov) e)
  = update i (el_appendChild (structure ov)) (structure e).
Proof.
  induction e as [j c s ch IH] using element_ind'.
  rewrite update_unfold, (structure_unfold (Element j c s ch)), update_unfold. simpl.
  assert (map structure (map (update i (el_appendChild ov)) ch)
          = map (update i (el_appendChild (structure ov))) (map structure ch)) as Hch.
  { induction ch as [|x ch IHch]; [done|].
    apply Forall_cons in IH as [Hx IH]. cbn [map]. by rewrite Hx, IHch. }
  case_decide; simpl; rewrite ?map_app, Hch; done.
Qed.

Lemma ids_structure e : ids (structure e) = ids e.
Proof.
  unfold ids. rewrite subtree_structure, <- list_fmap_compose.
  apply list_fmap_ext. intros _ x _. apply structure_node_id.
Qed.

Lemma wf_structure d : wf d → wf (doc_structure d).
Proof. unfold wf. simpl. by rewrite ids_structure. Qed.

Lemma structure_overlay oc ovs k : structure (overlay oc ovs k) = overlay oc [] k.
Proof. unfold overlay. by rewrite el_setStyles_restyle. Qed.

(** Seen without the styles, a run of the callback is the run without
    style assignments. *)
Lemma structure_step est oc ovs el d :
  doc_structure (step est oc ovs el d) = step [] oc [] el (doc_structure d).
Proof.
  assert (∀ b, update el (restyle_with (assign_all [])) b = b) as Hid.
  { intros b. rewrite (update_ext el _ (λ x, x)); [apply update_id_fun|by intros []]. }
  destruct (step_cases est oc ovs el d) as [[Hq ->]|[Hq ->]];
    destruct (step_cases [] oc [] el (doc_structure d)) as [[Hq' ->]|[Hq' ->]];
    rewrite querySelector_structure in Hq'.
  - unfold doc_structure. simpl. by rewrite structure_update_restyle, Hid.
  - rewrite Hq' in Hq. by destruct Hq.
  - rewrite Hq in Hq'. by destruct Hq'.
  - unfold doc_structure. simpl.
    by rewrite structure_update_append, structure_update_restyle, structure_overlay, Hid.
Qed.

Lemma structure_forEach_step est oc ovs els d :
  doc_structure (JS.forEach els (step est oc ovs) d)
  = JS.forEach els (step [] oc []) (doc_structure d).
Proof.
  unfold JS.forEach. revert d. induction els as [|el els IH]; intros d; [done|].
  simpl. by rewrite IH, structure_step.
Qed.

Lemma structure_pass est oc targets d :
  doc_structure (pass est oc targets d) = pass [] oc (Shapes.bare targets) (doc_structure d).
Proof.
  revert d. induction targets as [|t targets IH]; intros d; [done|].
  unfold Shapes.bare. rewrite fmap_cons, !pass_cons. fold (Shapes.bare targets).
  by rewrite IH, structure_forEach_step, querySelectorAll_structure.
Qed.

Lemma in_subtree_structure e x : x ∈ subtree e → structure x ∈ subtree (structure e).
Proof. intros H. rewrite subtree_structure. by apply list_elem_of_fmap_2. Qed.

Lemma has_desc_structure c e : has_desc c (structure e) ↔ has_desc c e.
Proof.
  unfold has_desc. rewrite descendants_structure. split.
  - intros (y & (x & -> & Hx)%list_elem_of_fmap & Hc). exists x.
    by rewrite structure_has_class in Hc.
  - intros (x & Hx & Hc). exists (structure x). rewrite structure_has_class.
    split; [by apply list_elem_of_fmap_2|done].
Qed.

Lemma count_children_structure c e : count_children c (structure e) = count_children c e.
Proof.
  unfold count_children. rewrite structure_unfold. simpl.
  induction (childNodes e) as [|x ch IH]; [done|]. cbn [map].
  rewrite !filter_cons, structure_has_class. case_decide; simpl; by rewrite IH.
Qed.

Lemma is_target_structure targets e : is_target targets (structure e) ↔ is_target targets e.
Proof. unfold is_target. by setoid_rewrite structure_has_class. Qed.

Lemma is_target_bare targets e : is_target (Shapes.bare targets) e ↔ is_target targets e.
Proof.
  unfold is_target, Shapes.bare. split.
  - intros (t & (t0 & -> & Ht0)%list_elem_of_fmap & Hc). by exists t0.
  - intros (t & Ht & Hc). exists (t.1, []). split; [|done].
    apply list_elem_of_fmap. by exists t.
Qed.

Lemma at_most_one_structure oc d : at_most_one oc (doc_structure d) ↔ at_most_one oc d.
Proof.
  unfold at_most_one. simpl. rewrite subtree_structure. split.
  - intros H n Hn. rewrite <- count_children_structure. apply H.
    by apply list_elem_of_fmap_2.
  - intros H y (x & -> & Hx)%list_elem_of_fmap. rewrite count_children_structure. by apply H.
Qed.

Lemma overlays_under_targets_structure oc targets d :
  overlays_under_targets oc targets d →
  overlays_under_targets oc (Shapes.bare targets) (doc_structure d).
Proof.
  intros H y c. simpl. rewrite subtree_structure.
  intros (x & -> & Hx)%list_elem_of_fmap Hc Hoc.
  rewrite structure_unfold in Hc. simpl in Hc.
  apply list_elem_of_In, in_map_iff in Hc as (c0 & <- & Hc0%list_elem_of_In).
  rewrite structure_has_class in Hoc.
  apply is_target_bare, is_target_structure. eauto.
Qed.

(** What the pass achieves, read off the tree without its styles: it
    holds for every tree [d1] that has the structure of the pass's result,
    whatever its styles. *)
Lemma structural_outcome oc targets d d1 :
  wf d → (∀ t, t ∈ targets → t.1 ≠ oc) →
  doc_structure d1 = pass [] oc (Shapes.bare targets) (doc_structure d) →
  overlays_in_place oc targets d d1.
Proof.
  unfold overlays_in_place.
  intros Hwf Hts Hs.
  assert (distinct_props []) as Hnil by constructor.
  assert (∀ t, t ∈ Shapes.bare targets → t.1 ≠ oc ∧ t.2 ∈ [[]]) as Hbare.
  { intros t (t0 & -> & Ht0)%list_elem_of_fmap. simpl. split; [by apply Hts|left]. }
  pose proof (wf_structure d Hwf) as Hwf'.
  assert (∀ x, x ∈ subtree (body d1) →
            structure x ∈ subtree (body (pass [] oc (Shapes.bare targets) (doc_structure d))))
    as Hin.
  { intros x Hx. rewrite <- Hs. simpl. by apply in_subtree_structure. }
  split_and!.
  - intros x Hx (t & Ht & Hc)%is_target_bare. apply has_desc_structure.
    by eapply (pass_settles [] oc [[]] Hnil (Shapes.bare targets) _ Hwf' Hbare
                 (structure x) t (Hin x Hx) Ht); rewrite structure_has_class.
  - intros Hone. apply at_most_one_structure. rewrite Hs.
    intros y Hy.
    destruct (reach_nodes [] oc [[]] Hnil _ _ y
                (pass_reach [] oc [[]] (Shapes.bare targets) _
                   (λ t Ht, proj2 (Hbare t Ht))) Hwf' Hy)
      as (n & Hev & [Hn|(ovs & k & _ & _ & ->)]).
    + apply at_most_one_structure in Hone. specialize (Hone n Hn).
      destruct Hev as [_ _ _ _ _ Hc _]. lia.
    + destruct Hev as [_ _ _ _ _ Hc _]. rewrite overlay_count in Hc. lia.
  - intros HP Hone x Hx Ht Hnone. rewrite <- count_children_structure.
    apply (pass_exactly_one [] oc [[]] Hnil (Shapes.bare targets) (doc_structure d));
      try done.
    + by apply overlays_under_targets_structure.
    + by apply at_most_one_structure.
    + by apply Hin.
    + by apply is_target_bare, is_target_structure.
    + intros m. rewrite descendants_structure.
      intros (m0 & -> & Hm0)%list_elem_of_fmap Hm.
      apply (proj1 (is_target_bare _ _)), (proj1 (is_target_structure _ _)) in Hm.
      exact (Hnone m0 Hm0 Hm).
Qed.

Lemma subtree_update_flat i f e :
  (∀ x, childNodes (f x) = childNodes x) →
  subtree (update i f e) = update i f <$> subtree e.
Proof.
  intros Hf. induction e as [j c s ch IH] using element_ind'.
  rewrite (subtree_unfold (Element j c s ch)), fmap_cons. simpl childNodes.
  rewrite (subtree_unfold (update _ _ _)). f_equal.
  assert (childNodes (update i f (Element j c s ch)) = map (update i f) ch) as ->.
  { rewrite update_unfold. simpl. case_decide; [by rewrite Hf|done]. }
  induction ch as [|x ch IHch]; [done|].
  apply Forall_cons in IH as [Hx IH]. cbn [map flat_map].
  rewrite fmap_app, Hx, IHch; done.
Qed.

(** *** What a pass leaves alone, and what it makes *)

Lemma undisturbed_refl oc d : undisturbed oc d d.
Proof. intros n Hn. exists n. split_and!; auto. Qed.

Lemma undisturbed_trans oc d1 d2 d3 :
  undisturbed oc d1 d2 → undisturbed oc d2 d3 → undisturbed oc d1 d3.
Proof.
  intros H1 H2 n Hn. destruct (H1 n Hn) as (m & Hm & E1 & E2 & E3).
  destruct (H2 m Hm) as (x & Hx & F1 & F2 & F3).
  exists x. split_and!; [done|congruence|congruence|].
  intros Hd. destruct (E3 Hd) as [Hd' Hc]. destruct (F3 Hd') as [Hd'' Hc'].
  split; [done|congruence].
Qed.

Lemma carries_on_refl oc colours from d : wf d → carries_on oc colours from d d.
Proof. intros Hwf. split_and!; auto. apply undisturbed_refl. Qed.

Lemma carries_on_trans oc colours from d1 d2 d3 :
  carries_on oc colours from d1 d2 → carries_on oc colours from d2 d3 →
  carries_on oc colours from d1 d3.
Proof.
  intros (H1 & H2 & H3 & H4 & H5 & H6) (G1 & G2 & G3 & G4 & G5 & G6).
  split_and!; [done|lia|congruence|by eapply undisturbed_trans|auto|auto].
Qed.

(** The node that a query found is the node of that identity. *)
Lemma queried_node c d el n :
  wf d → el ∈ querySelectorAll c d → n ∈ subtree (body d) → node_id n = el →
  has_class c n = true.
Proof.
  intros [Hnd _] (x & Hx & Hid & Hc)%querySelectorAll_elem Hn Hel.
  assert (n = x) as -> by (eapply subtree_id_unique; eauto; congruence). done.
Qed.

Lemma step_carries_on est oc ovs sel colours from el d :
  distinct_props est → "backgroundColor" ∉ est.*1 → sel ≠ oc →
  (∃ colour, (sel, colour) ∈ colours
             ∧ assign_all ovs ∅ !! "backgroundColor" = Some colour) →
  wf d → el ∈ querySelectorAll sel d →
  carries_on oc colours from d (step est oc ovs el d).
Proof.
  intros Hest Hbc Hsel (colour & Hcol & Hov) Hwf Hel.
  pose proof (overlay_childNodes oc ovs (next_id d)) as Hch.
  split_and!.
  - by apply step_wf.
  - apply step_next_id.
  - destruct (step_cases est oc ovs el d) as [[_ ->]|[_ ->]]; simpl;
      by rewrite ?update_node_id.
  - intros n Hn.
    destruct (step_image est oc Hest ovs el d Hwf) as (img & Himg & _).
    destruct (Himg n Hn) as (Hin & [E1 E2 E3 E4 E5 E6 E7] & _).
    exists (img n). split_and!; [done|done|by apply E3|]. intros Hd. split; auto.
  - intros HP p' c' Hp' Hc' Hfrom.
    destruct (step_cases est oc ovs el d) as [[_ Hs]|[_ Hs]]; rewrite Hs in Hp'; simpl in Hp'.
    + rewrite subtree_update_restyle in Hp'.
      apply list_elem_of_fmap in Hp' as (p0 & -> & Hp0).
      rewrite childNodes_update_restyle in Hc'.
      apply list_elem_of_In, in_map_iff in Hc' as (c0 & <- & Hc0%list_elem_of_In).
      rewrite update_node_id in Hfrom by done.
      destruct (HP p0 c0 Hp0 Hc0 Hfrom) as (Hcl & sel0 & col0 & Hin0 & Hcls0 & Hst0).
      split; [by rewrite update_classList|].
      exists sel0, col0. split_and!; [done|by rewrite update_has_class|].
      rewrite style_update_restyle. case_decide; [|done]. by rewrite assign_all_other.
    + apply (elem_of_subtree_update_append _ _ Hch) in Hp' as [(m & Hm & ->)|[-> _]];
        [|by rewrite Hch in Hc'; apply elem_of_nil in Hc'].
      rewrite subtree_update_restyle in Hm.
      apply list_elem_of_fmap in Hm as (p0 & -> & Hp0).
      rewrite childNodes_update_append, childNodes_update_restyle in Hc'.
      apply elem_of_app in Hc' as [Hc'|Hc'].
      * apply list_elem_of_In, in_map_iff in Hc' as (c1 & <- & Hc1).
        apply in_map_iff in Hc1 as (c0 & <- & Hc0%list_elem_of_In).
        rewrite !update_node_id in Hfrom by done.
        destruct (HP p0 c0 Hp0 Hc0 Hfrom) as (Hcl & sel0 & col0 & Hin0 & Hcls0 & Hst0).
        split; [by rewrite !update_classList|].
        exists sel0, col0. split_and!; [done|by rewrite !update_has_class|].
        rewrite style_update_append, style_update_restyle by done.
        case_decide; [|done]. by rewrite assign_all_other.
      * rewrite update_node_id in Hc' by done.
        case_decide as Hid; [|by apply elem_of_nil in Hc'].
        apply list_elem_of_singleton in Hc' as ->.
        split; [apply overlay_classList|].
        exists sel, colour. split_and!; [done| |by rewrite overlay_style].
        rewrite !update_has_class by done. by eapply queried_node.
  - intros c el' Hc. by rewrite step_querySelectorAll.
Qed.

(** A node function that keeps the children of a node. *)
Lemma childNodes_update_flat i f e :
  (∀ x, childNodes (f x) = childNodes x) →
  childNodes (update i f e) = map (update i f) (childNodes e).
Proof. intros Hf. rewrite update_unfold. simpl. case_decide; [by rewrite Hf|done]. Qed.

Lemma has_class_classList_add i m c e :
  has_class c e = true → has_class c (update i (el_classList_add m) e) = true.
Proof.
  rewrite update_unfold. simpl. case_decide; [|done].
  unfold el_classList_add, has_class. simpl.
  intros Hc%bool_decide_eq_true. apply bool_decide_eq_true.
  destruct (bool_decide (m ∈ classList e)); [done|]. apply elem_of_app. by left.
Qed.

Lemma classList_classList_add_other i m e :
  node_id e ≠ i → classList (update i (el_classList_add m) e) = classList e.
Proof. intros Hne. rewrite update_unfold. simpl. by case_decide. Qed.

Lemma classList_add_carries_on oc colours from sel mark el d :
  sel ≠ oc → wf d → el ∈ querySelectorAll sel d →
  carries_on oc colours from d (classList_add el mark d).
Proof.
  intros Hsel Hwf Hel.
  set (f := el_classList_add mark).
  assert (∀ x, childNodes (f x) = childNodes x) as Hch by done.
  assert (∀ x, node_id (f x) = node_id x) as Hid by done.
  assert (∀ e, ids (update el f e) = ids e) as Hids.
  { intros e. unfold ids. rewrite subtree_update_flat, <- list_fmap_compose by done.
    apply list_fmap_ext. intros _ x _. simpl. by apply update_node_id. }
  assert (∀ c e, has_desc c e → has_desc c (update el f e)) as Hdesc.
  { intros c e (n & Hn & Hc). exists (update el f n). split; [|by apply has_class_classList_add].
    pose proof (subtree_update_flat el f e Hch) as Hsub.
    rewrite (subtree_unfold e), (subtree_unfold (update _ _ _)), fmap_cons in Hsub.
    injection Hsub as Hsub. unfold descendants. rewrite Hsub.
    by apply list_elem_of_fmap_2. }
  unfold classList_add. fold f. split_and!.
  - unfold wf. simpl. by rewrite Hids.
  - done.
  - simpl. by apply update_node_id.
  - intros n Hn. exists (update el f n). simpl. split_and!.
    + rewrite subtree_update_flat by done. by apply list_elem_of_fmap_2.
    + by apply update_node_id.
    + by apply update_style_lookup.
    + intros Hd. split; [by apply Hdesc|].
      rewrite childNodes_update_flat, <- list_fmap_compose by done.
      apply list_fmap_ext. intros _ x _. simpl. by apply update_node_id.
  - intros HP p' c'. simpl. rewrite subtree_update_flat by done.
    intros (p0 & -> & Hp0)%list_elem_of_fmap Hc' Hfrom.
    rewrite childNodes_update_flat in Hc' by done.
    apply list_elem_of_In, in_map_iff in Hc' as (c0 & <- & Hc0%list_elem_of_In).
    rewrite update_node_id in Hfrom by done.
    destruct (HP p0 c0 Hp0 Hc0 Hfrom) as (Hcl & sel0 & col0 & Hin0 & Hcls0 & Hst0).
    assert (node_id c0 ≠ el) as Hne.
    { intros Hc0el.
      assert (has_class sel c0 = true) as Hc.
      { eapply queried_node; [done|done| |done].
        eapply subtree_trans; [exact Hp0|].
        eapply child_subtree_incl; [exact Hc0|apply self_in_subtree]. }
      unfold has_class in Hc. rewrite Hcl in Hc.
      apply bool_decide_eq_true, list_elem_of_singleton in Hc. done. }
    split; [unfold f; by rewrite classList_classList_add_other|].
    exists sel0, col0. split_and!; [done|by apply has_class_classList_add|].
    by rewrite update_style_lookup.
  - intros c el' _ (x & Hx & Hidx & Hc)%querySelectorAll_elem.
    apply querySelectorAll_elem. exists (update el f x). simpl. split_and!.
    + rewrite subtree_update_flat by done. by apply list_elem_of_fmap_2.
    + by rewrite update_node_id.
    + by apply has_class_classList_add.
Qed.

(** A loop over elements that a query for [sel] has found. *)
Lemma forEach_carries_on oc colours from sel (g : nat → document → document) els d :
  sel ≠ oc →
  (∀ el d, wf d → el ∈ querySelectorAll sel d → carries_on oc colours from d (g el d)) →
  wf d → (∀ el, el ∈ els → el ∈ querySelectorAll sel d) →
  carries_on oc colours from d (JS.forEach els g d).
Proof.
  intros Hsel Hg. unfold JS.forEach. revert d.
  induction els as [|el els IH]; intros d Hwf Hels; [by apply carries_on_refl|]. simpl.
  assert (carries_on oc colours from d (g el d)) as H1 by (apply Hg; [done|apply Hels; left]).
  eapply carries_on_trans; [exact H1|].
  destruct H1 as (Hwf1 & _ & _ & _ & _ & Hq).
  apply IH; [done|]. intros el' Hel'. apply Hq; [done|]. apply Hels. by right.
Qed.

(** Of a whole pass that started from a well-formed tree: every node made
    since is a child as [made_under] describes. *)
Lemma carries_on_made_for oc colours d d' :
  wf d → carries_on oc colours (next_id d) d d' → made_for oc colours (next_id d) d'.
Proof.
  intros [Hnd Hlt] (Hwf' & Hnext & Hroot & _ & HP & _) x Hx Hfrom.
  assert (made_under oc colours (next_id d) d') as HP'.
  { apply HP. intros p c Hp Hc Hge. exfalso.
    assert (node_id c ∈ ids (body d)) as Hin.
    { apply list_elem_of_fmap_2. eapply subtree_trans; [exact Hp|].
      eapply child_subtree_incl; [exact Hc|apply self_in_subtree]. }
    rewrite Forall_forall in Hlt. apply Hlt in Hin. lia. }
  rewrite subtree_unfold in Hx. apply elem_of_cons in Hx as [-> |Hx].
  - exfalso. rewrite Hroot in Hfrom.
    assert (node_id (body d) ∈ ids (body d)) as Hin
      by apply list_elem_of_fmap_2, self_in_subtree.
    rewrite Forall_forall in Hlt. apply Hlt in Hin. lia.
  - destruct (parent_in_subtree (body d') x Hx) as (p & Hp & Hxp).
    destruct (HP' p x Hp Hxp Hfrom) as (Hcl & sel & colour & H1 & H2 & H3).
    split; [done|]. exists p, sel, colour. done.
Qed.

(** *** Teardown *)

Lemma querySelectorAll_classList_remove el c d x :
  x ∈ querySelectorAll c (classList_remove el c d) → x ∈ querySelectorAll c d ∧ x ≠ el.
Proof.
  intros (y & Hy & <- & Hc)%querySelectorAll_elem. simpl in Hy.
  rewrite subtree_update_flat in Hy by done.
  apply list_elem_of_fmap in Hy as (n & -> & Hn).
  rewrite update_node_id by done. revert Hc. rewrite update_unfold. simpl.
  case_decide as Hid.
  - unfold has_class. simpl. intros Hc%bool_decide_eq_true.
    by apply list_elem_of_filter in Hc as [? _].
  - intros Hc. split; [|done]. apply querySelectorAll_elem. eauto.
Qed.

Lemma subtree_detach i e x :
  x ∈ subtree (detach i e) → ∃ n, n ∈ subtree e ∧ x = detach i n.
Proof.
  induction e as [j c s ch IH] using element_ind'.
  rewrite subtree_unfold. intros [-> |Hx]%elem_of_cons.
  - eexists. split; [apply self_in_subtree|done].
  - simpl in Hx. apply in_flat_map_subtree in Hx as (k & Hk & Hx).
    apply list_elem_of_In, in_flat_map in Hk as (k0 & Hk0 & Hk).
    case_decide; [by destruct Hk|]. destruct Hk as [<- |[]].
    apply list_elem_of_In in Hk0. rewrite Forall_forall in IH.
    destruct (IH k0 Hk0 Hx) as (n & Hn & ->). exists n. split; [|done].
    eapply child_subtree_incl; eauto.
Qed.

Lemma querySelectorAll_remove o c d x :
  x ∈ querySelectorAll c (remove o d) → x ∈ querySelectorAll c d.
Proof.
  intros (y & Hy & <- & Hc)%querySelectorAll_elem. simpl in Hy.
  apply subtree_detach in Hy as (n & Hn & ->).
  apply querySelectorAll_elem. exists n. by destruct n.
Qed.

(** One run of the callback of [removeBackgrounds]: no element gains the
    marker class, and the element it runs on loses it. *)
Lemma removeBackgrounds_step el d x :
  let d1 := classList_remove el "dynamic-backgrounds"
              (setStyle el "backgroundImage" (CssText "") d) in
  x ∈ querySelectorAll "dynamic-backgrounds"
        (match querySelector el "dynamic-backgrounds-overlay" d1 with
         | Some overlay => remove overlay d1
         | None => d1
         end) →
  x ∈ querySelectorAll "dynamic-backgrounds" d ∧ x ≠ el.
Proof.
  intros d1 Hx.
  assert (x ∈ querySelectorAll "dynamic-backgrounds" d1) as Hx1.
  { destruct (querySelector el _ d1); [by eapply querySelectorAll_remove|done]. }
  apply querySelectorAll_classList_remove in Hx1 as [Hx1 Hne]. split; [|done].
  destruct d as [b k].
  change (x ∈ querySelectorAll "dynamic-backgrounds"
                (Document (update el (restyle_with (assign "backgroundImage" (CssText ""))) b) k))
    in Hx1.
  by rewrite querySelectorAll_restyle in Hx1.
Qed.

(** After [removeBackgrounds] no element carries the marker class. *)
Lemma removeBackgrounds_clears_markers w :
  querySelectorAll "dynamic-backgrounds" (Part001a.doc (Part001a.removeBackgrounds w)) = [].
Proof.
  unfold Part001a.removeBackgrounds. cbn [Part001a.doc Part001a.with_doc].
  set (els := querySelectorAll "dynamic-backgrounds" (Part001a.doc w)).
  assert (∀ x, x ∈ querySelectorAll "dynamic-backgrounds" (Part001a.doc w) → x ∈ els) as Hin
    by done.
  clearbody els. revert Hin. generalize (Part001a.doc w). clear w.
  unfold JS.forEach. induction els as [|el els IH]; intros d Hin; simpl.
  - apply elem_of_nil_inv. intros x Hx. apply Hin in Hx. by apply elem_of_nil in Hx.
  - apply IH. intros x Hx. apply removeBackgrounds_step in Hx as [Hx Hne].
    apply Hin in Hx. by apply elem_of_cons in Hx as [-> |Hx].
Qed.

(** *** The variants are instances *)

Lemma forEach_ext {B St} (f g : B → St → St) (l : list B) (s : St) :
  (∀ a s, f a s = g a s) → JS.forEach l f s = JS.forEach l g s.
Proof.
  intros H. unfold JS.forEach. revert s.
  induction l as [|a l IH]; intros s; simpl; [done|]. by rewrite H, IH.
Qed.

Lemma applyBackgroundAndOverlay_000 elements url d :
  Part000.applyBackgroundAndOverlay elements url d
  = JS.forEach elements
      (step (Shapes.element_style_000 url) Shapes.overlay_class Shapes.overlay_style_000) d.
Proof.
  unfold Part000.applyBackgroundAndOverlay. apply forEach_ext. clear. intros el d.
  cbv zeta. rewrite (setStyle_first el "backgroundImage" _ d), !setStyle_setStyle.
  rewrite querySelector_restyle.
  unfold step.
  rewrite (update_ext el (el_setStyles _) (restyle_with (assign_all (Shapes.element_style_000 url))))
    by apply el_setStyles_restyle.
  rewrite querySelector_restyle. simpl body. simpl next_id.
  destruct (querySelector el _ _); simpl; done.
Qed.

Lemma updateBackgrounds_000 this d :
  Part000.updateBackgrounds this d
  = pass (Shapes.element_style_000
            (JS.index (Part000.backgrounds (Part000.settings this))
                      (Part000.currentBackgroundIndex this)))
         Shapes.overlay_class Shapes.targets_000 d.
Proof.
  unfold Part000.updateBackgrounds, pass. simpl.
  by rewrite !applyBackgroundAndOverlay_000.
Qed.

Lemma applyBackgroundAndOverlay_001c elements url opacity d :
  Part001c.applyBackgroundAndOverlay elements url opacity d
  = JS.forEach elements
      (step (Shapes.element_style_001c url) Shapes.overlay_class
            (Shapes.overlay_style_001c opacity)) d.
Proof.
  unfold Part001c.applyBackgroundAndOverlay. apply forEach_ext. clear. intros el d.
  cbv zeta. rewrite (setStyle_first el "backgroundImage" _ d), !setStyle_setStyle.
  rewrite querySelector_restyle.
  unfold step.
  rewrite (update_ext el (el_setStyles _) (restyle_with (assign_all (Shapes.element_style_001c url))))
    by apply el_setStyles_restyle.
  rewrite querySelector_restyle. simpl body. simpl next_id.
  destruct (querySelector el _ _); simpl; done.
Qed.

Lemma restyle_001c this d :
  Part001c.restyle this d
  = pass (Shapes.element_style_001c
            (JS.index (Part001c.backgrounds (Part001c.settings this))
                      (Part001c.currentBackgroundIndex this)))
         Shapes.overlay_class
         (Shapes.targets_001c (Part001c.opacitySettings (Part001c.settings this))) d.
Proof.
  unfold Part001c.restyle, pass. simpl.
  by rewrite !applyBackgroundAndOverlay_001c.
Qed.

Lemma applyBackgroundAndOverlay_001b random elements opacity w :
  Part001b.doc (Part001b.applyBackgroundAndOverlay random elements opacity w)
  = JS.forEach elements
      (step (Shapes.element_style_001c (Part001b.getRandomBackground random w).1)
            Shapes.overlay_class (Shapes.overlay_style_001c opacity))
      (Part001b.doc w).
Proof.
  unfold Part001b.applyBackgroundAndOverlay.
  assert (Part001b.doc (Part001b.getRandomBackground random w).2 = Part001b.doc w) as Hd
    by reflexivity.
  destruct (Part001b.getRandomBackground random w) as [url w'].
  cbn [Part001b.doc Part001b.with_doc fst snd] in *. rewrite Hd.
  apply forEach_ext. clear. intros el d.
  cbv zeta. rewrite (setStyle_first el "backgroundImage" _ d), !setStyle_setStyle.
  rewrite querySelector_restyle.
  unfold step.
  rewrite (update_ext el (el_setStyles _) (restyle_with (assign_all (Shapes.element_style_001c _))))
    by apply el_setStyles_restyle.
  rewrite querySelector_restyle. simpl body. simpl next_id.
  destruct (querySelector el _ _); simpl; done.
Qed.

Lemma structure_applyBackgroundAndOverlay_001b random c opacity w :
  doc_structure
    (Part001b.doc (Part001b.applyBackgroundAndOverlay random
                     (querySelectorAll c (Part001b.doc w)) opacity w))
  = JS.forEach (querySelectorAll c (doc_structure (Part001b.doc w)))
      (step [] Shapes.overlay_class []) (doc_structure (Part001b.doc w)).
Proof.
  by rewrite applyBackgroundAndOverlay_001b, structure_forEach_step,
    querySelectorAll_structure.
Qed.

Lemma structure_updateBackgrounds_001b random w :
  doc_structure (Part001b.doc (Part001b.updateBackgrounds random w))
  = pass [] Shapes.overlay_class
      (Shapes.bare (Shapes.targets_001b (Part001a.opacitySettings (Part001b.settings w))))
      (doc_structure (Part001b.doc w)).
Proof.
  unfold Part001b.updateBackgrounds. cbv zeta. cbn [Part001b.doc].
  rewrite !structure_applyBackgroundAndOverlay_001b.
  reflexivity.
Qed.

End Facts.

End DomFacts.

(** * The restyle pass (claims C1, C2, C5, C7) *)

Module StylerClaims.
Import Dom Styler Shapes DomFacts.

Lemma distinct_000 url : distinct_props (element_style_000 url).
Proof. unfold distinct_props. simpl. apply (bool_decide_unpack _). by vm_compute. Qed.

Lemma distinct_001c url : distinct_props (element_style_001c url).
Proof. unfold distinct_props. simpl. apply (bool_decide_unpack _). by vm_compute. Qed.

Lemma distinct_001a url : distinct_props (element_style_001a url).
Proof. unfold distinct_props. simpl. apply (bool_decide_unpack _). by vm_compute. Qed.

Lemma targets_000_ok t :
  t ∈ targets_000 → t.1 ≠ overlay_class ∧ t.2 ∈ targets_000.*2.
Proof.
  intros Ht. split; [|by apply list_elem_of_fmap_2].
  unfold targets_000 in Ht.
  repeat (apply elem_of_cons in Ht as [-> |Ht]); [done..|by apply elem_of_nil in Ht].
Qed.

Lemma targets_001c_ok o t :
  t ∈ targets_001c o → t.1 ≠ overlay_class ∧ t.2 ∈ (targets_001c o).*2.
Proof.
  intros Ht. split; [|by apply list_elem_of_fmap_2].
  unfold targets_001c in Ht.
  repeat (apply elem_of_cons in Ht as [-> |Ht]); [done..|by apply elem_of_nil in Ht].
Qed.

Lemma workspace_wf : wf Examples.workspace.
Proof. split; apply (bool_decide_unpack _); by vm_compute. Defined.

Lemma workspace_overlay_free : querySelectorAll overlay_class Examples.workspace = [].
Proof. reflexivity. Defined.

Section AnyParser.

Context {css : CssParser}.

(** A tree without overlay nodes satisfies both invariants of the pass. *)
Lemma overlay_free_invariants oc targets d :
  querySelectorAll oc d = [] → overlays_under_targets oc targets d ∧ at_most_one oc d.
Proof.
  intros Hq.
  assert (∀ c, c ∈ subtree (body d) → has_class oc c = true → False) as Hfree.
  { intros c Hc Hoc.
    assert (node_id c ∈ querySelectorAll oc d) as Hin by (apply querySelectorAll_elem; eauto).
    rewrite Hq in Hin. by apply elem_of_nil in Hin. }
  split.
  - intros n c Hn Hc Hoc. exfalso. apply (Hfree c); [|done].
    eapply subtree_trans; [exact Hn|].
    eapply child_subtree_incl; [exact Hc|apply self_in_subtree].
  - intros n Hn. rewrite no_desc_count_children; [lia|].
    intros (c & Hc & Hoc). apply (Hfree c); [|done].
    eapply subtree_trans; [done|]. by apply descendants_in_subtree.
Qed.

(** The pass in general: the second of two passes in a row changes
    nothing, and the overlays are in place. *)
Lemma pass_twice est oc targets d :
  distinct_props est → (∀ t, t ∈ targets → t.1 ≠ oc ∧ t.2 ∈ targets.*2) → wf d →
  let d1 := pass est oc targets d in
  pass est oc targets d1 = d1 ∧ overlays_in_place oc targets d d1.
Proof.
  intros Hest Hts Hwf d1. split.
  - by eapply pass_idempotent.
  - apply structural_outcome; [done| |apply structure_pass].
    intros t Ht. by apply Hts.
Qed.

(** Two restyle passes in a row with unchanged settings, over any
    well-formed tree.  In part_000 and the third variant of part_001 the second
    pass leaves the tree exactly as the first left it; in the second variant of
    part_001, whose backgrounds are random, it changes inline styles only: in
    all three it appends no node.  After the first pass every matched element
    has an overlay node below it, no element has gained a second overlay
    child, and a matched element with no matched element below it has exactly
    one overlay child (given that overlays hung from matched elements only
    before, at most one each, as in a tree without overlays). *)
Lemma second_pass_appends_nothing (d : document) :
  wf d →
  (∀ this,
     let d1 := Part000.updateBackgrounds this d in
     Part000.updateBackgrounds this d1 = d1
     ∧ overlays_in_place overlay_class targets_000 d d1)
  ∧ (∀ this,
       let d1 := Part001c.restyle this d in
       Part001c.restyle this d1 = d1
       ∧ overlays_in_place overlay_class
           (targets_001c (Part001c.opacitySettings (Part001c.settings this))) d d1)
  ∧ (∀ random w,
       Part001b.doc w = d →
       let w1 := Part001b.updateBackgrounds random w in
       let w2 := Part001b.updateBackgrounds random w1 in
       doc_structure (Part001b.doc w2) = doc_structure (Part001b.doc w1)
       ∧ overlays_in_place overlay_class
           (targets_001b (Part001a.opacitySettings (Part001b.settings w)))
           d (Part001b.doc w1)).
Proof.
  intros Hwf. split_and!.
  - intros this. cbv zeta. rewrite !updateBackgrounds_000.
    apply pass_twice; [apply distinct_000|apply targets_000_ok|done].
  - intros this. cbv zeta. rewrite !restyle_001c.
    apply pass_twice; [apply distinct_001c|apply targets_001c_ok|done].
  - intros random w <- w1 w2.
    set (o := Part001a.opacitySettings (Part001b.settings w)).
    assert (∀ t, t ∈ bare (targets_001b o) → t.1 ≠ overlay_class ∧ t.2 ∈ [[]]) as Hts.
    { intros t Ht. unfold bare, targets_001b in Ht. rewrite !fmap_cons in Ht.
      repeat (apply elem_of_cons in Ht as [-> |Ht]); [..|by apply elem_of_nil in Ht];
        (split; [done|left]). }
    split.
    + subst w2 w1. rewrite (structure_updateBackgrounds_001b random (Part001b.updateBackgrounds _ _)).
      rewrite (structure_updateBackgrounds_001b random w).
      apply (pass_idempotent [] overlay_class [[]]); [constructor|by apply wf_structure|done].
    + apply structural_outcome; [done| |apply structure_updateBackgrounds_001b].
      intros t Ht. unfold targets_001b in Ht.
      repeat (apply elem_of_cons in Ht as [-> |Ht]); [done..|by apply elem_of_nil in Ht].
Qed.

(** C1 fails on the second and the third variant of part_001.  The plugin
    is loaded over the workspace, whatever the parser and the random draws,
    and the pass runs a second time.  After either pass the leaf, which the
    pass matches and for which it is given [opacitySettings.workspaceLeaf], has
    no overlay child: the callback looked for an overlay among all the
    descendants of the leaf and found the one of the view inside it.  The
    view, the tab header and the header container, which also encloses a
    matched element but is restyled before it, have one overlay child
    each. *)
Lemma C1_enclosing_element_gets_no_overlay :
  (∀ random : nat → Q,
     let w1 := Part001b.onload random Part001b.DEFAULT_SETTINGS Examples.workspace 0 in
     let w2 := Part001b.updateBackgrounds random w1 in
     let overlays (w : Part001b.world) (i : nat) :=
       count_children overlay_class <$> getElement i (body (Part001b.doc w)) in
     querySelectorAll "workspace-leaf" (Part001b.doc w1) = [4]
     ∧ querySelectorAll "workspace-leaf" (Part001b.doc w2) = [4]
     ∧ overlays w1 4 = Some 0 ∧ overlays w2 4 = Some 0
     ∧ overlays w2 6 = Some 1 ∧ overlays w2 3 = Some 1 ∧ overlays w2 2 = Some 1)
  ∧ (let d1 := Part001c.restyle Examples.plugin_001c Examples.workspace in
     let d2 := Part001c.restyle Examples.plugin_001c d1 in
     let overlays (d : document) (i : nat) :=
       count_children overlay_class <$> getElement i (body d) in
     querySelectorAll "workspace-leaf" d1 = [4]
     ∧ querySelectorAll "workspace-leaf" d2 = [4]
     ∧ overlays d1 4 = Some 0 ∧ overlays d2 4 = Some 0
     ∧ overlays d2 6 = Some 1 ∧ overlays d2 3 = Some 1 ∧ overlays d2 2 = Some 1).
Proof. split; [intros random|]; by vm_compute. Qed.

(** *** Existing overlays *)

Lemma overlay_colour_001c opacity :
  assign_all (overlay_style_001c opacity) ∅ !! "backgroundColor"
  = Some (CssRgba 255 255 255 opacity).
Proof.
  unfold overlay_style_001c. rewrite !assign_all_cons. cbn [assign_all fold_left].
  rewrite !(assign_other _ _ _ "backgroundColor") by done.
  rewrite assign_accepted by done. apply lookup_insert_eq.
Qed.

Lemma overlay_colour_001a opacity :
  assign_all (overlay_style_001a opacity) ∅ !! "backgroundColor"
  = Some (CssRgba 255 255 255 opacity).
Proof.
  unfold overlay_style_001a. rewrite assign_all_cons. cbn [assign_all fold_left].
  rewrite assign_accepted by done. apply lookup_insert_eq.
Qed.

(** A pass over several targets, for any style of the elements that leaves
    the colour alone. *)
Lemma pass_carries_on est oc targets colours from d :
  distinct_props est → "backgroundColor" ∉ est.*1 →
  (∀ t, t ∈ targets →
     t.1 ≠ oc ∧ ∃ colour, (t.1, colour) ∈ colours
                          ∧ assign_all t.2 ∅ !! "backgroundColor" = Some colour) →
  wf d → carries_on oc colours from d (pass est oc targets d).
Proof.
  intros Hest Hbc. revert d.
  induction targets as [|t targets IH]; intros d Hts Hwf; [by apply carries_on_refl|].
  rewrite pass_cons. destruct (Hts t) as [Hne Hcol]; [left|].
  assert (carries_on oc colours from d
            (JS.forEach (querySelectorAll t.1 d) (step est oc t.2) d)) as H1.
  { apply (forEach_carries_on oc colours from t.1); [done| |done|done].
    intros el d' Hwf' Hel. by apply (step_carries_on est oc t.2 t.1). }
  eapply carries_on_trans; [exact H1|].
  apply IH; [|apply H1]. intros t' Ht'. apply Hts. by right.
Qed.

Lemma restyle_001c_carries_on (this : Part001c.MyPlugin) (d : document) :
  wf d →
  carries_on overlay_class
    (colours_001c (Part001c.opacitySettings (Part001c.settings this)))
    (next_id d) d (Part001c.restyle this d).
Proof.
  intros Hwf. rewrite restyle_001c.
  apply pass_carries_on; [apply distinct_001c|apply (bool_decide_unpack _); by vm_compute| |done].
  intros t Ht. unfold targets_001c in Ht.
  repeat (apply elem_of_cons in Ht as [-> |Ht]); [..|by apply elem_of_nil in Ht];
    (split; [done|]); eexists; (split; [|apply overlay_colour_001c]);
    unfold colours_001c; set_solver.
Qed.

(** The callback of the first variant of part_001 is an instance of the
    common shape. *)
Lemma applyBackgroundAndOverlay_001a random elements opacity w :
  Part001a.doc (Part001a.applyBackgroundAndOverlay random elements opacity w)
  = JS.forEach elements
      (step (element_style_001a (Part001a.getRandomBackground random w).1)
            overlay_class_001a (overlay_style_001a opacity))
      (Part001a.doc w).
Proof.
  unfold Part001a.applyBackgroundAndOverlay.
  assert (Part001a.doc (Part001a.getRandomBackground random w).2 = Part001a.doc w) as Hd
    by reflexivity.
  destruct (Part001a.getRandomBackground random w) as [url w'].
  cbn [Part001a.doc Part001a.with_doc fst snd] in *. rewrite Hd.
  apply forEach_ext. clear. intros el d.
  cbv zeta. rewrite (setStyle_first el "backgroundImage" _ d).
  rewrite querySelector_restyle.
  unfold step.
  rewrite (update_ext el (el_setStyles _) (restyle_with (assign_all (element_style_001a url))))
    by apply el_setStyles_restyle.
  rewrite querySelector_restyle. simpl body. simpl next_id.
  destruct (querySelector el _ _); simpl; done.
Qed.

(** The loop of [updateBackgrounds] over its selectors, for any list of
    them. *)
Lemma selectors_001a_carries_on random colours from (selectors : list (string * Q)) :
  (∀ sel opacity, (sel, opacity) ∈ selectors →
     sel ≠ overlay_class_001a ∧ (sel, CssRgba 255 255 255 opacity) ∈ colours) →
  ∀ w, wf (Part001a.doc w) →
    carries_on overlay_class_001a colours from (Part001a.doc w)
      (Part001a.doc
         (JS.forEach selectors (λ '(selector, opacity) w,
            let elements := querySelectorAll selector (Part001a.doc w) in
            let w := Part001a.with_doc (JS.forEach elements (λ el d,
                         classList_add el "dynamic-backgrounds" d) (Part001a.doc w)) w in
            Part001a.applyBackgroundAndOverlay random elements opacity w) w)).
Proof.
  unfold JS.forEach at 1.
  induction selectors as [|[sel opacity] selectors IH]; intros Hsels w Hwf;
    [by apply carries_on_refl|].
  cbn [fold_left]. destruct (Hsels sel opacity) as [Hne Hcol]; [left|].
  set (els := querySelectorAll sel (Part001a.doc w)).
  set (w1 := Part001a.with_doc _ w).
  assert (carries_on overlay_class_001a colours from (Part001a.doc w) (Part001a.doc w1)) as H1.
  { subst w1. cbn [Part001a.doc Part001a.with_doc].
    apply (forEach_carries_on overlay_class_001a colours from sel); [done| |done|done].
    intros el d' Hwf' Hel. by apply (classList_add_carries_on _ _ _ sel). }
  assert (carries_on overlay_class_001a colours from (Part001a.doc w1)
            (Part001a.doc (Part001a.applyBackgroundAndOverlay random els opacity w1))) as H2.
  { rewrite applyBackgroundAndOverlay_001a.
    apply (forEach_carries_on overlay_class_001a colours from sel); [done| |apply H1|].
    - intros el d' Hwf' Hel.
      apply (step_carries_on _ _ _ sel); [apply distinct_001a| |done| |done|done].
      + apply (bool_decide_unpack _). by vm_compute.
      + eexists. split; [exact Hcol|apply overlay_colour_001a].
    - intros el Hel. destruct H1 as (_ & _ & _ & _ & _ & Hq). by apply Hq. }
  eapply carries_on_trans; [exact H1|]. eapply carries_on_trans; [exact H2|].
  apply IH; [|apply H2]. intros sel' op' Hin. apply Hsels. by right.
Qed.

Lemma updateBackgrounds_001a_carries_on random (w : Part001a.world) :
  wf (Part001a.doc w) →
  carries_on overlay_class_001a
    (colours_001a (Part001a.opacitySettings (Part001a.settings w)))
    (next_id (Part001a.doc w)) (Part001a.doc w)
    (Part001a.doc (Part001a.updateBackgrounds random w)).
Proof.
  intros Hwf. unfold Part001a.updateBackgrounds. cbv zeta.
  apply selectors_001a_carries_on; [|done].
  intros sel opacity Hin. unfold colours_001a.
  repeat (apply elem_of_cons in Hin as [[= -> ->]|Hin]); [..|by apply elem_of_nil in Hin];
    (split; [done|set_solver]).
Qed.

(** C2, as amended.  A restyle pass (third and first variant of part_001,
    over any well-formed tree, whatever the parser accepts) does not touch
    what it finds: every node is still there with the colour it had, so no
    alpha is updated; and an element that carries an overlay, that is, has
    one below it, has one still and gets no new child.  Every node that the
    pass makes is an overlay: it has the overlay class alone, it hangs from
    an element of one of the classes that the pass queries, and its colour
    is white with the opacity that the settings hold for that class. *)
Theorem C2_pass_leaves_existing_overlays :
  (∀ (this : Part001c.MyPlugin) (d : document),
     wf d →
     let d1 := Part001c.restyle this d in
     undisturbed overlay_class d d1
     ∧ made_for overlay_class
         (colours_001c (Part001c.opacitySettings (Part001c.settings this)))
         (next_id d) d1)
  ∧ (∀ (random : nat → Q) (w : Part001a.world),
       wf (Part001a.doc w) →
       let w1 := Part001a.updateBackgrounds random w in
       undisturbed overlay_class_001a (Part001a.doc w) (Part001a.doc w1)
       ∧ made_for overlay_class_001a
           (colours_001a (Part001a.opacitySettings (Part001a.settings w)))
           (next_id (Part001a.doc w)) (Part001a.doc w1)).
Proof.
  split.
  - intros this d Hwf d1.
    pose proof (restyle_001c_carries_on this d Hwf) as H.
    split; [apply H|]. by apply carries_on_made_for.
  - intros random w Hwf w1.
    pose proof (updateBackgrounds_001a_carries_on random w Hwf) as H.
    split; [apply H|]. by apply carries_on_made_for.
Qed.

(** *** The random variant *)

Lemma applyBackgroundAndOverlay_001a_draw (r1 r2 : nat → Q) elements opacity w :
  r1 (Part001a.random_calls w) = r2 (Part001a.random_calls w) →
  Part001a.applyBackgroundAndOverlay r1 elements opacity w
  = Part001a.applyBackgroundAndOverlay r2 elements opacity w.
Proof.
  intros H. unfold Part001a.applyBackgroundAndOverlay, Part001a.getRandomBackground.
  by rewrite H.
Qed.

Lemma applyBackgroundAndOverlay_001a_calls (r : nat → Q) elements opacity w :
  Part001a.random_calls (Part001a.applyBackgroundAndOverlay r elements opacity w)
  = S (Part001a.random_calls w).
Proof. done. Qed.

(** C7, as amended.  In part_000 and the third variant of part_001 the pass
    is a function of the tree, the settings and the cycle index.  In the
    first variant of part_001 it also reads [Math.random], once for each of
    its five selectors: two executions over the same tree with equal settings
    give the same result when these five draws are equal. *)
Theorem C7_pass_depends_on_random_draws :
  (∀ (this1 this2 : Part001c.MyPlugin) d,
     Part001c.settings this1 = Part001c.settings this2 →
     Part001c.currentBackgroundIndex this1 = Part001c.currentBackgroundIndex this2 →
     Part001c.restyle this1 d = Part001c.restyle this2 d)
  ∧ (∀ (this1 this2 : Part000.MyPlugin) d,
       Part000.settings this1 = Part000.settings this2 →
       Part000.currentBackgroundIndex this1 = Part000.currentBackgroundIndex this2 →
       Part000.updateBackgrounds this1 d = Part000.updateBackgrounds this2 d)
  ∧ (∀ (random1 random2 : nat → Q) (w : Part001a.world),
       (∀ k, k < 5 →
          random1 (Part001a.random_calls w + k) = random2 (Part001a.random_calls w + k)) →
       Part001a.updateBackgrounds random1 w = Part001a.updateBackgrounds random2 w).
Proof.
  split_and!.
  - intros this1 this2 d Hs Hi. unfold Part001c.restyle. by rewrite Hs, Hi.
  - intros this1 this2 d Hs Hi. unfold Part000.updateBackgrounds. by rewrite Hs, Hi.
  - intros r1 r2 w H. unfold Part001a.updateBackgrounds.
    match goal with
    | |- JS.forEach ?l _ _ = _ =>
        assert (length l = 5) as Hlen by reflexivity; revert Hlen; generalize l
    end.
    intros sels Hlen. rewrite <- Hlen in H. clear Hlen. revert w H.
    unfold JS.forEach.
    induction sels as [|[sel op] sels IH]; intros w H; [done|]. cbn [fold_left].
    rewrite (applyBackgroundAndOverlay_001a_draw r1 r2).
    + apply IH. intros k Hk. rewrite applyBackgroundAndOverlay_001a_calls. simpl.
      specialize (H (S k)). rewrite Nat.add_succ_r in H. apply H. simpl. lia.
    + simpl. specialize (H 0). rewrite Nat.add_0_r in H. apply H. simpl. lia.
Qed.

(** *** Teardown *)

(** C5 fails on the first variant of part_001, the one with a teardown.
    After [onunload], over any tree, the observer is disconnected and no
    element carries the marker class.  But overlays can stay: the plugin is
    loaded over the workspace and unloaded, and the overlay of the tab header
    container (node 8) is still in the tree, because for that container
    [querySelector] found, and removed, the overlay of the tab header inside
    it. *)
Lemma C5_teardown_leaves_an_overlay :
  (∀ w : Part001a.world,
     Part001a.observing (Part001a.onunload w) = false
     ∧ querySelectorAll "dynamic-backgrounds" (Part001a.doc (Part001a.onunload w)) = [])
  ∧ (let w1 := Part001a.onload (λ _, 0%Q) Part001a.DEFAULT_SETTINGS Examples.workspace 0 in
     let w2 := Part001a.onunload w1 in
     querySelectorAll "dynamic-backgrounds" (Part001a.doc w1) = [2; 3; 4; 5; 6]
     ∧ querySelectorAll "dynamic-backgrounds-overlay" (Part001a.doc w1) = [9; 8; 10; 7]
     ∧ querySelectorAll "dynamic-backgrounds-overlay" (Part001a.doc w2) = [8]
     ∧ (λ e, node_id <$> childNodes e) <$> getElement 2 (body (Part001a.doc w2))
       = Some [3; 8]).
Proof.
  split; [|by vm_compute].
  intros w. split; [done|]. apply removeBackgrounds_clears_markers.
Qed.

End AnyParser.

(** *** On the workspace, with the parser of the examples *)

#[local] Existing Instance Examples.browser.

(** Two passes of the third variant of part_001 over the workspace: the
    second changes nothing, and no element has two overlay children. *)
Lemma second_pass_on_the_workspace :
  wf Examples.workspace
  ∧ (let d1 := Part001c.restyle Examples.plugin_001c Examples.workspace in
     Part001c.restyle Examples.plugin_001c d1 = d1 ∧ at_most_one overlay_class d1).
Proof.
  split; [exact workspace_wf|].
  destruct (second_pass_appends_nothing Examples.workspace workspace_wf) as (_ & H & _).
  destruct (H Examples.plugin_001c) as (H1 & _ & H3 & _).
  split; [exact H1|]. apply H3.
  exact (proj2 (overlay_free_invariants overlay_class [] Examples.workspace
                  workspace_overlay_free)).
Qed.

Lemma restyled_workspace_wf :
  wf (Part001c.restyle Examples.plugin_001c Examples.workspace).
Proof. split; apply (bool_decide_unpack _); by vm_compute. Defined.

(** The pass of the third variant of part_001 has run over the workspace
    with every opacity at its default; it runs again with the opacity of the
    view content at 0.9.  The overlay of the view (node 7) is still white at
    0.5, and the view (node 6) has this overlay as its only child. *)
Lemma C2_witness :
  let d := Part001c.restyle Examples.plugin_001c Examples.workspace in
  let d1 := Part001c.restyle Examples.plugin_001c_moved d in
  wf d
  ∧ Part001c.viewContent
      (Part001c.opacitySettings (Part001c.settings Examples.plugin_001c_moved)) = 0.9%Q
  ∧ (∃ x, x ∈ subtree (body d1) ∧ node_id x = 7
          ∧ style x !! "backgroundColor" = Some (CssRgba 255 255 255 0.5))
  ∧ (∃ x, x ∈ subtree (body d1) ∧ node_id x = 6
          ∧ node_id <$> childNodes x = [7]).
Proof.
  intros d d1.
  destruct C2_pass_leaves_existing_overlays as [H _].
  destruct (H Examples.plugin_001c_moved d restyled_workspace_wf) as [Hu _].
  split; [exact restyled_workspace_wf|]. split; [reflexivity|]. split.
  - destruct (getElement 7 (body d)) as [n|] eqn:E; [|by vm_compute in E].
    assert ((λ e, style e !! "backgroundColor") <$> getElement 7 (body d)
            = Some (Some (CssRgba 255 255 255 0.5))) as Hc by (by vm_compute).
    rewrite E in Hc. injection Hc as Hc.
    apply getElement_Some in E as [Hn Hid].
    destruct (Hu n Hn) as (x & Hx & Hidx & Hcol & _).
    exists x. split; [exact Hx|]. split; [congruence|congruence].
  - destruct (getElement 6 (body d)) as [n|] eqn:E; [|by vm_compute in E].
    assert ((λ e, node_id <$> childNodes e) <$> getElement 6 (body d) = Some [7]) as Hc
      by (by vm_compute).
    assert ((λ e, has_class overlay_class <$> childNodes e) <$> getElement 6 (body d)
            = Some [true]) as Hov by (by vm_compute).
    rewrite E in Hc, Hov. injection Hc as Hc. injection Hov as Hov.
    apply getElement_Some in E as [Hn Hid].
    destruct (Hu n Hn) as (x & Hx & Hidx & _ & Hkeep).
    destruct Hkeep as [_ Hch].
    { destruct (childNodes n) as [|c l] eqn:Ech; [done|]. injection Hov as Hov _.
      exists c. split; [|done]. unfold descendants. rewrite Ech.
      apply in_flat_map_subtree. exists c. split; [left|apply self_in_subtree]. }
    exists x. split; [exact Hx|]. split; [congruence|congruence].
Defined.

(** C2, as stated, fails.  First variant of part_001: the plugin is loaded
    over the workspace, the slider of the view content is moved from 0.5 to
    0.9, its handler runs, and the pass runs again (the command Change
    Background).  Third variant: the pass runs with the defaults and again
    with the view content at 0.9.  In both the setting is 0.9 and the overlay
    of the view (node 7), the one overlay below it, is white at 0.5. *)
Lemma C2_overlay_keeps_its_alpha :
  (let w := Part001a.updateBackgrounds (λ _, 0%Q)
              (Part001a.opacity_onChange Part001a.ViewContent 0.9
                 (Part001a.onload (λ _, 0%Q) Part001a.DEFAULT_SETTINGS Examples.workspace 0)) in
   Part001a.viewContent (Part001a.opacitySettings (Part001a.settings w)) = 0.9%Q
   ∧ querySelectorAll "view-content" (Part001a.doc w) = [6]
   ∧ querySelector 6 overlay_class_001a (Part001a.doc w) = Some 7
   ∧ (λ e, node_id <$> childNodes e) <$> getElement 6 (body (Part001a.doc w)) = Some [7]
   ∧ (λ e, style e !! "backgroundColor") <$> getElement 7 (body (Part001a.doc w))
     = Some (Some (CssRgba 255 255 255 0.5)))
  ∧ (let d := Part001c.restyle Examples.plugin_001c_moved
                (Part001c.restyle Examples.plugin_001c Examples.workspace) in
     Part001c.viewContent
       (Part001c.opacitySettings (Part001c.settings Examples.plugin_001c_moved)) = 0.9%Q
     ∧ querySelectorAll "view-content" d = [6]
     ∧ querySelector 6 overlay_class d = Some 7
     ∧ (λ e, node_id <$> childNodes e) <$> getElement 6 (body d) = Some [7]
     ∧ (λ e, style e !! "backgroundColor") <$> getElement 7 (body d)
       = Some (Some (CssRgba 255 255 255 0.5))).
Proof. split; by vm_compute. Qed.

Lemma C7_witness :
  Part001a.updateBackgrounds (λ k, if (k <? 5)%nat then 0.5%Q else 0%Q) Examples.world_001a
  = Part001a.updateBackgrounds (λ _, 0.5%Q) Examples.world_001a.
Proof.
  destruct C7_pass_depends_on_random_draws as (_ & _ & H).
  apply H. intros k Hk. simpl.
  destruct k as [|[|[|[|[|k]]]]]; [reflexivity..|lia].
Defined.

(** C7, as stated, fails on the first variant of part_001: over the same
    tree and with equal settings, a pass whose draws are 0 gives the view the
    first background, a pass whose draws are 0.5 the second. *)
Lemma C7_same_inputs_different_backgrounds :
  let shown (w : Part001a.world) :=
    (λ e, style e !! "backgroundImage") <$> getElement 6 (body (Part001a.doc w)) in
  shown (Part001a.updateBackgrounds (λ _, 0%Q) Examples.world_001a)
    = Some (Some (CssText ("url(" +:+ JS.dquote +:+ "https://example.com/image1.jpg"
                           +:+ JS.dquote +:+ ")")))
  ∧ shown (Part001a.updateBackgrounds (λ _, 0.5%Q) Examples.world_001a)
    = Some (Some (CssText ("url(" +:+ JS.dquote +:+ "https://example.com/image2.jpg"
                           +:+ JS.dquote +:+ ")"))).
Proof. by vm_compute. Qed.

End StylerClaims.

(** * The cycle driver (claims C3, C4, C10) *)

Module CycleClaims.
Import Dom Styler Shapes DomFacts.

Section AnyParser.

Context {css : CssParser}.










(** *** The interval field *)

Lemma parseInt_nothing_to_read (value : string) :
  (JS.trimStart value = ""
   ∨ ∃ c rest, JS.trimStart value = String c rest
               ∧ c ≠ "+"%char ∧ c ≠ "-"%char ∧ JS.digit_value 10 c = None) →
  JS.parseInt value = JS.NaN.
Proof.
  unfold JS.parseInt. intros [->|(c & rest & -> & Hplus & Hminus & Hdigit)]; [done|].
  destruct c as [[] [] [] [] [] [] [] []];
    first [done | by vm_compute in Hdigit | by (simpl; rewrite Hdigit)].
Qed.

(** In part_000 nothing restarts the cycle: whatever happens after
    [onload], a timer that is active is the one that [onload] started, with
    the interval that was loaded as its period. *)
Lemma run_000_period loaded d h0 events :
  let w := Part000.run (Part000.onload loaded d h0) events in
  Timers.active (Part000.timers w) = []
  ∨ Timers.active (Part000.timers w) = [(h0, Part000.interval loaded)].
Proof.
  unfold Part000.run.
  assert (∀ w, (Timers.active (Part000.timers w) = []
                ∨ Timers.active (Part000.timers w) = [(h0, Part000.interval loaded)]) →
               Timers.active (Part000.timers (fold_left Part000.step events w)) = []
               ∨ Timers.active (Part000.timers (fold_left Part000.step events w))
                 = [(h0, Part000.interval loaded)]) as Hrun.
  { induction events as [|e events IH]; intros w Hw; [done|]. simpl. apply IH.
    destruct e; simpl; try done.
    - by case_bool_decide.
    - destruct (Part000.intervalId (Part000.this w)) as [h|]; simpl; [|done].
      destruct Hw as [-> | ->]; [by left|].
      rewrite filter_cons, filter_nil. case_decide; auto. }
  apply Hrun. by right.
Qed.

(** C10, as amended.  The handler of the interval field stores
    [parseInt(value)] as it comes, for every string: in the settings and in
    the document it saves.  The empty string and a string that does not start
    with a number give NaN.  The third variant of part_001 then restarts the
    cycle, and the stored value, NaN included, is the period of the new timer.
    In main.ts and part_000 the handler leaves the timers as they are (in
    part_000, whatever is entered, an active timer has the interval that was
    loaded as its period); the stored value is the period of the timer that
    [startBackgroundChange] starts when it runs again. *)
Theorem C10_interval_is_parseInt (value : string) :
  (∀ w : Part001c.world,
     let w1 := Part001c.interval_onChange value w in
     let w2 := Part001c.interval_onChange_resume w1 in
     Part001c.interval (Part001c.settings (Part001c.this w1)) = JS.parseInt value
     ∧ Part001c.interval <$> Part001c.storage w1 = Some (JS.parseInt value)
     ∧ Part001c.intervalId (Part001c.this w2)
       = Some (Timers.next_handle (Part001c.timers w1))
     ∧ (Timers.next_handle (Part001c.timers w1), JS.parseInt value)
       ∈ Timers.active (Part001c.timers w2))
  ∧ (∀ w : MainTs.world,
       let w1 := MainTs.interval_onChange value w in
       MainTs.interval (MainTs.settings w1) = JS.parseInt value
       ∧ MainTs.interval <$> MainTs.storage w1 = Some (JS.parseInt value)
       ∧ MainTs.timers w1 = MainTs.timers w
       ∧ MainTs.intervalId w1 = MainTs.intervalId w
       ∧ Timers.active (MainTs.timers (MainTs.startBackgroundChange w1))
         = Timers.active (MainTs.timers w)
           ++ [(Timers.next_handle (MainTs.timers w), JS.parseInt value)])
  ∧ (∀ w : Part000.world,
       let w1 := Part000.interval_onChange value w in
       Part000.interval (Part000.settings (Part000.this w1)) = JS.parseInt value
       ∧ Part000.interval <$> Part000.storage w1 = Some (JS.parseInt value)
       ∧ Part000.timers w1 = Part000.timers w
       ∧ Part000.intervalId (Part000.this w1) = Part000.intervalId (Part000.this w)
       ∧ Timers.active (Part000.timers (Part000.startBackgroundChange w1))
         = Timers.active (Part000.timers w)
           ++ [(Timers.next_handle (Part000.timers w), JS.parseInt value)])
  ∧ (∀ loaded d h0 events,
       let w := Part000.run (Part000.onload loaded d h0)
                  (events ++ [Part000.IntervalInput value]) in
       Part000.interval (Part000.settings (Part000.this w)) = JS.parseInt value
       ∧ (Timers.active (Part000.timers w) = []
          ∨ Timers.active (Part000.timers w) = [(h0, Part000.interval loaded)]))
  ∧ JS.parseInt "" = JS.NaN
  ∧ JS.parseInt "soon" = JS.NaN
  ∧ ((JS.trimStart value = ""
      ∨ ∃ c rest, JS.trimStart value = String c rest
                  ∧ c ≠ "+"%char ∧ c ≠ "-"%char ∧ JS.digit_value 10 c = None) →
     JS.parseInt value = JS.NaN).
Proof.
  split_and!; try done.
  - intros w w1 w2. split_and!; [reflexivity|reflexivity| |];
      subst w2; unfold Part001c.interval_onChange_resume, Part001c.startBackgroundChange;
      simpl; destruct (Part001c.intervalId (Part001c.this w)); simpl; try done;
      apply elem_of_app; right; left.
  - intros loaded d h0 events w. split.
    + subst w. unfold Part000.run. by rewrite fold_left_app.
    + apply run_000_period.
  - apply parseInt_nothing_to_read.
Qed.

(** *** At most one timer *)

Import Invariants.

Lemma forEach_preserves {B St} (P : St → Prop) (f : B → St → St) (l : list B) (s : St) :
  (∀ a s, P s → P (f a s)) → P s → P (JS.forEach l f s).
Proof.
  intros Hf. unfold JS.forEach. revert s.
  induction l as [|a l IH]; intros s Hs; simpl; [done|]. apply IH. by apply Hf.
Qed.

Lemma one_timer_start t id period :
  one_timer t id →
  let t1 := Timers.clearInterval id t in
  let '(h, t2) := Timers.setInterval period t1 in
  one_timer t2 (Some h)
  ∧ Timers.active t2 = [(Timers.next_handle t, period)]
  ∧ Timers.next_handle t ∉ (Timers.active t).*1.
Proof.
  intros [Hone Hlt]. simpl.
  assert (Timers.active (Timers.clearInterval id t) = []) as Hclear.
  { destruct Hone as [H0|(h & p & H1 & ->)]; simpl.
    - destruct id; simpl; [|done]. by rewrite H0.
    - rewrite H1. by rewrite filter_cons, decide_False by (simpl; auto). }
  assert (Timers.next_handle (Timers.clearInterval id t) = Timers.next_handle t) as Hnext
    by by destruct id.
  rewrite Hclear, Hnext. simpl. split_and!.
  - split; [right; eauto|]. repeat constructor.
  - done.
  - intros (x & Hx & Hin)%list_elem_of_fmap. rewrite Forall_forall in Hlt.
    apply Hlt in Hin. lia.
Qed.

Lemma one_timer_clear t id : one_timer t id → one_timer (Timers.clearInterval id t) id.
Proof.
  intros [Hone Hlt]. destruct id as [h|]; [|done]. split; simpl.
  - left. destruct Hone as [->|(h' & p & -> & [= ->])]; [done|].
    by rewrite filter_cons, decide_False by (simpl; auto).
  - rewrite !Forall_forall in *. intros x [_ Hx]%list_elem_of_filter. by apply Hlt.
Qed.

Lemma one_timer_length t id : one_timer t id → (length (Timers.active t) ≤ 1)%nat.
Proof. intros [[->|(h & p & -> & _)] _]; simpl; lia. Qed.

Lemma observer_callback_frame url records w :
  Part001c.timers (Part001c.observer_callback url records w) = Part001c.timers w
  ∧ Part001c.intervalId (Part001c.this (Part001c.observer_callback url records w))
    = Part001c.intervalId (Part001c.this w).
Proof.
  unfold Part001c.observer_callback.
  apply (forEach_preserves
           (λ w', Part001c.timers w' = Part001c.timers w
                  ∧ Part001c.intervalId (Part001c.this w')
                    = Part001c.intervalId (Part001c.this w))); [|done].
  intros m w' [H1 H2]. repeat case_match; simpl; by rewrite ?H1, ?H2.
Qed.

Lemma step_001c_one_timer w e :
  one_timer (Part001c.timers w) (Part001c.intervalId (Part001c.this w)) →
  one_timer (Part001c.timers (Part001c.step w e))
            (Part001c.intervalId (Part001c.this (Part001c.step w e))).
Proof.
  intros Hinv. destruct e; simpl; try done.
  - by case_bool_decide.
  - pose proof (one_timer_start _ _
                  (Part001c.interval (Part001c.settings (Part001c.this w))) Hinv) as H.
    simpl in H. apply H.
  - apply (forEach_preserves
             (λ w', one_timer (Part001c.timers w')
                      (Part001c.intervalId (Part001c.this w')))); [|done].
    intros url w' Hw'. by destruct (observer_callback_frame url records w') as [-> ->].
  - by apply one_timer_clear.
Qed.

Lemma run_001c_one_timer w events :
  one_timer (Part001c.timers w) (Part001c.intervalId (Part001c.this w)) →
  one_timer (Part001c.timers (Part001c.run w events))
            (Part001c.intervalId (Part001c.this (Part001c.run w events))).
Proof.
  unfold Part001c.run. revert w. induction events as [|e events IH]; intros w Hw; [done|].
  simpl. apply IH. by apply step_001c_one_timer.
Qed.

Lemma onload_001c_one_timer loaded d h0 :
  let w := Part001c.onload loaded d h0 in
  one_timer (Part001c.timers w) (Part001c.intervalId (Part001c.this w)).
Proof. simpl. split; [right; eauto|]. repeat constructor. Qed.

Lemma step_000_one_timer w e :
  one_timer (Part000.timers w) (Part000.intervalId (Part000.this w)) →
  one_timer (Part000.timers (Part000.step w e))
            (Part000.intervalId (Part000.this (Part000.step w e))).
Proof.
  intros Hinv. destruct e; simpl; try done.
  - by case_bool_decide.
  - by apply one_timer_clear.
Qed.

Lemma run_000_one_timer w events :
  one_timer (Part000.timers w) (Part000.intervalId (Part000.this w)) →
  one_timer (Part000.timers (Part000.run w events))
            (Part000.intervalId (Part000.this (Part000.run w events))).
Proof.
  unfold Part000.run. revert w. induction events as [|e events IH]; intros w Hw; [done|].
  simpl. apply IH. by apply step_000_one_timer.
Qed.

(** C4.  Whatever happens to a loaded instance (ticks, events of the host,
    input in the settings tab with its handlers suspended and resumed in any
    order, unloading), at most one repeating timer is active; and when the
    handler of the interval field restarts the cycle, the timer that was
    active is cancelled first: afterwards the only active timer is the new
    one, with a handle that no active timer had.  In part_000, where nothing
    restarts the cycle, the timer started by [onload] is the only one. *)
Theorem C4_at_most_one_timer :
  (∀ loaded d h0 events,
     let w := Part001c.run (Part001c.onload loaded d h0) events in
     (length (Timers.active (Part001c.timers w)) ≤ 1)%nat
     ∧ Timers.active (Part001c.timers (Part001c.interval_onChange_resume w))
       = [(Timers.next_handle (Part001c.timers w),
           Part001c.interval (Part001c.settings (Part001c.this w)))]
     ∧ Timers.next_handle (Part001c.timers w)
       ∉ (Timers.active (Part001c.timers w)).*1)
  ∧ (∀ loaded d h0 events,
       let w := Part000.run (Part000.onload loaded d h0) events in
       (length (Timers.active (Part000.timers w)) ≤ 1)%nat).
Proof.
  split; intros loaded d h0 events w.
  - assert (one_timer (Part001c.timers w) (Part001c.intervalId (Part001c.this w))) as Hinv
      by apply run_001c_one_timer, onload_001c_one_timer.
    split; [by eapply one_timer_length|].
    pose proof (one_timer_start _ _
                  (Part001c.interval (Part001c.settings (Part001c.this w))) Hinv) as H.
    simpl in H. destruct H as (_ & H1 & H2). done.
  - eapply one_timer_length. apply run_000_one_timer.
    simpl. split; [right; eauto|]. repeat constructor.
Qed.

End AnyParser.

(** *** On the workspace, with the parser of the examples *)

#[local] Existing Instance Examples.browser.



Lemma C10_witness :
  JS.trimStart "  every minute" = String "e" "very minute"
  ∧ JS.parseInt "  every minute" = JS.NaN.
Proof.
  split; [reflexivity|].
  destruct (C10_interval_is_parseInt "  every minute") as (_ & _ & _ & _ & _ & _ & H).
  apply H. right. exists "e"%char, "very minute". by vm_compute.
Defined.

(** C10, as stated, fails on main.ts and on part_000: the text abc is
    entered in the interval field of a loaded plugin; NaN is stored and
    saved, and the timer that is running is the one that was started at
    load, with its period of 3000. *)
Lemma C10_running_timer_keeps_its_period :
  (let w := MainTs.interval_onChange "abc" Examples.world_main in
   MainTs.interval (MainTs.settings w) = JS.NaN
   ∧ MainTs.interval <$> MainTs.storage w = Some JS.NaN
   ∧ Timers.active (MainTs.timers w) = [(0, JS.Int 3000)])
  ∧ (let w := Part000.run Examples.world_000 [Part000.IntervalInput "abc"; Part000.Tick 0] in
     Part000.interval (Part000.settings (Part000.this w)) = JS.NaN
     ∧ Part000.interval <$> Part000.storage w = Some JS.NaN
     ∧ Timers.active (Part000.timers w) = [(0, JS.Int 3000)]).
Proof. split; by vm_compute. Qed.

End CycleClaims.

(** * The settings surface (claims C6, C9) *)

Module SettingsClaims.

Lemma Array_filter_isValidUrl (URL_accepts : string → bool) (urls : list string)
    (w : Part001a.world) :
  Part001a.Array_filter (Part001a.isValidUrl URL_accepts) urls w
  = (filter (λ u, URL_accepts u = true) urls,
     Part001a.World (Part001a.settings w) (Part001a.doc w) (Part001a.random_calls w)
       (Part001a.observing w)
       (Part001a.console w
          ++ (String.append "Invalid URL: " <$> filter (λ u, URL_accepts u = false) urls))
       (Part001a.storage w)).
Proof.
  revert w. induction urls as [|u urls IH]; intros w; simpl.
  - rewrite app_nil_r. by destruct w.
  - unfold Part001a.isValidUrl at 1. rewrite !filter_cons.
    destruct (URL_accepts u) eqn:Hu; rewrite IH; simpl; [done|].
    by rewrite <- app_assoc.
Qed.

Lemma assign_from_union (source : option (gmap string Persist.json))
    (target : gmap string Persist.json) :
  Persist.assign_from source target = default ∅ source ∪ target.
Proof.
  destruct source as [src|]; simpl; [|by rewrite (left_id_L ∅ (∪))].
  apply (map_fold_weak_ind (λ r m, r = m ∪ target)).
  - by rewrite (left_id_L ∅ (∪)).
  - intros i x m r _ ->. by rewrite insert_union_l.
Qed.

(** C6, as amended.  [loadSettings] merges at the top level only: each
    top-level key of the persisted document gives the loaded value, whole
    (a nested record as persisted, without the defaults of the keys it
    lacks); each top-level key the document lacks keeps its default; with no
    document the defaults are loaded. *)
Theorem C6_load_merges_top_level_keys (defaults : gmap string Persist.json)
    (data : option (gmap string Persist.json)) (key : string) :
  Persist.loadSettings defaults data !! key
  = match data ≫= (.!! key) with
    | Some value => Some value
    | None => defaults !! key
    end.
Proof.
  unfold Persist.loadSettings, Persist.Object_assign. cbn [fold_left].
  rewrite !assign_from_union. cbn [default]. rewrite (right_id_L ∅ (∪)).
  rewrite lookup_union. destruct data as [m|]; simpl.
  - destruct (m !! key), (defaults !! key); done.
  - rewrite lookup_empty. by destruct (defaults !! key).
Qed.

(** C6, as stated, fails: the persisted document holds an opacity record
    with [viewContent] only; the loaded settings have that record as it is,
    so [tabHeader], whose default is 0.3, is undefined. *)
Lemma C6_partial_nested_record_drops_defaults :
  let loaded := Persist.loadSettings Persist.DEFAULT_SETTINGS (Some Examples.partial_data) in
  Persist.get "tabHeader" (Persist.DEFAULT_SETTINGS !! "opacitySettings")
    = Some (Persist.JNumber 0.3)
  ∧ Persist.get "tabHeader" (Some (Persist.JObject Examples.partial_data)) = None
  ∧ Persist.get "tabHeader" (Examples.partial_data !! "opacitySettings") = None
  ∧ Persist.get "viewContent" (loaded !! "opacitySettings") = Some (Persist.JNumber 0.9)
  ∧ Persist.get "tabHeader" (loaded !! "opacitySettings") = None
  ∧ loaded !! "backgrounds" = Persist.DEFAULT_SETTINGS !! "backgrounds".
Proof. by vm_compute. Qed.

(** C9.  When the settings tab accepts a background list (first variant of
    part_001), the entries are the comma-separated pieces, trimmed; the
    handler always runs to its end; the list it stores and saves is exactly
    the entries that [new URL] accepts, in their order; each rejected entry
    adds one warning to the console and nothing else changes. *)
Theorem C9_invalid_urls_are_dropped (URL_accepts : string → bool) (value : string)
    (w : Part001a.world) :
  let entries := JS.trim <$> JS.split "," value in
  let valid := filter (λ u, URL_accepts u = true) entries in
  let w1 := Part001a.backgrounds_onChange URL_accepts value w in
  Part001a.backgrounds (Part001a.settings w1) = valid
  ∧ Part001a.backgrounds <$> Part001a.storage w1 = Some valid
  ∧ Part001a.console w1
    = Part001a.console w
      ++ (String.append "Invalid URL: " <$> filter (λ u, URL_accepts u = false) entries)
  ∧ Part001a.opacitySettings (Part001a.settings w1)
    = Part001a.opacitySettings (Part001a.settings w)
  ∧ Part001a.doc w1 = Part001a.doc w.
Proof.
  intros entries valid w1. subst w1. unfold Part001a.backgrounds_onChange.
  fold entries. rewrite Array_filter_isValidUrl. done.
Qed.

End SettingsClaims.

(** * Debounce (claim C8) *)

Module DebounceClaims.
Import EventLoop.

Section Debounce.

Context {A St : Type} (func : A → St → St) (wait : Z).

Lemma trigger_first (l : loop) (ev : Z * A) :
  pending l = [] → (now l <= ev.1)%Z →
  let st := trigger func wait (None, l) ev in
  armed wait ev.1 ev.2 st ∧ state st.2 = state l ∧ calls st.2 = calls l.
Proof.
  intros Hp Hnow. unfold trigger, debounced, run_until. simpl. rewrite Hp. simpl.
  split_and!; [|done|by rewrite app_nil_r].
  eexists. split_and!; simpl; [done| |lia]. do 3 f_equal. lia.
Qed.

Lemma trigger_within_window (st : option nat * loop) (t : Z) (args : A) (ev : Z * A) :
  armed wait t args st → (t <= ev.1 < t + wait)%Z →
  let st1 := trigger func wait st ev in
  armed wait ev.1 ev.2 st1 ∧ state st1.2 = state st.2 ∧ calls st1.2 = calls st.2.
Proof.
  destruct st as [timeout l]. intros (h & Ht & Hp & Hnow) Hwin. simpl in *. subst timeout.
  unfold trigger, debounced, run_until. simpl. rewrite Hp.
  assert (¬ (t + Z.max 0 wait <= ev.1)%Z) as Hnot by lia.
  rewrite !filter_cons, !filter_nil. simpl.
  rewrite (decide_False (P := (t + Z.max 0 wait <= ev.1)%Z)) by done.
  rewrite (decide_True (P := ¬ (t + Z.max 0 wait <= ev.1)%Z)) by done.
  rewrite filter_cons, filter_nil. simpl.
  rewrite decide_False by auto. simpl.
  split_and!; [|done|by rewrite app_nil_r].
  eexists. split_and!; simpl; [done| |lia]. do 3 f_equal. lia.
Qed.

Lemma last_cons_default {B} (l : list B) : ∀ x d, List.last (x :: l) d = List.last l x.
Proof.
  induction l as [|y l IH]; intros x d; [done|].
  change (List.last (x :: y :: l) d) with (List.last (y :: l) d).
  by rewrite (IH y d), (IH y x).
Qed.

Lemma triggers_within_window (evs : list (Z * A)) :
  ∀ (st : option nat * loop) (t : Z) (args : A),
    armed wait t args st → within_window wait t evs →
    let st1 := triggers func wait evs st in
    armed wait (List.last evs (t, args)).1 (List.last evs (t, args)).2 st1
    ∧ state st1.2 = state st.2 ∧ calls st1.2 = calls st.2.
Proof.
  induction evs as [|ev evs IH]; intros st t args Harmed Hwin; [done|].
  destruct Hwin as [Hev Hwin].
  destruct (trigger_within_window st t args ev Harmed Hev) as (Ha & Hs & Hc).
  destruct (IH _ _ _ Ha Hwin) as (Ha' & Hs' & Hc').
  unfold triggers in *. cbn [fold_left].
  assert (List.last (ev :: evs) (t, args) = List.last evs (ev.1, ev.2)) as ->.
  { destruct ev as [t' a']. apply last_cons_default. }
  split_and!; [done|congruence|congruence].
Qed.

Lemma run_until_armed (st : option nat * loop) (t : Z) (args : A) (T : Z) :
  armed wait t args st →
  ((t + Z.max 0 wait <= T)%Z →
     calls (run_until func T st.2) = calls st.2 ++ [args]
     ∧ state (run_until func T st.2) = func args (state st.2)
     ∧ pending (run_until func T st.2) = [])
  ∧ ((T < t + Z.max 0 wait)%Z →
       calls (run_until func T st.2) = calls st.2
       ∧ state (run_until func T st.2) = state st.2).
Proof.
  intros (h & _ & Hp & _). unfold run_until. simpl. rewrite Hp.
  rewrite !filter_cons, !filter_nil. simpl. split; intros HT.
  - rewrite (decide_True (P := (t + Z.max 0 wait <= T)%Z)) by done.
    rewrite (decide_False (P := ¬ (t + Z.max 0 wait <= T)%Z)) by tauto. done.
  - rewrite (decide_False (P := (t + Z.max 0 wait <= T)%Z)) by lia. by rewrite app_nil_r.
Qed.

End Debounce.

(** C8.  The function returned by [debounce(func, wait)] is called with
    [first] and then with the calls of [rest], each within the quiet window
    of the one before.  Until the window of the last call has passed nothing
    runs; once it has, [func] has run exactly once, with the arguments of the
    last call, and no timer is left. *)
Theorem C8_debounce_runs_last_call_once {A St : Type} (func : A → St → St) (wait : Z)
    (l : loop) (first : Z * A) (rest : list (Z * A)) (T : Z) :
  pending l = [] → (now l <= first.1)%Z → within_window wait first.1 rest →
  let st := triggers func wait (first :: rest) (None, l) in
  let final := List.last rest first in
  ((final.1 + Z.max 0 wait <= T)%Z →
     calls (run_until func T st.2) = calls l ++ [final.2]
     ∧ state (run_until func T st.2) = func final.2 (state l)
     ∧ pending (run_until func T st.2) = [])
  ∧ ((T < final.1 + Z.max 0 wait)%Z →
       calls (run_until func T st.2) = calls l
       ∧ state (run_until func T st.2) = state l).
Proof.
  intros Hp Hnow Hwin st final.
  destruct (trigger_first func wait l first Hp Hnow) as (Ha & Hs & Hc).
  destruct (triggers_within_window func wait rest _ _ _ Ha Hwin) as (Ha' & Hs' & Hc').
  assert (List.last rest (first.1, first.2) = final) as Hlast by by destruct first.
  rewrite Hlast in Ha'.
  destruct (run_until_armed func wait _ _ _ T Ha') as [H1 H2].
  unfold triggers in *. cbn [fold_left] in st. subst st.
  rewrite Hs', Hc', Hs, Hc in *. done.
Qed.

(** Five events 100 ms apart, debounced with a wait of 300 ms: 300 ms after
    the fifth, [func] has run once, for the fifth. *)
Lemma C8_witness :
  within_window 300 0 Examples.five_events
  ∧ calls (run_until (λ _ n, S n) 700
             (triggers (λ _ n, S n) 300 ((0%Z, 1) :: Examples.five_events)
                       (None, Examples.idle)).2) = [5]
  ∧ state (run_until (λ _ n, S n) 700
             (triggers (λ _ n, S n) 300 ((0%Z, 1) :: Examples.five_events)
                       (None, Examples.idle)).2) = 1.
Proof.
  assert (within_window 300 0 Examples.five_events) as Hwin by (simpl; lia).
  split; [exact Hwin|].
  destruct (C8_debounce_runs_last_call_once (λ _ n, S n) 300 Examples.idle (0%Z, 1)
              Examples.five_events 700 eq_refl ltac:(simpl; lia) Hwin) as [H _].
  destruct H as (H1 & H2 & _); [simpl; lia|]. split; [exact H1|exact H2].
Defined.

End DebounceClaims.
